(** * File_System.cpp: four block-allocation engines over an in-memory device

    Shallow embedding of [src/File_System.cpp]: the class templates
    [ContiguousFileSystem<N>], [LinkedFileSystem<N>], [IndexedFileSystem<N>]
    and [ModifiedContiguousFileSystem<N>], and the loop of [main] over the
    lines of a query file.

    Conventions of the embedding.
    - A C++ [int] is a [Z].  Where an [int] is compared with a [size()] it
      is converted to [size_t]: [to_size_t], with the wrap-around of a
      negative value written out.  Where it is a position of a bitset or
      of a vector, the positions are the numbers from 0 to the size, a
      negative [int] being converted to a number beyond every size.
    - [bitset<N>] is a [list bool] of length [N]; [operator[]] is unchecked
      (outside [0, N) the behaviour is undefined), [set] and [reset] are
      range-checked and raise [std::out_of_range].
    - [unordered_map<string, File*>] is a [gmap string File].
    - A member function is a function from the object's state to an
      [outcome]: a normal return with the new state and what was reported, an
      uncaught exception, undefined behaviour, or the exhaustion of the
      bound the model gives a [while] loop.  The searches for a hole get
      the bound [N + 1], which they never use up for a size that is not
      negative ([get_index_total]); the other loops are bounded by their own
      counters.
    - The text written to [cout] is kept as the list of block numbers of the
      "Reading block" / "Writing block" lines; the message written to [cerr]
      on an early return is kept as an [error]. *)

From stdpp Require Import gmap strings list fin_maps numbers.

Local Open Scope Z_scope.

(** ** Outcomes of a call *)

Inductive outcome (A : Type) : Type :=
| Done (a : A)   (* the call returned *)
| Thrown         (* std::out_of_range left the call; nothing catches it *)
| Undefined      (* unchecked access outside an object, null dereference *)
| Timeout.       (* the loop bound of the model was used up *)

Arguments Done {A} a.
Arguments Thrown {A}.
Arguments Undefined {A}.
Arguments Timeout {A}.

Definition bind {A B : Type} (c : outcome A) (f : A → outcome B) : outcome B :=
  match c with
  | Done a => f a
  | Thrown => Thrown
  | Undefined => Undefined
  | Timeout => Timeout
  end.

Notation "'let*' x := c 'in' k" := (bind c (λ x, k))
  (at level 10, x pattern, c at level 100, k at level 200).

(** The three messages an operation writes to [cerr] before returning early. *)
Inductive error : Type := DuplicateName | NotFound | OutOfSpace.

Inductive reply (A : Type) : Type :=
| Ok (a : A)
| Fail (e : error).

Arguments Ok {A} a.
Arguments Fail {A} e.

(** ** Integers *)

Definition INT_MAX : Z := 2147483647.

(** Conversion of an [int] to the 64-bit [size_t]. *)
Definition to_size_t (z : Z) : Z := if z <? 0 then z + 2 ^ 64 else z.

(** The positions [a, a+1, ..., a+n-1]. *)
Fixpoint upto (n : nat) (a : Z) : list Z :=
  match n with
  | O => []
  | S n' => a :: upto n' (a + 1)
  end.

(** Sum of the sizes of the values of a registry. *)
Definition total_size {A : Type} (sz : A → Z) (m : gmap string A) : Z :=
  map_fold (λ _ x acc, sz x + acc) 0 m.

(** ** The lines of a query file *)

Inductive command : Type :=
| CREATE (file_name : string) (file_size : Z)
| READ (file_name : string) (size offset : Z)
| WRITE (file_name : string) (size offset : Z)
| DELETE_FILE (file_name : string).

(** The sizes and offsets of a line are not negative. *)
Definition valid (c : command) : Prop :=
  match c with
  | CREATE _ k => 0 ≤ k
  | READ _ sz off | WRITE _ sz off => 0 ≤ sz ∧ 0 ≤ off
  | DELETE_FILE _ => True
  end.

(** The creates of the line ask for at least one block. *)
Definition creates_blocks (c : command) : Prop :=
  match c with
  | CREATE _ k => 1 ≤ k
  | _ => True
  end.

(** ** bitset<N> *)

Section Bitset.
Variable N : nat.

(** A position is passed as an [int] and converted to [size_t]; it is a
    position of the bitset when it is below [N] then.  A negative [int]
    becomes a number of at least [2^64 - 2^31], beyond every bitset, so that
    the positions of the bitset are the [int]s from 0 to [N - 1] (see
    [in_range_size_t]). *)
Definition in_range (pos : Z) : bool := (0 <=? pos) && (pos <? Z.of_nat N).

(** The element of the list a position stands for. *)
Definition idx (p : Z) : nat := Z.to_nat p.

(** [memory_map[pos]]: no range check. *)
Definition bs_test (m : list bool) (pos : Z) : outcome bool :=
  if in_range pos then
    match m !! idx pos with
    | Some b => Done b
    | None => Undefined
    end
  else Undefined.

(** [memory_map.set(pos)] / [memory_map.reset(pos)]: range-checked. *)
Definition bs_assign (v : bool) (m : list bool) (pos : Z) : outcome (list bool) :=
  if in_range pos then Done (<[idx pos := v]> m) else Thrown.

(** [for (int i = 0; i < cnt; i++) memory_map.set(i + base);]
    (or [reset]), written with the loop counter [i]. *)
Fixpoint assign_loop (v : bool) (n : nat) (base i : Z) (m : list bool)
  : outcome (list bool) :=
  match n with
  | O => Done m
  | S n' => let* m' := bs_assign v m (i + base) in assign_loop v n' base (i + 1) m'
  end.

Definition assign_run (v : bool) (m : list bool) (base cnt : Z) : outcome (list bool) :=
  assign_loop v (Z.to_nat cnt) base 0 m.

(** The inner loop of the hole searches:
    [while (j < memory_size && guard(j) && memory_map[j] == 0) j++;]
    where [guard] is [j < i + size] (first-fit, next-fit) or absent
    (best-fit, worst-fit).  From a [j] that is not negative it makes at most
    [N] turns. *)
Fixpoint hole_scan (fuel : nat) (m : list bool) (guard : Z → bool) (j : Z)
  : outcome Z :=
  match fuel with
  | O => Timeout
  | S f =>
      if (j <? Z.of_nat N) && guard j then
        let* b := bs_test m j in
        if b then Done j else hole_scan f m guard (j + 1)
      else Done j
  end.

(** The blocks [start, start + size) exist and are free. *)
Definition free_run (m : list bool) (start size : Z) : Prop :=
  ∀ p, start ≤ p < start + size → bs_test m p = Done false.


(** popcount of the map. *)
Definition popcount (m : list bool) : Z :=
  Z.of_nat (length (filter (λ b : bool, b = true) m)).
End Bitset.

(** ** ContiguousFileSystem<N> *)

Inductive Strategy : Type := FIRST_FIT | BEST_FIT | NEXT_FIT | WORST_FIT.

Module ContiguousFileSystem.

Record File : Type := mkFile { filesize : Z; start_block : Z }.

Record t : Type := mk {
  memory_map : list bool;
  file_map : gmap string File;
  start_index : Z;
  strategy : Strategy;
  used_memory : Z
}.

Section WithN.
Variable N : nat.

Definition memory_size : Z := Z.of_nat N.

(** The constructor. *)
Definition new (alg : Strategy) : t :=
  mk (replicate N false) ∅ 0 alg 0.

(** [first_fit], lines 217-236.  [i] grows at every turn of the outer loop
    (a hole that is too small is left by [i += j]), so that there are at
    most [N] turns. *)
Fixpoint first_fit_loop (fuel : nat) (m : list bool) (size i : Z) : outcome Z :=
  match fuel with
  | O => Timeout
  | S f =>
      if i <? memory_size then
        let* b := bs_test N m i in
        if negb b then
          let* j := hole_scan N (S N) m (λ j, j <? i + size) i in
          if j =? i + size then Done i
          else first_fit_loop f m size (i + j)
        else first_fit_loop f m size (i + 1)
      else Done (-1)
  end.

Definition first_fit (s : t) (size : Z) : outcome Z :=
  first_fit_loop (S N) (memory_map s) size 0.

(** [best_fit], lines 244-269. *)
Fixpoint best_fit_loop (fuel : nat) (m : list bool) (size i min_size ind : Z)
  : outcome Z :=
  match fuel with
  | O => Timeout
  | S f =>
      if i <? memory_size then
        let* b := bs_test N m i in
        if negb b then
          let* j := hole_scan N (S N) m (λ _, true) i in
          if (j >=? i + size) && (j - i <=? min_size)
          then best_fit_loop f m size j (j - i) i
          else best_fit_loop f m size j min_size ind
        else best_fit_loop f m size (i + 1) min_size ind
      else Done ind
  end.

Definition best_fit (s : t) (size : Z) : outcome Z :=
  best_fit_loop (S N) (memory_map s) size 0 INT_MAX (-1).

(** [worst_fit], lines 277-301. *)
Fixpoint worst_fit_loop (fuel : nat) (m : list bool) (size i max_size ind : Z)
  : outcome Z :=
  match fuel with
  | O => Timeout
  | S f =>
      if i <? memory_size then
        let* b := bs_test N m i in
        if negb b then
          let* j := hole_scan N (S N) m (λ _, true) i in
          if (j >=? i + size) && (j - i >? max_size)
          then worst_fit_loop f m size (i + j) (j - i) i
          else worst_fit_loop f m size (i + j) max_size ind
        else worst_fit_loop f m size (i + 1) max_size ind
      else Done ind
  end.

Definition worst_fit (s : t) (size : Z) : outcome Z :=
  worst_fit_loop (S N) (memory_map s) size 0 0 (-1).

(** [next_fit], lines 309-333.  The result is the returned index and the
    value of the member [start_index] at the return. *)
Fixpoint next_fit_loop (fuel : nat) (m : list bool) (size cursor i count : Z)
  : outcome (Z * Z) :=
  match fuel with
  | O => Timeout
  | S f =>
      if count <? memory_size then
        let* b := bs_test N m i in
        if negb b then
          let* j := hole_scan N (S N) m (λ j, j <? i + size) i in
          if j =? i + size then Done (i, Z.rem (j + i) memory_size)
          else next_fit_loop f m size cursor (Z.rem (i + j) memory_size) (count + j)
        else next_fit_loop f m size cursor (Z.rem (i + 1) memory_size) (count + 1)
      else Done (-1, cursor)
  end.

Definition next_fit (s : t) (size : Z) : outcome (Z * Z) :=
  next_fit_loop (S N) (memory_map s) size (start_index s) (start_index s) 0.

(** [get_index], lines 341-350: the index and the cursor afterwards. *)
Definition get_index (s : t) (size : Z) : outcome (Z * Z) :=
  match strategy s with
  | FIRST_FIT => let* i := first_fit s size in Done (i, start_index s)
  | BEST_FIT => let* i := best_fit s size in Done (i, start_index s)
  | WORST_FIT => let* i := worst_fit s size in Done (i, start_index s)
  | NEXT_FIT => next_fit s size
  end.

(** [create], lines 47-73.  Reports the starting block. *)
Definition create (filename : string) (fsize : Z) (s : t) : outcome (t * reply Z) :=
  match file_map s !! filename with
  | Some _ => Done (s, Fail DuplicateName)
  | None =>
      let* (start, cur) := get_index s fsize in
      let s1 := mk (memory_map s) (file_map s) cur (strategy s) (used_memory s) in
      if start =? -1 then Done (s1, Fail OutOfSpace)
      else
        let* m := assign_run N true (memory_map s1) start fsize in
        Done (mk m (<[filename := mkFile fsize start]> (file_map s1))
                 cur (strategy s1) (used_memory s1 + fsize),
              Ok start)
  end.

(** The loop of [read], lines 97-104: the locals [read] and
    [block_access] at the exit and the blocks printed. *)
Fixpoint read_loop (n : nat) (fp : File) (size offset i rd block_access : Z)
  (out : list Z) : Z * Z * list Z :=
  match n with
  | O => (rd, block_access, out)
  | S n' =>
      if (i <? filesize fp) && (rd <? size) then
        if i >=? offset
        then read_loop n' fp size offset (i + 1) (rd + 1) (block_access + 1)
               (out ++ [start_block fp + i])
        else read_loop n' fp size offset (i + 1) rd (block_access + 1) out
      else (rd, block_access, out)
  end.

(** [read], lines 83-109: the returned integer and the blocks printed. *)
Definition read (filename : string) (size offset : Z) (s : t)
  : outcome (Z * reply (list Z)) :=
  let block_access := 1 in
  match file_map s !! filename with
  | None => Done (block_access, Fail NotFound)
  | Some fp =>
      let size := if size =? -1 then filesize fp else size in
      let '(_, _, out) :=
        read_loop (Z.to_nat (filesize fp)) fp size offset 0 0 block_access [] in
      Done (size + 1, Ok out)
  end.

(** [delete_file], lines 116-136. *)
Definition delete_file (filename : string) (s : t) : outcome (t * reply unit) :=
  match file_map s !! filename with
  | None => Done (s, Fail NotFound)
  | Some fp =>
      let* m := assign_run N false (memory_map s) (start_block fp) (filesize fp) in
      Done (mk m (delete filename (file_map s)) (start_index s) (strategy s)
               (used_memory s - filesize fp),
            Ok ())
  end.

(** The probing loop of [write], lines 162-165: the value of [available]
    at the exit. *)
Fixpoint probe (n : nat) (m : list bool) (end_ available : Z) : outcome Z :=
  match n with
  | O => Done available
  | S n' =>
      let* b := bs_test N m (available + end_) in
      if b then Done available else probe n' m end_ (available + 1)
  end.

(** [write], lines 146-190. *)
Definition write (filename : string) (size offset : Z) (s : t)
  : outcome (t * (Z * reply (list Z))) :=
  let block_access := 1 in
  match file_map s !! filename with
  | None => Done (s, (block_access, Fail NotFound))
  | Some fp =>
      let emit (fp' : File) (s' : t) :=
        let start := start_block fp' + offset in
        Done (s', (size + 1, Ok (upto (Z.to_nat size) start))) in
      if size + offset >? filesize fp then
        let req := size + offset - filesize fp in
        let end_ := start_block fp + filesize fp in
        let* available := probe (Z.to_nat req) (memory_map s) end_ 0 in
        if negb (available =? req) then Done (s, (block_access, Fail OutOfSpace))
        else
          let* m := assign_loop N true (Z.to_nat req) end_ 0 (memory_map s) in
          let fp' := mkFile (filesize fp + req) (start_block fp) in
          emit fp' (mk m (<[filename := fp']> (file_map s)) (start_index s)
                      (strategy s) (used_memory s + req))
      else emit fp s
  end.

(** Sum of the sizes of the registered files. *)
Definition live_size (s : t) : Z := total_size filesize (file_map s).

(** What the driver does with one line, for this allocator, and with the
    lines of a file. *)
Definition exec (c : command) (s : t) : outcome t :=
  match c with
  | CREATE f k => let* (s', _) := create f k s in Done s'
  | READ f sz off => let* _ := read f sz off s in Done s
  | WRITE f sz off => let* (s', _) := write f sz off s in Done s'
  | DELETE_FILE f => let* (s', _) := delete_file f s in Done s'
  end.

Fixpoint exec_all (cs : list command) (s : t) : outcome t :=
  match cs with
  | [] => Done s
  | c :: cs' => let* s' := exec c s in exec_all cs' s'
  end.

(** The positions of the blocks of a file. *)
Definition in_file (fp : File) (p : Z) : Prop :=
  start_block fp ≤ p < start_block fp + filesize fp.

(** The map and the registry agree: every file lies on used blocks, no
    block belongs to two files, and the sizes add up to the number of used
    blocks. *)
Record consistent (s : t) : Prop := mkConsistent {
  c_length : length (memory_map s) = N;
  c_owned : ∀ f fp, file_map s !! f = Some fp →
            0 ≤ filesize fp ∧ ∀ p, in_file fp p → bs_test N (memory_map s) p = Done true;
  c_disjoint : ∀ f g fp gp p, f ≠ g →
               file_map s !! f = Some fp → file_map s !! g = Some gp →
               in_file fp p → ¬ in_file gp p;
  c_count : popcount (memory_map s) = live_size s
}.


End WithN.
End ContiguousFileSystem.

(** ** LinkedFileSystem<N>

    Every [block] object is created once, by the constructor, and is from
    then on referenced by exactly one pointer: an entry of [free_list], the
    [start_block] of a file or the [next] of the block before it in a file;
    the blocks of [free_list] have [next == nullptr].  A chain is therefore
    kept as the list of the ids met by following [next] from its head, and
    [nullptr] is the empty chain. *)

Module LinkedFileSystem.

Record File : Type := mkFile { filesize : Z; start_block : list Z }.

Record t : Type := mk {
  free_list : list Z;
  file_map : gmap string File;
  used_memory : Z
}.

(** The constructor: blocks [0 .. N-1], in this order. *)
Definition new (N : nat) : t := mk (upto N 0) ∅ 0.

(** The linking loop of [create], lines 422-426: [n] further blocks are
    taken from the head of the free list and appended to the chain. *)
Fixpoint link (n : nat) (chain free : list Z) : outcome (list Z * list Z) :=
  match n with
  | O => Done (chain, free)
  | S n' =>
      match free with
      | [] => Undefined
      | b :: free' => link n' (chain ++ [b]) free'
      end
  end.

(** [create], lines 403-431. *)
Definition create (filename : string) (size : Z) (s : t) : outcome (t * reply Z) :=
  match file_map s !! filename with
  | Some _ => Done (s, Fail DuplicateName)
  | None =>
      if Z.of_nat (length (free_list s)) <? to_size_t size
      then Done (s, Fail OutOfSpace)
      else
        match free_list s with
        | [] => Undefined
        | start :: free =>
            let* (chain, free') := link (Z.to_nat (size - 1)) [start] free in
            Done (mk free' (<[filename := mkFile size chain]> (file_map s))
                     (used_memory s + size),
                  Ok start)
        end
  end.

(** The loop of [read], lines 455-463, on the rest of the chain. *)
Fixpoint read_loop (chain : list Z) (size offset bno rd block_access : Z)
  (out : list Z) : Z * Z * list Z :=
  match chain with
  | [] => (rd, block_access, out)
  | b :: rest =>
      if rd <? size then
        if bno >=? offset
        then read_loop rest size offset (bno + 1) (rd + 1) (block_access + 1) (out ++ [b])
        else read_loop rest size offset (bno + 1) rd (block_access + 1) out
      else (rd, block_access, out)
  end.

(** [read], lines 441-468. *)
Definition read (filename : string) (size offset : Z) (s : t)
  : outcome (Z * reply (list Z)) :=
  let block_access := 1 in
  match file_map s !! filename with
  | None => Done (block_access, Fail NotFound)
  | Some fp =>
      let '(_, block_access, out) :=
        read_loop (start_block fp) size offset 0 0 block_access [] in
      Done (block_access, Ok out)
  end.

(** The locals and the members the loop of [write] works on: the part of
    the chain already passed ([prev] is its last block), the part still
    ahead ([curr] is its first block). *)
Record wstate : Type := mkW {
  passed : list Z;
  ahead : list Z;
  w_free : list Z;
  w_filesize : Z;
  w_used : Z;
  bno : Z;
  written : Z;
  w_access : Z;
  w_out : list Z
}.

(** One turn of the loop of [write], lines 500-516. *)
Definition write_step (offset : Z) (w : wstate) : outcome wstate :=
  let* (curr, rest, free, fsz, used) :=
    match ahead w with
    | c :: rest => Done (c, rest, w_free w, w_filesize w, w_used w)
    | [] =>
        match passed w, w_free w with
        | [], _ => Undefined            (* prev->next with prev == nullptr *)
        | _, [] => Undefined            (* front() of an empty list *)
        | _, c :: free => Done (c, [], free, w_filesize w + 1, w_used w + 1)
        end
    end in
  let hit := bno w >=? offset in
  Done (mkW (passed w ++ [curr]) rest free fsz used (bno w + 1)
          (if hit then written w + 1 else written w)
          (w_access w + 1)
          (if hit then w_out w ++ [curr] else w_out w)).

Fixpoint write_loop (fuel : nat) (size offset : Z) (w : wstate) : outcome wstate :=
  if written w =? size then Done w
  else
    match fuel with
    | O => Timeout
    | S f => let* w' := write_step offset w in write_loop f size offset w'
    end.

(** [write], lines 478-524.  The loop makes [max(offset, 0) + size] turns
    when [size] is positive and none when it is [0]. *)
Definition write (filename : string) (size offset : Z) (s : t)
  : outcome (t * (Z * reply (list Z))) :=
  let block_access := 1 in
  match file_map s !! filename with
  | None => Done (s, (block_access, Fail NotFound))
  | Some fp =>
      if (offset + size >? filesize fp)
         && (to_size_t (offset + size - filesize fp) >? Z.of_nat (length (free_list s)))
      then Done (s, (block_access, Fail OutOfSpace))
      else
        let* w := write_loop (Z.to_nat (Z.max offset 0 + size)) size offset
                    (mkW [] (start_block fp) (free_list s) (filesize fp)
                       (used_memory s) 0 0 block_access []) in
        Done (mk (w_free w)
                 (<[filename := mkFile (w_filesize w) (passed w ++ ahead w)]> (file_map s))
                 (w_used w),
              (w_access w, Ok (w_out w)))
  end.

(** [delete_file], lines 531-555: the chain goes to the back of the free
    list, block by block from the head. *)
Definition delete_file (filename : string) (s : t) : outcome (t * reply unit) :=
  match file_map s !! filename with
  | None => Done (s, Fail NotFound)
  | Some fp =>
      Done (mk (free_list s ++ start_block fp) (delete filename (file_map s))
               (used_memory s - filesize fp),
            Ok ())
  end.

Definition live_size (s : t) : Z := total_size filesize (file_map s).

(** What the driver does with one line, for this allocator, and with the
    lines of a file. *)
Definition exec (c : command) (s : t) : outcome t :=
  match c with
  | CREATE f k => let* (s', _) := create f k s in Done s'
  | READ f sz off => let* _ := read f sz off s in Done s
  | WRITE f sz off => let* (s', _) := write f sz off s in Done s'
  | DELETE_FILE f => let* (s', _) := delete_file f s in Done s'
  end.

Fixpoint exec_all (cs : list command) (s : t) : outcome t :=
  match cs with
  | [] => Done s
  | c :: cs' => let* s' := exec c s in exec_all cs' s'
  end.

(** Every chain is as long as its file is large, and the blocks of the
    files and the free blocks are the [N] blocks. *)
Definition counted (N : nat) (s : t) : Prop :=
  (∀ f fp, file_map s !! f = Some fp → Z.of_nat (length (start_block fp)) = filesize fp)
  ∧ live_size s = Z.of_nat N - Z.of_nat (length (free_list s)).

End LinkedFileSystem.

(** ** IndexedFileSystem<N> *)

Module IndexedFileSystem.

Record File : Type := mkFile { filesize : Z; block_indices : list Z }.

Record t : Type := mk {
  file_map : gmap string File;
  free_list : list Z;
  used_memory : Z
}.

Definition new (N : nat) : t := mk ∅ (upto N 0) 0.

(** [fp->block_indices[i]]: [vector::operator[]] is unchecked.  The [int]
    index is converted to [size_t], and a negative one is beyond every
    vector. *)
Definition at_index (v : list Z) (i : Z) : outcome Z :=
  if (0 <=? i) && (i <? Z.of_nat (length v)) then
    match v !! Z.to_nat i with
    | Some b => Done b
    | None => Undefined
    end
  else Undefined.

(** The loop of [create], lines 617-620. *)
Fixpoint take_blocks (n : nat) (table free : list Z) : outcome (list Z * list Z) :=
  match n with
  | O => Done (table, free)
  | S n' =>
      match free with
      | [] => Undefined
      | b :: free' => take_blocks n' (table ++ [b]) free'
      end
  end.

(** [create], lines 602-625; the last statement prints
    [fp->block_indices[0]]. *)
Definition create (filename : string) (size : Z) (s : t) : outcome (t * reply Z) :=
  match file_map s !! filename with
  | Some _ => Done (s, Fail DuplicateName)
  | None =>
      if Z.of_nat (length (free_list s)) <? to_size_t size
      then Done (s, Fail OutOfSpace)
      else
        let* (table, free) := take_blocks (Z.to_nat size) [] (free_list s) in
        let* first := at_index table 0 in
        Done (mk (<[filename := mkFile size table]> (file_map s)) free
                 (used_memory s + size),
              Ok first)
  end.

(** The loop of [read], lines 649-653. *)
Fixpoint read_loop (n : nat) (fp : File) (size i rd block_access : Z) (out : list Z)
  : outcome (Z * Z * list Z) :=
  match n with
  | O => Done (rd, block_access, out)
  | S n' =>
      if (i <? filesize fp) && (rd <? size) then
        let* b := at_index (block_indices fp) i in
        read_loop n' fp size (i + 1) (rd + 1) (block_access + 1) (out ++ [b])
      else Done (rd, block_access, out)
  end.

(** [read], lines 635-658.  The loop makes at most [size] turns. *)
Definition read (filename : string) (size offset : Z) (s : t)
  : outcome (Z * reply (list Z)) :=
  let block_access := 1 in
  match file_map s !! filename with
  | None => Done (block_access, Fail NotFound)
  | Some fp =>
      let size := if size =? -1 then filesize fp else size in
      let* (_, block_access, out) :=
        read_loop (Z.to_nat size) fp size offset 0 block_access [] in
      Done (block_access, Ok out)
  end.

(** The locals and the members the loop of [write] works on. *)
Record wstate : Type := mkW {
  w_table : list Z;
  w_free : list Z;
  w_filesize : Z;
  w_used : Z;
  bno : Z;
  written : Z;
  w_access : Z;
  w_out : list Z
}.

(** One turn of the loop of [write], lines 688-699. *)
Definition write_step (w : wstate) : outcome wstate :=
  let* (table, free, fsz, used) :=
    if to_size_t (bno w) >=? Z.of_nat (length (w_table w)) then
      match w_free w with
      | [] => Undefined
      | b :: free => Done (w_table w ++ [b], free, w_filesize w + 1, w_used w + 1)
      end
    else Done (w_table w, w_free w, w_filesize w, w_used w) in
  let* b := at_index table (bno w) in
  Done (mkW table free fsz used (bno w + 1) (written w + 1) (w_access w + 1)
          (w_out w ++ [b])).

Fixpoint write_loop (n : nat) (size : Z) (w : wstate) : outcome wstate :=
  match n with
  | O => Done w
  | S n' =>
      if written w <? size
      then let* w' := write_step w in write_loop n' size w'
      else Done w
  end.

(** [write], lines 668-705.  [written] counts the turns of the loop, so
    that it makes [size] turns. *)
Definition write (filename : string) (size offset : Z) (s : t)
  : outcome (t * (Z * reply (list Z))) :=
  let block_access := 1 in
  match file_map s !! filename with
  | None => Done (s, (block_access, Fail NotFound))
  | Some fp =>
      if (offset + size >? filesize fp)
         && (to_size_t (offset + size - filesize fp) >? Z.of_nat (length (free_list s)))
      then Done (s, (block_access, Fail OutOfSpace))
      else
        let* w := write_loop (Z.to_nat size) size
                    (mkW (block_indices fp) (free_list s) (filesize fp)
                       (used_memory s) offset 0 block_access []) in
        Done (mk (<[filename := mkFile (w_filesize w) (w_table w)]> (file_map s))
                 (w_free w) (w_used w),
              (w_access w, Ok (w_out w)))
  end.

(** [delete_file], lines 712-728. *)
Definition delete_file (filename : string) (s : t) : outcome (t * reply unit) :=
  match file_map s !! filename with
  | None => Done (s, Fail NotFound)
  | Some fp =>
      Done (mk (delete filename (file_map s)) (free_list s ++ block_indices fp)
               (used_memory s - filesize fp),
            Ok ())
  end.

Definition live_size (s : t) : Z := total_size filesize (file_map s).

(** Every table is as long as its file is large. *)
Definition tables_sized (s : t) : Prop :=
  ∀ f fp, file_map s !! f = Some fp → Z.of_nat (length (block_indices fp)) = filesize fp.

(** What the driver does with one line, for this allocator, and with the
    lines of a file. *)
Definition exec (c : command) (s : t) : outcome t :=
  match c with
  | CREATE f k => let* (s', _) := create f k s in Done s'
  | READ f sz off => let* _ := read f sz off s in Done s
  | WRITE f sz off => let* (s', _) := write f sz off s in Done s'
  | DELETE_FILE f => let* (s', _) := delete_file f s in Done s'
  end.

Fixpoint exec_all (cs : list command) (s : t) : outcome t :=
  match cs with
  | [] => Done s
  | c :: cs' => let* s' := exec c s in exec_all cs' s'
  end.

(** The blocks of the files and the free blocks are the [N] blocks. *)
Definition counted (N : nat) (s : t) : Prop :=
  tables_sized s
  ∧ live_size s = Z.of_nat N - Z.of_nat (length (free_list s)).


End IndexedFileSystem.

(** ** ModifiedContiguousFileSystem<N>

    The class derives from [ContiguousFileSystem<N>] and uses its
    [memory_map], [used_memory] and [get_index]; it declares a [file_map]
    of its own, which hides the inherited one.  A run chain is kept as the
    list of its [block] descriptors, in the order of the [next] pointers. *)

Module ModifiedContiguousFileSystem.

Record block : Type := mkBlock { start_block : Z; size : Z }.

Record File : Type := mkFile { filesize : Z; start : list block }.

Record t : Type := mk {
  base : ContiguousFileSystem.t;
  file_map : gmap string File
}.

Definition memory_map (s : t) : list bool := ContiguousFileSystem.memory_map (base s).
Definition used_memory (s : t) : Z := ContiguousFileSystem.used_memory (base s).
Definition start_index (s : t) : Z := ContiguousFileSystem.start_index (base s).

(** The inherited members after an update of the map, the cursor and the
    counter. *)
Definition with_memory (s : t) (m : list bool) (cur used : Z) : ContiguousFileSystem.t :=
  ContiguousFileSystem.mk m (ContiguousFileSystem.file_map (base s)) cur
    (ContiguousFileSystem.strategy (base s)) used.

(** The loop over the blocks of one run, lines 857-861 and 914-918:
    [for (i = wrt; i < b->size && more(count); i++)]. *)
Fixpoint run_loop (n : nat) (b : block) (more : Z → bool) (i count access : Z)
  (out : list Z) : Z * Z * list Z :=
  match n with
  | O => (count, access, out)
  | S n' =>
      if (i <? size b) && more count
      then run_loop n' b more (i + 1) (count + 1) (access + 1) (out ++ [start_block b + i])
      else (count, access, out)
  end.

(** The locals of the walk along the chain. *)
Record walk_state : Type := mkWalk {
  k_offset : Z;
  k_bno : Z;
  k_count : Z;
  k_access : Z;
  k_out : list Z;
  k_passed : list block;   (* the runs visited; [last] is the last of them *)
  k_ahead : list block     (* the runs from [b] on *)
}.

(** One turn of the [while (b && count < size)] loops, lines 852-866 and
    909-922, at the run [b] with the runs [rest] behind it. *)
Definition visit (b : block) (rest : list block) (more : Z → bool) (k : walk_state)
  : walk_state :=
  let access := k_access k + 1 in
  let '(offset, count, access, out) :=
    if (k_offset k >=? k_bno k) && (k_offset k <? k_bno k + size b) then
      let wrt := k_offset k - k_bno k in
      let access := if wrt =? 0 then access - 1 else access in
      let '(count, access, out) :=
        run_loop (Z.to_nat (size b - wrt)) b more wrt (k_count k) access (k_out k) in
      (k_offset k + count, count, access, out)
    else (k_offset k, k_count k, access, k_out k) in
  mkWalk offset (k_bno k + size b) count access out (k_passed k ++ [b]) rest.

(** The [while (b && count < size)] loops, lines 851-867 and 908-923. *)
Fixpoint walk (chain : list block) (size_ : Z) (more : Z → bool) (k : walk_state)
  : walk_state :=
  match chain with
  | [] => k
  | b :: rest =>
      if k_count k <? size_ then walk rest size_ more (visit b rest more k) else k
  end.

(** The positions of the blocks of a run. *)
Definition in_block (b : block) (p : Z) : Prop :=
  start_block b ≤ p < start_block b + size b.

(** The number of blocks of a chain of runs. *)
Fixpoint chain_size (chain : list block) : Z :=
  match chain with
  | [] => 0
  | b :: rest => size b + chain_size rest
  end.

(** No block belongs to two runs of the chain. *)
Fixpoint runs_disjoint (chain : list block) : Prop :=
  match chain with
  | [] => True
  | b :: rest =>
      (∀ b' p, b' ∈ rest → in_block b p → ¬ in_block b' p) ∧ runs_disjoint rest
  end.

Section WithN.
Variable N : nat.

Definition new (alg : Strategy) : t := mk (ContiguousFileSystem.new N alg) ∅.

(** [create], lines 777-803. *)
Definition create (filename : string) (fsize : Z) (s : t) : outcome (t * reply Z) :=
  match file_map s !! filename with
  | Some _ => Done (s, Fail DuplicateName)
  | None =>
      let* (start, cur) := ContiguousFileSystem.get_index N (base s) fsize in
      if start =? -1
      then Done (mk (with_memory s (memory_map s) cur (used_memory s)) (file_map s),
                 Fail OutOfSpace)
      else
        let* m := assign_run N true (memory_map s) start fsize in
        Done (mk (with_memory s m cur (used_memory s + fsize))
                 (<[filename := mkFile fsize [mkBlock start fsize]]> (file_map s)),
              Ok start)
  end.

(** The growth part of [write], lines 823-845: the state afterwards, the
    grown file and [newblock]; or the early return. *)
Definition grow (fp : File) (size_ offset : Z) (s : t)
  : outcome (t * File * option block + t) :=
  if size_ + offset >? filesize fp then
    let req := size_ + offset - filesize fp in
    let* (index, cur) := ContiguousFileSystem.get_index N (base s) req in
    let* m := assign_run N true (memory_map s) index req in
    if index =? -1
    then Done (inr (mk (with_memory s m cur (used_memory s)) (file_map s)))
    else
      Done (inl (mk (with_memory s m cur (used_memory s + req)) (file_map s),
                 mkFile (filesize fp + req) (start fp),
                 Some (mkBlock index req)))
  else Done (inl (s, fp, None)).

(** [write], lines 813-882. *)
Definition write (filename : string) (size_ offset : Z) (s : t)
  : outcome (t * (Z * reply (list Z))) :=
  let block_access := 1 in
  match file_map s !! filename with
  | None => Done (s, (0, Fail NotFound))
  | Some fp =>
      let* g := grow fp size_ offset s in
      match g with
      | inr s' => Done (s', (block_access, Fail OutOfSpace))
      | inl (s1, fp1, newblock) =>
          let k := walk (start fp1) size_ (λ written, negb (written =? size_))
                     (mkWalk offset 0 0 block_access [] [] (start fp1)) in
          let* (chain, out) :=
            match newblock with
            | None => Done (k_passed k ++ k_ahead k, k_out k)
            | Some nb =>
                match k_passed k with
                | [] => Undefined          (* last->next with last == nullptr *)
                | _ => Done (k_passed k ++ [nb],
                             k_out k ++ upto (Z.to_nat (size nb)) (start_block nb))
                end
            end in
          Done (mk (base s1) (<[filename := mkFile (filesize fp1) chain]> (file_map s1)),
                (size_ + 1, Ok out))
      end
  end.

(** [read], lines 892-928. *)
Definition read (filename : string) (size_ offset : Z) (s : t)
  : outcome (Z * reply (list Z)) :=
  let block_access := 1 in
  match file_map s !! filename with
  | None => Done (block_access, Fail NotFound)
  | Some fp =>
      let size_ := if size_ =? -1 then filesize fp else size_ in
      let k := walk (start fp) size_ (λ rd, rd <? size_)
                 (mkWalk offset 0 0 block_access [] [] (start fp)) in
      Done (size_ + 1, Ok (k_out k))
  end.

(** The loop of [delete_file], lines 946-953. *)
Fixpoint release (chain : list block) (m : list bool) : outcome (list bool) :=
  match chain with
  | [] => Done m
  | b :: rest =>
      let* m' := assign_run N false m (start_block b) (size b) in
      release rest m'
  end.

(** [delete_file], lines 935-960. *)
Definition delete_file (filename : string) (s : t) : outcome (t * reply unit) :=
  match file_map s !! filename with
  | None => Done (s, Fail NotFound)
  | Some fp =>
      let* m := release (start fp) (memory_map s) in
      Done (mk (with_memory s m (start_index s) (used_memory s - filesize fp))
               (delete filename (file_map s)),
            Ok ())
  end.

Definition live_size (s : t) : Z := total_size filesize (file_map s).

(** What the driver does with one line, for this allocator, and with the
    lines of a file. *)
Definition exec (c : command) (s : t) : outcome t :=
  match c with
  | CREATE f k => let* (s', _) := create f k s in Done s'
  | READ f sz off => let* _ := read f sz off s in Done s
  | WRITE f sz off => let* (s', _) := write f sz off s in Done s'
  | DELETE_FILE f => let* (s', _) := delete_file f s in Done s'
  end.

Fixpoint exec_all (cs : list command) (s : t) : outcome t :=
  match cs with
  | [] => Done s
  | c :: cs' => let* s' := exec c s in exec_all cs' s'
  end.

(** A file owns its runs: they are not empty chains, their sizes add up to
    the size of the file, they lie on used blocks and do not overlap. *)
Record owned (m : list bool) (fp : File) : Prop := mkOwned {
  o_chain : start fp ≠ [];
  o_sizes : ∀ b, b ∈ start fp → 0 ≤ size b;
  o_total : chain_size (start fp) = filesize fp;
  o_used : ∀ b p, b ∈ start fp → in_block b p → bs_test N m p = Done true;
  o_apart : runs_disjoint (start fp)
}.

(** The map and the registry agree. *)
Record consistent (s : t) : Prop := mkConsistent {
  c_length : length (memory_map s) = N;
  c_owned : ∀ f fp, file_map s !! f = Some fp → owned (memory_map s) fp;
  c_disjoint : ∀ f g fp gp b b' p, f ≠ g →
               file_map s !! f = Some fp → file_map s !! g = Some gp →
               b ∈ start fp → b' ∈ start gp →
               in_block b p → ¬ in_block b' p;
  c_count : popcount (memory_map s) = live_size s
}.
End WithN.
End ModifiedContiguousFileSystem.

(** * Command sequences

    The states the statements below start from are reached by running the
    operations from the constructor, as the driver does for the lines of a
    query file. *)

Module Scenario.

(** [CREATE a 4; CREATE b 4; DELETE_FILE a; CREATE c 4] on 10 blocks:
    where [c] is placed. *)
Definition reuse_freed_run (alg : Strategy) : outcome (reply Z) :=
  let* (s1, _) := ContiguousFileSystem.create 10 "a" 4 (ContiguousFileSystem.new 10 alg) in
  let* (s2, _) := ContiguousFileSystem.create 10 "b" 4 s1 in
  let* (s3, _) := ContiguousFileSystem.delete_file 10 "a" s2 in
  let* (s4, r) := ContiguousFileSystem.create 10 "c" 4 s3 in
  Done r.

(** [CREATE a 2; CREATE b 2; CREATE c 1; DELETE_FILE b] on 8 blocks, first
    fit: blocks 2, 3 and 5, 6, 7 are free. *)
Definition two_holes : outcome ContiguousFileSystem.t :=
  let* (s1, _) := ContiguousFileSystem.create 8 "a" 2 (ContiguousFileSystem.new 8 FIRST_FIT) in
  let* (s2, _) := ContiguousFileSystem.create 8 "b" 2 s1 in
  let* (s3, _) := ContiguousFileSystem.create 8 "c" 1 s2 in
  let* (s4, _) := ContiguousFileSystem.delete_file 8 "b" s3 in
  Done s4.

(** [CREATE a 2; CREATE b 1; CREATE c 2; CREATE d 3; DELETE_FILE a;
    DELETE_FILE c] on 8 blocks, best fit: blocks 0, 1 and 3, 4 are free. *)
Definition equal_holes : outcome ContiguousFileSystem.t :=
  let* (s1, _) := ContiguousFileSystem.create 8 "a" 2 (ContiguousFileSystem.new 8 BEST_FIT) in
  let* (s2, _) := ContiguousFileSystem.create 8 "b" 1 s1 in
  let* (s3, _) := ContiguousFileSystem.create 8 "c" 2 s2 in
  let* (s4, _) := ContiguousFileSystem.create 8 "d" 3 s3 in
  let* (s5, _) := ContiguousFileSystem.delete_file 8 "a" s4 in
  let* (s6, _) := ContiguousFileSystem.delete_file 8 "c" s5 in
  Done s6.

(** [CREATE a 4] on [n] blocks. *)
Definition one_file (n : nat) (alg : Strategy) : outcome ContiguousFileSystem.t :=
  let* (s1, _) := ContiguousFileSystem.create n "a" 4 (ContiguousFileSystem.new n alg) in
  Done s1.


(** [CREATE a 2] on 5 blocks, indexed allocation: the state reached. *)
Definition indexed_two_blocks : IndexedFileSystem.t :=
  IndexedFileSystem.mk {["a" := IndexedFileSystem.mkFile 2 [0; 1]]} [2; 3; 4] 2.

End Scenario.

(** * The blocks an allocator holds

    Notions the statements about every state an allocator reaches are
    written with. *)

(** The cursor of next-fit is a block of the device (it stays 0 on a device
    without blocks). *)
Definition on_device (N : nat) (cur : Z) : Prop :=
  0 ≤ cur ∧ (cur < Z.of_nat N ∨ N = 0%nat).

(** The blocks of a [LinkedFileSystem]: those of the free list, then the
    chain of every file. *)
Definition linked_blocks (s : LinkedFileSystem.t) : list Z :=
  LinkedFileSystem.free_list s
  ++ (map_to_list (LinkedFileSystem.file_map s) ≫= λ e, LinkedFileSystem.start_block e.2).

(** The blocks of an [IndexedFileSystem]: those of the free list, then the
    index table of every file. *)
Definition indexed_blocks (s : IndexedFileSystem.t) : list Z :=
  IndexedFileSystem.free_list s
  ++ (map_to_list (IndexedFileSystem.file_map s) ≫= λ e, IndexedFileSystem.block_indices e.2).

(** * The driver: [main], lines 963-1064

    [main] makes one allocator of each kind over 500 blocks and gives every
    line of the query file to the four of them, in the order modified
    contiguous, contiguous, indexed, linked.  A line is kept as its first
    two words and the numbers extracted behind them.  The report that ends
    [main] divides floats and is not part of the model. *)

Module Driver.

Definition DEVICE : nat := 500.

Record line : Type := mkLine {
  operation : string;
  file_name : string;
  first_number : Z;     (* [file_size] of a CREATE, [size] of a READ or WRITE *)
  second_number : Z     (* [offset] of a READ or WRITE *)
}.

(** The locals of [main]. *)
Record t : Type := mk {
  mcfs : ModifiedContiguousFileSystem.t;
  lfs : LinkedFileSystem.t;
  ifs : IndexedFileSystem.t;
  cfs : ContiguousFileSystem.t;
  cfs_time : Z;
  lfs_time : Z;
  mcfs_time : Z;
  ifs_time : Z;
  success_cfs : Z;
  success_lfs : Z;
  success_mcfs : Z;
  success_ifs : Z
}.

(** Lines 969-978. *)
Definition init : t :=
  mk (ModifiedContiguousFileSystem.new DEVICE FIRST_FIT) (LinkedFileSystem.new DEVICE)
    (IndexedFileSystem.new DEVICE) (ContiguousFileSystem.new DEVICE BEST_FIT)
    0 0 0 0 0 0 0 0.

(** [if (ba != 1) { success++; time += ba; }]: the two counters afterwards. *)
Definition tally (ba success time : Z) : Z * Z :=
  if ba =? 1 then (success, time) else (success + 1, time + ba).

(** The command a line stands for; [None] for an invalid operation. *)
Definition query (l : line) : option command :=
  if (operation l =? "CREATE")%string then Some (CREATE (file_name l) (first_number l))
  else if (operation l =? "READ")%string
  then Some (READ (file_name l) (first_number l) (second_number l))
  else if (operation l =? "WRITE")%string
  then Some (WRITE (file_name l) (first_number l) (second_number l))
  else if (operation l =? "DELETE_FILE")%string then Some (DELETE_FILE (file_name l))
  else None.

(** The body of the [while (getline(infile, line))] loop, lines 981-1050. *)
Definition step (l : line) (d : t) : outcome t :=
  match query l with
  | Some (CREATE f k) =>
      let* (m, _) := ModifiedContiguousFileSystem.create DEVICE f k (mcfs d) in
      let* (c, _) := ContiguousFileSystem.create DEVICE f k (cfs d) in
      let* (i, _) := IndexedFileSystem.create f k (ifs d) in
      let* (l', _) := LinkedFileSystem.create f k (lfs d) in
      Done (mk m l' i c (cfs_time d) (lfs_time d) (mcfs_time d) (ifs_time d)
              (success_cfs d) (success_lfs d) (success_mcfs d) (success_ifs d))
  | Some (READ f sz off) =>
      let* (ba, _) := ModifiedContiguousFileSystem.read f sz off (mcfs d) in
      let '(sm, tm) := tally ba (success_mcfs d) (mcfs_time d) in
      let* (ba, _) := ContiguousFileSystem.read f sz off (cfs d) in
      let '(sc, tc) := tally ba (success_cfs d) (cfs_time d) in
      let* (ba, _) := IndexedFileSystem.read f sz off (ifs d) in
      let '(si, ti) := tally ba (success_ifs d) (ifs_time d) in
      let* (ba, _) := LinkedFileSystem.read f sz off (lfs d) in
      let '(sl, tl) := tally ba (success_lfs d) (lfs_time d) in
      Done (mk (mcfs d) (lfs d) (ifs d) (cfs d) tc tl tm ti sc sl sm si)
  | Some (WRITE f sz off) =>
      let* (m, (ba, _)) := ModifiedContiguousFileSystem.write DEVICE f sz off (mcfs d) in
      let '(sm, tm) := tally ba (success_mcfs d) (mcfs_time d) in
      let* (c, (ba, _)) := ContiguousFileSystem.write DEVICE f sz off (cfs d) in
      let '(sc, tc) := tally ba (success_cfs d) (cfs_time d) in
      let* (i, (ba, _)) := IndexedFileSystem.write f sz off (ifs d) in
      let '(si, ti) := tally ba (success_ifs d) (ifs_time d) in
      let* (l', (ba, _)) := LinkedFileSystem.write f sz off (lfs d) in
      let '(sl, tl) := tally ba (success_lfs d) (lfs_time d) in
      Done (mk m l' i c tc tl tm ti sc sl sm si)
  | Some (DELETE_FILE f) =>
      let* (m, _) := ModifiedContiguousFileSystem.delete_file DEVICE f (mcfs d) in
      let* (c, _) := ContiguousFileSystem.delete_file DEVICE f (cfs d) in
      let* (i, _) := IndexedFileSystem.delete_file f (ifs d) in
      let* (l', _) := LinkedFileSystem.delete_file f (lfs d) in
      Done (mk m l' i c (cfs_time d) (lfs_time d) (mcfs_time d) (ifs_time d)
              (success_cfs d) (success_lfs d) (success_mcfs d) (success_ifs d))
  | None => Done d
  end.

(** The loop over the lines of the file. *)
Fixpoint run (ls : list line) (d : t) : outcome t :=
  match ls with
  | [] => Done d
  | l :: ls' => let* d' := step l d in run ls' d'
  end.

End Driver.

(** * A query file

    [CREATE a 2; CREATE b 3; DELETE_FILE a; WRITE b 1 3; READ b 2 1], and
    the same queries as lines of a file that has an unknown operation too. *)

Module Workload.

Definition queries : list command :=
  [CREATE "a" 2; CREATE "b" 3; DELETE_FILE "a"; WRITE "b" 1 3; READ "b" 2 1].


End Workload.

(** * Properties *)

(** ** Tactics for the outcome monad *)

(** One case analysis on the computation at the head of [H]. *)
Ltac step H :=
  match type of H with
  | bind ?c _ = Done _ =>
      let E := fresh "E" in
      destruct c eqn:E; try discriminate H; cbn [bind] in H
  | (if ?c then _ else _) = Done _ =>
      let E := fresh "E" in
      destruct c eqn:E
  | match ?c with _ => _ end = Done _ =>
      let E := fresh "E" in
      destruct c eqn:E; try discriminate H
  end.

(** Inversion of every hypothesis that says a computation returned. *)
Ltac invert_done :=
  repeat match goal with
  | H : _ = Done _ |- _ => progress (repeat step H)
  | H : Done _ = Done _ |- _ => injection H as H
  | _ => progress simplify_eq
  end.

(** Comparisons known to hold, for [lia]. *)
Ltac lia_bool :=
  repeat match goal with
  | H : (_ =? _) = true |- _ => apply Z.eqb_eq in H
  | H : (_ && _) = true |- _ => apply andb_true_iff in H as [? ?]
  | H : (_ >=? _) = true |- _ => rewrite Z.geb_leb in H; apply Z.leb_le in H
  end; lia.

(** ** Integers and lists *)

Lemma to_size_t_nonneg z : 0 ≤ z → to_size_t z = z.
Proof. intros H. unfold to_size_t. destruct (Z.ltb_spec z 0); lia. Qed.

Lemma upto_length (n : nat) : ∀ a, length (upto n a) = n.
Proof. induction n; intros; simpl; [done|by rewrite IHn]. Qed.

(** ** Sums over a registry *)

Section TotalSize.
Context {A : Type} (sz : A → Z).

Lemma total_size_empty : total_size sz ∅ = 0.
Proof. apply map_fold_empty. Qed.

Lemma total_size_insert (m : gmap string A) (i : string) (x : A) :
  m !! i = None → total_size sz (<[i := x]> m) = sz x + total_size sz m.
Proof.
  intros H. unfold total_size. rewrite map_fold_insert_L; [done| |done].
  intros. lia.
Qed.

Lemma total_size_delete (m : gmap string A) (i : string) (x : A) :
  m !! i = Some x → total_size sz (delete i m) = total_size sz m - sz x.
Proof.
  intros H. unfold total_size.
  rewrite (map_fold_delete_L _ _ i x m); [lia| |done]. intros. lia.
Qed.

Lemma total_size_update (m : gmap string A) (i : string) (x y : A) :
  m !! i = Some x → total_size sz (<[i := y]> m) = total_size sz m - sz x + sz y.
Proof.
  intros H. rewrite <- insert_delete_eq.
  rewrite total_size_insert by apply lookup_delete_eq.
  rewrite (total_size_delete m i x) by done. lia.
Qed.
End TotalSize.

(** ** bitset<N> *)

Section BitsetFacts.
Variable N : nat.

Lemma bs_test_Done (m : list bool) (p : Z) (b : bool) :
  bs_test N m p = Done b ↔ in_range N p = true ∧ m !! idx p = Some b.
Proof.
  unfold bs_test. destruct (in_range N p); [|split; [discriminate|intros [? _]; done]].
  destruct (m !! idx p) as [b'|]; split.
  - intros [= ->]. done.
  - intros [_ [= ->]]. done.
  - discriminate.
  - intros [_ ?]. done.
Qed.

Lemma bs_assign_Done (v : bool) (m m' : list bool) (p : Z) :
  bs_assign N v m p = Done m' ↔ in_range N p = true ∧ m' = <[idx p := v]> m.
Proof.
  unfold bs_assign. destruct (in_range N p); split.
  - intros [= <-]. done.
  - intros [_ ->]. done.
  - discriminate.
  - intros [? _]. done.
Qed.

(** A position of the device is a number from 0 to [N - 1]. *)
Lemma in_range_bounds (p : Z) : in_range N p = true ↔ 0 ≤ p < Z.of_nat N.
Proof. unfold in_range. rewrite andb_true_iff, Z.leb_le, Z.ltb_lt. done. Qed.

(** [in_range] is the comparison of the converted position with [N], for
    the values of an [int] and the sizes of a bitset. *)
Lemma in_range_size_t (p : Z) :
  Z.of_nat N ≤ 2 ^ 63 → - 2 ^ 31 ≤ p < 2 ^ 31 →
  in_range N p = (to_size_t p <? Z.of_nat N).
Proof.
  intros HN Hp. unfold in_range, to_size_t.
  destruct (Z.ltb_spec p 0), (Z.leb_spec 0 p); lia.
Qed.

Lemma bs_test_bounds (m : list bool) (p : Z) (b : bool) :
  bs_test N m p = Done b → 0 ≤ p < Z.of_nat N.
Proof. intros H. apply bs_test_Done in H as [H _]. by apply in_range_bounds. Qed.

(** Marking from position -1 raises the exception at the first block. *)
Lemma assign_run_minus_one (v : bool) (m : list bool) (cnt : Z) :
  0 < cnt → assign_run N v m (-1) cnt = Thrown.
Proof.
  intros H. unfold assign_run. destruct (Z.to_nat cnt) as [|n] eqn:E; [lia|].
  reflexivity.
Qed.

(** The positions an [assign_loop] touches are in range, whatever the map. *)
Lemma assign_loop_in_range (v : bool) (n : nat) : ∀ (base i : Z) (m m' : list bool),
  assign_loop N v n base i m = Done m' →
  ∀ p, i ≤ p < i + Z.of_nat n → in_range N (p + base) = true.
Proof.
  induction n as [|n IH]; intros base i m m' H p Hp; [lia|].
  simpl in H. destruct (bs_assign N v m (i + base)) as [m1| | |] eqn:E; try discriminate.
  apply bs_assign_Done in E as [Hr _]. simpl in H.
  destruct (decide (p = i)) as [->|]; [done|].
  apply (IH _ _ _ _ H). lia.
Qed.

Lemma assign_loop_total (v : bool) (n : nat) : ∀ (base i : Z) (m : list bool),
  (∀ p, i ≤ p < i + Z.of_nat n → in_range N (p + base) = true) →
  ∃ m', assign_loop N v n base i m = Done m'.
Proof.
  induction n as [|n IH]; intros base i m H; [by eexists|].
  simpl. unfold bs_assign at 1. rewrite H by lia. simpl. apply IH.
  intros p Hp. apply H. lia.
Qed.

(** What an [assign_loop] leaves in the map: [v] at the elements of the
    positions it went through, the old value elsewhere. *)
Lemma assign_loop_lookup (v : bool) (n : nat) : ∀ (base i : Z) (m m' : list bool),
  assign_loop N v n base i m = Done m' →
  ∀ q : nat,
    ((∃ p, i ≤ p < i + Z.of_nat n ∧ idx (p + base) = q) ∧ m' !! q = const v <$> m !! q)
    ∨ ((∀ p, i ≤ p < i + Z.of_nat n → idx (p + base) ≠ q) ∧ m' !! q = m !! q).
Proof.
  induction n as [|n IH]; intros base i m m' H q.
  - simpl in H. injection H as <-. right. split; [intros; lia|done].
  - simpl in H. destruct (bs_assign N v m (i + base)) as [m1| | |] eqn:E; try discriminate.
    apply bs_assign_Done in E as [_ ->]. simpl in H.
    destruct (IH _ _ _ _ H q) as [[[p [Hp Hq]] Hl]|[Hno Hl]].
    + left. split; [exists p; split; [lia|done]|].
      rewrite Hl. destruct (decide (idx (i + base) = q)) as [<-|Hne].
      * destruct (decide (idx (i + base) < length m)%nat).
        -- rewrite list_lookup_insert_eq by done.
           destruct (lookup_lt_is_Some_2 m _ l) as [x ->]. done.
        -- rewrite list_insert_ge by lia. done.
      * rewrite list_lookup_insert_ne by done. done.
    + destruct (decide (idx (i + base) = q)) as [<-|Hne].
      * left. split; [exists i; split; [lia|done]|].
        rewrite Hl. destruct (decide (idx (i + base) < length m)%nat).
        -- rewrite list_lookup_insert_eq by done.
           destruct (lookup_lt_is_Some_2 m _ l) as [x ->]. done.
        -- rewrite list_insert_ge by lia.
           rewrite (lookup_ge_None_2 m) by lia. done.
      * right. split.
        -- intros p Hp. destruct (decide (p = i)) as [->|]; [done|]. apply Hno. lia.
        -- rewrite Hl. rewrite list_lookup_insert_ne by done. done.
Qed.

(** Marking a free run and clearing it again gives the map back. *)
Lemma assign_loop_undo (n : nat) (base i : Z) (m m1 : list bool) :
  (∀ p, i ≤ p < i + Z.of_nat n → bs_test N m (p + base) = Done false) →
  assign_loop N true n base i m = Done m1 →
  assign_loop N false n base i m1 = Done m.
Proof.
  intros Hfree Hset.
  destruct (assign_loop_total false n base i m1) as [m2 Hreset].
  { eapply assign_loop_in_range, Hset. }
  rewrite Hreset. f_equal. apply list_eq. intros q.
  destruct (assign_loop_lookup _ _ _ _ _ _ Hreset q) as [[[p [Hp Hq]] Hl2]|[Hno Hl2]];
    destruct (assign_loop_lookup _ _ _ _ _ _ Hset q) as [[[p' [Hp' Hq']] Hl1]|[_ Hl1]];
    rewrite Hl2, Hl1; try done.
  - apply Hfree, bs_test_Done in Hp as [_ Hp]. rewrite Hq in Hp. rewrite Hp. done.
  - apply Hfree, bs_test_Done in Hp as [_ Hp]. rewrite Hq in Hp. rewrite Hp. done.
  - destruct (Hno p' Hp' Hq').
Qed.

Lemma assign_run_undo (m m1 : list bool) (base cnt : Z) :
  free_run N m base cnt →
  assign_run N true m base cnt = Done m1 →
  assign_run N false m1 base cnt = Done m.
Proof.
  intros Hfree. apply assign_loop_undo. intros p Hp.
  apply Hfree. lia.
Qed.

(** The inner loop of the searches only passes free blocks. *)
Lemma hole_scan_free (fuel : nat) (m : list bool) (guard : Z → bool) : ∀ j0 j,
  hole_scan N fuel m guard j0 = Done j →
  j0 ≤ j ∧ ∀ p, j0 ≤ p < j → bs_test N m p = Done false.
Proof.
  induction fuel as [|f IH]; intros j0 j H; [discriminate|].
  simpl in H. destruct ((j0 <? Z.of_nat N) && guard j0).
  - destruct (bs_test N m j0) as [b| | |] eqn:E; try discriminate.
    simpl in H. destruct b.
    + injection H as <-. split; [lia|intros; lia].
    + apply IH in H as [Hle Hall]. split; [lia|].
      intros p Hp. destruct (decide (p = j0)) as [->|]; [done|]. apply Hall. lia.
  - injection H as <-. split; [lia|intros; lia].
Qed.

Lemma hole_scan_free_run (fuel : nat) (m : list bool) (guard : Z → bool) (i j size : Z) :
  hole_scan N fuel m guard i = Done j → i + size ≤ j → free_run N m i size.
Proof.
  intros H Hle p Hp. apply (hole_scan_free _ _ _ _ _ H). lia.
Qed.

Lemma bs_test_in_device (m : list bool) (p : Z) :
  length m = N → 0 ≤ p < Z.of_nat N → ∃ b, bs_test N m p = Done b.
Proof.
  intros Hlen Hp. unfold bs_test. rewrite (proj2 (in_range_bounds p)) by done.
  destruct (lookup_lt_is_Some_2 m (idx p) ltac:(unfold idx; lia)) as [b ->]. by eexists.
Qed.

Lemma bs_test_past_device (m : list bool) (p : Z) :
  Z.of_nat N ≤ p → bs_test N m p = Undefined.
Proof.
  intros Hp. unfold bs_test. destruct (in_range N p) eqn:E; [|done].
  apply in_range_bounds in E. lia.
Qed.

(** The inner loop returns within [N - j + 1] turns. *)
Lemma hole_scan_total (m : list bool) (guard : Z → bool) (fuel : nat) : ∀ j,
  length m = N → 0 ≤ j → Z.max 0 (Z.of_nat N - j) < Z.of_nat fuel →
  ∃ r, hole_scan N fuel m guard j = Done r.
Proof.
  induction fuel as [|f IH]; intros j Hlen Hj Hfuel; [lia|].
  cbn [hole_scan]. destruct (Z.ltb_spec j (Z.of_nat N)); cbn [andb]; [|by eexists].
  destruct (guard j); [|by eexists].
  destruct (bs_test_in_device m j Hlen ltac:(lia)) as [b ->]. cbn [bind].
  destruct b; [by eexists|]. apply IH; [done|lia|lia].
Qed.

(** It moves on when the block it starts from is free and passes the guard. *)
Lemma hole_scan_advances (m : list bool) (guard : Z → bool) (fuel : nat) (j r : Z) :
  hole_scan N fuel m guard j = Done r →
  j < Z.of_nat N → guard j = true → bs_test N m j = Done false →
  j + 1 ≤ r.
Proof.
  intros H Hj Hg Hb. destruct fuel as [|f]; [discriminate|].
  cbn [hole_scan] in H. destruct (Z.ltb_spec j (Z.of_nat N)); [|lia].
  rewrite Hg, Hb in H. cbn [andb bind] in H.
  apply hole_scan_free in H as [? _]. lia.
Qed.





(** The count of used blocks. *)
Lemma popcount_app (l1 l2 : list bool) : popcount (l1 ++ l2) = popcount l1 + popcount l2.
Proof. unfold popcount. rewrite list.filter_app, length_app. lia. Qed.

Lemma popcount_replicate_false (n : nat) : popcount (replicate n false) = 0.
Proof.
  induction n as [|n IH]; [done|]. unfold popcount in *. simpl.
  rewrite filter_cons_False by done. done.
Qed.

Lemma popcount_cons (b : bool) (l : list bool) :
  popcount (b :: l) = (if b then 1 else 0) + popcount l.
Proof.
  unfold popcount. destruct b.
  - rewrite filter_cons_True by done. simpl length. lia.
  - rewrite filter_cons_False by done. lia.
Qed.

(** Changing one bit changes the count by one. *)
Lemma popcount_insert (m : list bool) (q : nat) (v : bool) :
  m !! q = Some (negb v) →
  popcount (<[q := v]> m) = popcount m + (if v then 1 else -1).
Proof.
  intros H. pose proof (lookup_lt_Some _ _ _ H) as Hlt.
  rewrite insert_take_drop by done.
  rewrite <- (take_drop_middle m q (negb v) H) at 3.
  rewrite !popcount_app, !popcount_cons. destruct v; simpl; lia.
Qed.

(** Marking [n] free blocks adds [n] to the count, and clearing [n] used
    blocks takes [n] from it. *)
Lemma popcount_assign_loop (v : bool) (n : nat) : ∀ (base i : Z) (m m' : list bool),
  0 ≤ i + base →
  (∀ p, i ≤ p < i + Z.of_nat n → bs_test N m (p + base) = Done (negb v)) →
  assign_loop N v n base i m = Done m' →
  popcount m' = popcount m + (if v then Z.of_nat n else - Z.of_nat n).
Proof.
  induction n as [|n IH]; intros base i m m' Hlo Hold H.
  - injection H as <-. destruct v; lia.
  - cbn [assign_loop] in H.
    destruct (bs_assign N v m (i + base)) as [m1| | |] eqn:E; try discriminate.
    apply bs_assign_Done in E as [Hr ->]. cbn [bind] in H.
    apply IH in H; [|lia|].
    + rewrite H. rewrite popcount_insert.
      * destruct v; lia.
      * specialize (Hold i ltac:(lia)). by apply bs_test_Done in Hold as [_ ?].
    + intros p Hp. specialize (Hold p ltac:(lia)).
      apply bs_test_Done in Hold as [Hin Hl]. apply bs_test_Done. split; [done|].
      rewrite list_lookup_insert_ne; [done|].
      unfold idx. lia.
Qed.
Lemma assign_loop_length (v : bool) (n : nat) : ∀ (base i : Z) (m m' : list bool),
  assign_loop N v n base i m = Done m' → length m' = length m.
Proof.
  induction n as [|n IH]; intros base i m m' H; [by injection H as <-|].
  cbn [assign_loop] in H.
  destruct (bs_assign N v m (i + base)) as [m1| | |] eqn:E; try discriminate.
  apply bs_assign_Done in E as [_ ->]. cbn [bind] in H.
  apply IH in H. by rewrite length_insert in H.
Qed.

(** The blocks of the run have the value [v] afterwards. *)
Lemma assign_run_inside (v b : bool) (m m' : list bool) (base cnt p : Z) :
  assign_run N v m base cnt = Done m' →
  base ≤ p < base + cnt →
  bs_test N m p = Done b →
  bs_test N m' p = Done v.
Proof.
  unfold assign_run. intros H Hp Hb. apply bs_test_Done in Hb as [Hin Hl].
  apply bs_test_Done. split; [done|].
  destruct (assign_loop_lookup _ _ _ _ _ _ H (idx p)) as [[_ ->]|[Hno _]].
  - by rewrite Hl.
  - destruct (Hno (p - base)); [lia|]. f_equal. lia.
Qed.

(** A block that has the value [v] keeps it. *)
Lemma assign_run_same (v : bool) (m m' : list bool) (base cnt p : Z) :
  assign_run N v m base cnt = Done m' →
  bs_test N m p = Done v →
  bs_test N m' p = Done v.
Proof.
  unfold assign_run. intros H Hb. apply bs_test_Done in Hb as [Hin Hl].
  apply bs_test_Done. split; [done|].
  destruct (assign_loop_lookup _ _ _ _ _ _ H (idx p)) as [[_ ->]|[_ ->]];
    by rewrite Hl.
Qed.

(** The blocks outside the run keep their value. *)
Lemma assign_run_outside (v b : bool) (m m' : list bool) (base cnt p : Z) :
  assign_run N v m base cnt = Done m' →
  ¬ (base ≤ p < base + cnt) →
  bs_test N m p = Done b →
  bs_test N m' p = Done b.
Proof.
  unfold assign_run. intros H Hp Hb.
  pose proof (bs_test_bounds _ _ _ Hb) as Hpb.
  apply bs_test_Done in Hb as [Hin Hl].
  apply bs_test_Done. split; [done|].
  destruct (assign_loop_lookup _ _ _ _ _ _ H (idx p)) as [[(p' & Hp' & Heq) _]|[_ ->]];
    [|done].
  pose proof (assign_loop_in_range _ _ _ _ _ _ H p' Hp') as Hin'.
  apply in_range_bounds in Hin'.
  unfold idx in Heq. lia.
Qed.

(** The count of used blocks after marking a free run or clearing a used
    one. *)
Lemma popcount_assign_run (v : bool) (m m' : list bool) (base cnt : Z) :
  0 ≤ cnt →
  (∀ p, base ≤ p < base + cnt → bs_test N m p = Done (negb v)) →
  assign_run N v m base cnt = Done m' →
  popcount m' = popcount m + (if v then cnt else - cnt).
Proof.
  intros Hcnt Hold H. unfold assign_run in H.
  destruct (decide (cnt = 0)) as [->|Hpos].
  { injection H as <-. destruct v; lia. }
  pose proof (bs_test_bounds _ _ _ (Hold base ltac:(lia))).
  apply popcount_assign_loop in H; [|lia|].
  - rewrite H. destruct v; lia.
  - intros p Hp. apply Hold. lia.
Qed.
End BitsetFacts.

(** ** ContiguousFileSystem: the hole searches *)

Section ContiguousFacts.
Import ContiguousFileSystem.
Variable N : nat.

(** Each search returns -1 or the start of a run of [size] free blocks. *)
Lemma first_fit_loop_free (fuel : nat) (m : list bool) (size : Z) : ∀ i r,
  first_fit_loop N fuel m size i = Done r → r = -1 ∨ free_run N m r size.
Proof.
  induction fuel as [|f IH]; intros i r H; [discriminate|].
  cbn [first_fit_loop] in H. repeat step H; eauto.
  - injection H as <-. right. eapply hole_scan_free_run; [eassumption|lia_bool].
  - injection H as <-. by left.
Qed.

Lemma best_fit_loop_free (fuel : nat) (m : list bool) (size : Z) : ∀ i min_size ind r,
  ind = -1 ∨ free_run N m ind size →
  best_fit_loop N fuel m size i min_size ind = Done r → r = -1 ∨ free_run N m r size.
Proof.
  induction fuel as [|f IH]; intros i min_size ind r Hind H; [discriminate|].
  cbn [best_fit_loop] in H. repeat step H; eauto.
  - eapply IH; [|eassumption]. right.
    eapply hole_scan_free_run; [eassumption|lia_bool].
  - injection H as <-. done.
Qed.

Lemma worst_fit_loop_free (fuel : nat) (m : list bool) (size : Z) : ∀ i max_size ind r,
  ind = -1 ∨ free_run N m ind size →
  worst_fit_loop N fuel m size i max_size ind = Done r → r = -1 ∨ free_run N m r size.
Proof.
  induction fuel as [|f IH]; intros i max_size ind r Hind H; [discriminate|].
  cbn [worst_fit_loop] in H. repeat step H; eauto.
  - eapply IH; [|eassumption]. right.
    eapply hole_scan_free_run; [eassumption|lia_bool].
  - injection H as <-. done.
Qed.

Lemma next_fit_loop_free (fuel : nat) (m : list bool) (size cursor : Z) : ∀ i count r cur,
  next_fit_loop N fuel m size cursor i count = Done (r, cur) →
  r = -1 ∨ free_run N m r size.
Proof.
  induction fuel as [|f IH]; intros i count r cur H; [discriminate|].
  cbn [next_fit_loop] in H. repeat step H; eauto.
  - injection H as <- <-. right. eapply hole_scan_free_run; [eassumption|lia_bool].
  - injection H as <- <-. by left.
Qed.

(** An index returned by [get_index] other than -1 starts a run of [size]
    free blocks of the device. *)
Lemma get_index_free (s : t) (size start cur : Z) :
  get_index N s size = Done (start, cur) →
  start ≠ -1 → free_run N (memory_map s) start size.
Proof.
  unfold get_index, first_fit, best_fit, worst_fit, next_fit. intros H Hne.
  destruct (strategy s).
  - step H. injection H as <- <-.
    apply first_fit_loop_free in E as [?|?]; done.
  - step H. injection H as <- <-.
    apply best_fit_loop_free in E as [?|?]; [done|done|by left].
  - apply next_fit_loop_free in H as [?|?]; done.
  - step H. injection H as <- <-.
    apply worst_fit_loop_free in E as [?|?]; [done|done|by left].
Qed.

(** The cursor [next_fit] leaves: the old one when nothing is found, and
    [(2 * i + size) % N] after an allocation at [i]. *)
Lemma next_fit_loop_cursor (fuel : nat) (m : list bool) (size cursor : Z) : ∀ i count r cur,
  next_fit_loop N fuel m size cursor i count = Done (r, cur) →
  (r = -1 ∧ cur = cursor) ∨ cur = Z.rem (2 * r + size) (memory_size N).
Proof.
  induction fuel as [|f IH]; intros i count r cur H; [discriminate|].
  cbn [next_fit_loop] in H. repeat step H; eauto.
  - injection H as <- <-. right. apply Z.eqb_eq in E3. f_equal. lia.
  - injection H as <- <-. by left.
Qed.

Lemma next_fit_loop_found (fuel : nat) (m : list bool) (size cursor : Z) : ∀ i count r cur,
  next_fit_loop N fuel m size cursor i count = Done (r, cur) →
  (r = -1 ∧ cur = cursor) ∨ r ≠ -1.
Proof.
  induction fuel as [|f IH]; intros i count r cur H; [discriminate|].
  cbn [next_fit_loop] in H. repeat step H; eauto.
  - injection H as <- <-. right. intros ->.
    apply bs_test_bounds in E0. lia.
  - injection H as <- <-. by left.
Qed.

(** A search that finds nothing leaves the cursor alone. *)
Lemma get_index_none (s : t) (size cur : Z) :
  get_index N s size = Done (-1, cur) → cur = start_index s.
Proof.
  unfold get_index, next_fit. intros H. destruct (strategy s).
  - step H. by injection H as _ <-.
  - step H. by injection H as _ <-.
  - apply next_fit_loop_found in H as [[_ ->]|?]; done.
  - step H. by injection H as _ <-.
Qed.

Lemma first_fit_loop_total (m : list bool) (size : Z) (fuel : nat) : ∀ i,
  length m = N → 0 ≤ size → 0 ≤ i → Z.max 0 (Z.of_nat N - i) < Z.of_nat fuel →
  ∃ r, first_fit_loop N fuel m size i = Done r.
Proof.
  induction fuel as [|f IH]; intros i Hlen Hsize Hi Hfuel; [lia|].
  cbn [first_fit_loop]. unfold memory_size.
  destruct (Z.ltb_spec i (Z.of_nat N)); [|by eexists].
  destruct (bs_test_in_device N m i Hlen ltac:(lia)) as [b Hb]. rewrite Hb. cbn [bind].
  destruct b; cbn [negb]; [apply IH; [done|done|lia|lia]|].
  destruct (hole_scan_total N m (λ j, j <? i + size) (S N) i Hlen Hi ltac:(lia)) as [j Hj].
  rewrite Hj. cbn [bind].
  destruct (Z.eqb_spec j (i + size)); [by eexists|].
  assert (i + 1 ≤ j).
  { destruct (decide (size = 0)) as [->|].
    - cbn [hole_scan] in Hj.
      rewrite (proj2 (Z.ltb_ge i (i + 0))), andb_false_r in Hj by lia.
      injection Hj as <-. lia.
    - eapply (hole_scan_advances N); [exact Hj|done| |done]. apply Z.ltb_lt. lia. }
  apply IH; [done|done|lia|lia].
Qed.

Lemma best_fit_loop_total (m : list bool) (size : Z) (fuel : nat) : ∀ i min_size ind,
  length m = N → 0 ≤ i → Z.max 0 (Z.of_nat N - i) < Z.of_nat fuel →
  ∃ r, best_fit_loop N fuel m size i min_size ind = Done r.
Proof.
  induction fuel as [|f IH]; intros i min_size ind Hlen Hi Hfuel; [lia|].
  cbn [best_fit_loop]. unfold memory_size.
  destruct (Z.ltb_spec i (Z.of_nat N)); [|by eexists].
  destruct (bs_test_in_device N m i Hlen ltac:(lia)) as [b Hb]. rewrite Hb. cbn [bind].
  destruct b; cbn [negb]; [apply IH; [done|lia|lia]|].
  destruct (hole_scan_total N m (λ _, true) (S N) i Hlen Hi ltac:(lia)) as [j Hj].
  rewrite Hj. cbn [bind].
  pose proof (hole_scan_advances N _ _ _ _ _ Hj ltac:(lia) eq_refl Hb).
  destruct ((j >=? i + size) && (j - i <=? min_size)); apply IH; (done || lia).
Qed.

Lemma worst_fit_loop_total (m : list bool) (size : Z) (fuel : nat) : ∀ i max_size ind,
  length m = N → 0 ≤ i → Z.max 0 (Z.of_nat N - i) < Z.of_nat fuel →
  ∃ r, worst_fit_loop N fuel m size i max_size ind = Done r.
Proof.
  induction fuel as [|f IH]; intros i max_size ind Hlen Hi Hfuel; [lia|].
  cbn [worst_fit_loop]. unfold memory_size.
  destruct (Z.ltb_spec i (Z.of_nat N)); [|by eexists].
  destruct (bs_test_in_device N m i Hlen ltac:(lia)) as [b Hb]. rewrite Hb. cbn [bind].
  destruct b; cbn [negb]; [apply IH; [done|lia|lia]|].
  destruct (hole_scan_total N m (λ _, true) (S N) i Hlen Hi ltac:(lia)) as [j Hj].
  rewrite Hj. cbn [bind].
  pose proof (hole_scan_advances N _ _ _ _ _ Hj ltac:(lia) eq_refl Hb).
  destruct ((j >=? i + size) && (j - i >? max_size)); apply IH; (done || lia).
Qed.

Lemma next_fit_loop_total (m : list bool) (size cursor : Z) (fuel : nat) : ∀ i count,
  length m = N → 0 ≤ size → 0 ≤ i < Z.of_nat N → 0 ≤ count →
  Z.max 0 (Z.of_nat N - count) < Z.of_nat fuel →
  ∃ r, next_fit_loop N fuel m size cursor i count = Done r.
Proof.
  induction fuel as [|f IH]; intros i count Hlen Hsize Hi Hcount Hfuel; [lia|].
  cbn [next_fit_loop]. unfold memory_size.
  destruct (Z.ltb_spec count (Z.of_nat N)); [|by eexists].
  destruct (bs_test_in_device N m i Hlen ltac:(lia)) as [b Hb]. rewrite Hb. cbn [bind].
  destruct b; cbn [negb].
  { apply IH; [done|done| |lia|lia]. apply Z.rem_bound_pos; lia. }
  destruct (hole_scan_total N m (λ j, j <? i + size) (S N) i Hlen ltac:(lia) ltac:(lia))
    as [j Hj].
  rewrite Hj. cbn [bind].
  destruct (Z.eqb_spec j (i + size)); [by eexists|].
  assert (i + 1 ≤ j).
  { destruct (decide (size = 0)) as [->|].
    - cbn [hole_scan] in Hj.
      rewrite (proj2 (Z.ltb_ge i (i + 0))), andb_false_r in Hj by lia.
      injection Hj as <-. lia.
    - eapply (hole_scan_advances N); [exact Hj|lia| |done]. apply Z.ltb_lt. lia. }
  apply IH; [done|done| |lia|lia]. apply Z.rem_bound_pos; lia.
Qed.

(** The bound [N + 1] given to the loops of the searches is never used up:
    on a device of [N] blocks, with the cursor on the device, every search
    for a size that is not negative returns. *)
Lemma get_index_total (s : t) (size : Z) :
  length (memory_map s) = N →
  0 ≤ size →
  (strategy s = NEXT_FIT → 0 ≤ start_index s < Z.of_nat N) →
  ∃ r cur, get_index N s size = Done (r, cur).
Proof.
  intros Hlen Hsize Hcur. unfold get_index, first_fit, best_fit, worst_fit, next_fit.
  destruct (strategy s).
  - destruct (first_fit_loop_total (memory_map s) size (S N) 0) as [r ->];
      [done|done|lia|lia|]. by eexists _, _.
  - destruct (best_fit_loop_total (memory_map s) size (S N) 0 INT_MAX (-1)) as [r ->];
      [done|lia|lia|]. by eexists _, _.
  - destruct (next_fit_loop_total (memory_map s) size (start_index s) (S N)
                (start_index s) 0) as [[r cur] ->]; [done|done|by apply Hcur|lia|lia|].
    by eexists _, _.
  - destruct (worst_fit_loop_total (memory_map s) size (S N) 0 0 (-1)) as [r ->];
      [done|lia|lia|]. by eexists _, _.
Qed.


(** ** ContiguousFileSystem: create, delete, write, read *)

Lemma assign_run_free_run (v : bool) (m : list bool) (base cnt : Z) :
  free_run N m base cnt → ∃ m', assign_run N v m base cnt = Done m'.
Proof.
  intros H. apply assign_loop_total. intros p Hp.
  specialize (H (p + base) ltac:(lia)). by apply bs_test_Done in H as [? _].
Qed.

(** [create] returns on every device, for every size that is not negative. *)
Lemma contiguous_create_total (s : t) (f : string) (k : Z) :
  length (memory_map s) = N →
  0 ≤ k →
  (strategy s = NEXT_FIT → 0 ≤ start_index s < Z.of_nat N) →
  ∃ s' r, create N f k s = Done (s', r).
Proof.
  intros Hlen Hk Hcur. unfold create.
  destruct (file_map s !! f); [by eexists _, _|].
  destruct (get_index_total s k Hlen Hk Hcur) as (st & cur & Hg). rewrite Hg. cbn [bind].
  destruct (Z.eqb_spec st (-1)); [by eexists _, _|].
  cbn [memory_map].
  destruct (assign_run_free_run true (memory_map s) st k) as [m' ->].
  { by eapply get_index_free. }
  by eexists _, _.
Qed.


(** [create(f, k); delete_file(f)] gives back the map, the registry and the
    counter. *)
Lemma contiguous_create_delete (s s1 : t) (f : string) (k r : Z) :
  file_map s !! f = None →
  create N f k s = Done (s1, Ok r) →
  ∃ s2, delete_file N f s1 = Done (s2, Ok ())
        ∧ memory_map s2 = memory_map s
        ∧ file_map s2 = file_map s
        ∧ used_memory s2 = used_memory s.
Proof.
  intros Hf H. unfold create in H. rewrite Hf in H.
  destruct (get_index N s k) as [[st cur]| | |] eqn:Hg; try discriminate.
  cbn [bind] in H. destruct (Z.eqb_spec st (-1)) as [|Hne]; [discriminate|].
  cbn [memory_map file_map used_memory strategy] in H.
  destruct (assign_run N true (memory_map s) st k) as [m1| | |] eqn:Hm; try discriminate.
  cbn [bind] in H. injection H as <- <-.
  unfold delete_file. cbn [file_map memory_map start_index strategy used_memory].
  rewrite lookup_insert_eq. cbn [start_block filesize].
  rewrite (assign_run_undo N (memory_map s) m1 st k);
    [|by apply (get_index_free s k st cur)|done].
  cbn [bind]. eexists. split; [reflexivity|].
  cbn [file_map memory_map start_index strategy used_memory].
  rewrite delete_insert_id by done. repeat split. lia.
Qed.

(** A call that returns with an error message returns the state it got. *)
Lemma contiguous_failure_keeps_state (s s' : t) (f : string) (a b n : Z) (e : error) :
  (create N f a s = Done (s', Fail e) → s' = s)
  ∧ (write N f a b s = Done (s', (n, Fail e)) → s' = s ∧ n = 1)
  ∧ (delete_file N f s = Done (s', Fail e) → s' = s).
Proof.
  split; [|split].
  - unfold create. intros H.
    destruct (file_map s !! f); [by simplify_eq|].
    destruct (get_index N s a) as [[index cur]| | |] eqn:Hg; try discriminate.
    cbn [bind] in H. destruct (Z.eqb_spec index (-1)) as [->|].
    + apply get_index_none in Hg as ->. simplify_eq. by destruct s.
    + invert_done.
  - unfold write. intros H. invert_done; done.
  - unfold delete_file. intros H. invert_done; done.
Qed.

(** The probing loop of [write] stops at the first used block. *)
Lemma probe_spec (n : nat) (m : list bool) (end_ : Z) : ∀ a r,
  probe N n m end_ a = Done r →
  a ≤ r ≤ a + Z.of_nat n
  ∧ (∀ p, a ≤ p < r → bs_test N m (p + end_) = Done false)
  ∧ (r < a + Z.of_nat n → bs_test N m (r + end_) = Done true).
Proof.
  induction n as [|n IH]; intros a r H.
  - injection H as <-. repeat split; intros; lia.
  - cbn [probe] in H. destruct (bs_test N m (a + end_)) as [b| | |] eqn:E; try discriminate.
    cbn [bind] in H. destruct b.
    + injection H as <-. repeat split; intros; try lia. done.
    + apply IH in H as (Hr & Hfree & Hused). repeat split; try lia.
      * intros p Hp. destruct (decide (p = a)) as [->|]; [done|]. apply Hfree. lia.
      * intros. apply Hused. lia.
Qed.


(** It leaves the map when a block it looks at is beyond the device. *)
Lemma probe_past_device (n : nat) (m : list bool) (end_ : Z) : ∀ a,
  0 ≤ a + end_ ≤ Z.of_nat N →
  Z.of_nat N < a + end_ + Z.of_nat n →
  free_run N m (a + end_) (Z.of_nat N - (a + end_)) →
  probe N n m end_ a = Undefined.
Proof.
  induction n as [|n IH]; intros a Hlo Hhi Hfree; [lia|].
  cbn [probe]. destruct (decide (a + end_ < Z.of_nat N)) as [Hin|Hout].
  - rewrite Hfree by lia. cbn [bind]. apply IH; [lia|lia|].
    intros p Hp. apply Hfree. lia.
  - rewrite bs_test_past_device by lia. done.
Qed.


(** Growth in place over the end of the device, the blocks up to the end
    being free: the probing loop reads [memory_map[N]]. *)
Lemma contiguous_write_growth_past_device (s : t) (f : string) (fp : File) (size offset : Z) :
  file_map s !! f = Some fp →
  0 ≤ start_block fp + filesize fp ≤ Z.of_nat N →
  Z.of_nat N < start_block fp + size + offset →
  free_run N (memory_map s) (start_block fp + filesize fp)
    (Z.of_nat N - (start_block fp + filesize fp)) →
  write N f size offset s = Undefined.
Proof.
  intros Hf Hlo Hhi Hfree. unfold write. rewrite Hf.
  destruct (Z.gtb_spec (size + offset) (filesize fp)); [|lia].
  rewrite probe_past_device; [done|lia|lia|done].
Qed.






(** ** ContiguousFileSystem: the map and the registry *)

Lemma consistent_new (alg : Strategy) : consistent N (new N alg).
Proof.
  split; unfold live_size; cbn [new memory_map file_map].
  - apply length_replicate.
  - intros f fp H. by rewrite lookup_empty in H.
  - intros f g fp gp p _ H. by rewrite lookup_empty in H.
  - rewrite popcount_replicate_false, total_size_empty. done.
Qed.

Lemma consistent_create (s s' : t) (f : string) (k : Z) (r : reply Z) :
  0 ≤ k → consistent N s → create N f k s = Done (s', r) → consistent N s'.
Proof.
  intros Hk [Hlen Hown Hdis Hcnt] H. unfold create in H.
  destruct (file_map s !! f) eqn:Hf; [by simplify_eq|].
  destruct (get_index N s k) as [[st cur]| | |] eqn:Hg; try discriminate.
  cbn [bind] in H. destruct (Z.eqb_spec st (-1)) as [|Hne]; [by simplify_eq|].
  cbn [memory_map file_map used_memory strategy] in H.
  destruct (assign_run N true (memory_map s) st k) as [m1| | |] eqn:Hm; try discriminate.
  cbn [bind] in H. injection H as <- _.
  pose proof (get_index_free s k st cur Hg Hne) as Hfree.
  split; unfold live_size in *; cbn [memory_map file_map].
  - apply assign_loop_length in Hm. lia.
  - intros g gp Hgp. rewrite lookup_insert in Hgp. case_decide as Hfg.
    + injection Hgp as <-. cbn [filesize]. split; [done|].
      intros p Hp. unfold in_file in Hp. cbn [start_block filesize] in Hp.
      eapply assign_run_inside; [exact Hm|done|by apply Hfree].
    + destruct (Hown g gp Hgp) as [? Hmark]. split; [done|].
      intros p Hp. eapply assign_run_same; [exact Hm|by apply Hmark].
  - intros g h gp hp p Hgh Hgp Hhp Hp Hp'.
    destruct (decide (g = f)) as [->|Hgf]; [|destruct (decide (h = f)) as [->|Hhf]].
    + rewrite lookup_insert_eq in Hgp. injection Hgp as <-.
      rewrite lookup_insert_ne in Hhp by done.
      destruct (Hown h hp Hhp) as [_ Hmark]. specialize (Hmark p Hp').
      rewrite Hfree in Hmark; [done|exact Hp].
    + rewrite lookup_insert_eq in Hhp. injection Hhp as <-.
      rewrite lookup_insert_ne in Hgp by done.
      destruct (Hown g gp Hgp) as [_ Hmark]. specialize (Hmark p Hp).
      rewrite Hfree in Hmark; [done|exact Hp'].
    + rewrite lookup_insert_ne in Hgp by done. rewrite lookup_insert_ne in Hhp by done.
      exact (Hdis g h gp hp p Hgh Hgp Hhp Hp Hp').
  - rewrite (popcount_assign_run N true (memory_map s) m1 st k Hk); [| |done].
    + rewrite total_size_insert by done. cbn [filesize]. lia.
    + intros p Hp. by apply Hfree.
Qed.

Lemma consistent_delete (s s' : t) (f : string) (r : reply unit) :
  consistent N s → delete_file N f s = Done (s', r) → consistent N s'.
Proof.
  intros [Hlen Hown Hdis Hcnt] H. unfold delete_file in H.
  destruct (file_map s !! f) as [fp|] eqn:Hf; [|by simplify_eq].
  destruct (assign_run N false (memory_map s) (start_block fp) (filesize fp))
    as [m1| | |] eqn:Hm; try discriminate.
  cbn [bind] in H. injection H as <- _.
  destruct (Hown f fp Hf) as [Hsz Hmark].
  split; unfold live_size in *; cbn [memory_map file_map].
  - apply assign_loop_length in Hm. lia.
  - intros g gp Hgp. apply lookup_delete_Some in Hgp as [Hne Hgp].
    destruct (Hown g gp Hgp) as [? Hmarkg]. split; [done|].
    intros p Hp. eapply assign_run_outside; [exact Hm| |by apply Hmarkg].
    intros Hp'. by eapply (Hdis g f gp fp p).
  - intros g h gp hp p Hgh Hgp Hhp.
    apply lookup_delete_Some in Hgp as [_ Hgp]. apply lookup_delete_Some in Hhp as [_ Hhp].
    by eapply Hdis.
  - rewrite (popcount_assign_run N false (memory_map s) m1 (start_block fp) (filesize fp) Hsz);
      [| |done].
    + rewrite (total_size_delete _ _ f fp) by done. lia.
    + intros p Hp. by apply Hmark.
Qed.

Lemma consistent_write (s s' : t) (f : string) (size offset : Z) (r : Z * reply (list Z)) :
  consistent N s → write N f size offset s = Done (s', r) → consistent N s'.
Proof.
  intros Hs H. pose proof Hs as [Hlen Hown Hdis Hcnt]. unfold write in H.
  destruct (file_map s !! f) as [fp|] eqn:Hf; [|by simplify_eq].
  destruct (Z.gtb_spec (size + offset) (filesize fp)) as [Hgrow|].
  2: { cbv zeta beta in H. by injection H as <- _. }
  destruct (probe N (Z.to_nat (size + offset - filesize fp)) (memory_map s)
              (start_block fp + filesize fp) 0) as [av| | |] eqn:Hp; try discriminate.
  cbn [bind] in H.
  destruct (av =? size + offset - filesize fp) eqn:Heq; cbn [negb] in H.
  2: { by injection H as <- _. }
  apply Z.eqb_eq in Heq as ->.
  destruct (assign_loop N true (Z.to_nat (size + offset - filesize fp))
              (start_block fp + filesize fp) 0 (memory_map s)) as [m1| | |] eqn:Hm;
    try discriminate.
  cbn [bind] in H. injection H as <- _.
  destruct (Hown f fp Hf) as [Hsz Hmark].
  set (req := size + offset - filesize fp) in *.
  set (end_ := start_block fp + filesize fp) in *.
  apply probe_spec in Hp as (_ & Hfree0 & _).
  assert (free_run N (memory_map s) end_ req) as Hfree.
  { intros p Hp. replace p with (p - end_ + end_) by lia. apply Hfree0. lia. }
  change (assign_run N true (memory_map s) end_ req = Done m1) in Hm.
  split; unfold live_size in *; cbn [memory_map file_map].
  - apply assign_loop_length in Hm. lia.
  - intros g gp Hgp. rewrite lookup_insert in Hgp. case_decide as Hfg.
    + injection Hgp as <-. cbn [filesize]. split; [lia|].
      intros p Hp. unfold in_file in Hp. cbn [start_block filesize] in Hp.
      destruct (decide (p < end_)).
      * eapply assign_run_same; [exact Hm|]. apply Hmark. unfold in_file. lia.
      * eapply assign_run_inside; [exact Hm| |apply Hfree]; lia.
    + destruct (Hown g gp Hgp) as [? Hmarkg]. split; [done|].
      intros p Hp. eapply assign_run_same; [exact Hm|by apply Hmarkg].
  - assert (∀ g gp p, f ≠ g → file_map s !! g = Some gp →
            start_block fp ≤ p < start_block fp + (filesize fp + req) →
            ¬ in_file gp p) as Hnew.
    { intros g gp p Hfg Hgp Hp Hp'. destruct (decide (p < end_)).
      - eapply (Hdis f g fp gp p); [done..| |done]. unfold in_file. lia.
      - destruct (Hown g gp Hgp) as [_ Hmarkg]. specialize (Hmarkg p Hp').
        rewrite Hfree in Hmarkg; [done|lia]. }
    intros g h gp hp p Hgh Hgp Hhp Hp Hp'.
    destruct (decide (g = f)) as [->|Hgf]; [|destruct (decide (h = f)) as [->|Hhf]].
    + rewrite lookup_insert_eq in Hgp. injection Hgp as <-.
      rewrite lookup_insert_ne in Hhp by done. by eapply (Hnew h hp p).
    + rewrite lookup_insert_eq in Hhp. injection Hhp as <-.
      rewrite lookup_insert_ne in Hgp by done. by eapply (Hnew g gp p).
    + rewrite lookup_insert_ne in Hgp by done. rewrite lookup_insert_ne in Hhp by done.
      exact (Hdis g h gp hp p Hgh Hgp Hhp Hp Hp').
  - rewrite (popcount_assign_run N true (memory_map s) m1 end_ req); [|lia| |done].
    + rewrite (total_size_update _ _ f fp) by done. cbn [filesize]. lia.
    + intros p Hp. by apply Hfree.
Qed.

Lemma consistent_exec (c : command) (s s' : t) :
  valid c → consistent N s → exec N c s = Done s' → consistent N s'.
Proof.
  intros Hv Hs H. destruct c as [f k|f sz off|f sz off|f]; cbn [exec] in H.
  - destruct (create N f k s) as [[s1 r]| | |] eqn:E; try discriminate.
    cbn [bind] in H. injection H as <-. by eapply consistent_create.
  - destruct (read f sz off s); try discriminate. cbn [bind] in H. by injection H as <-.
  - destruct (write N f sz off s) as [[s1 r]| | |] eqn:E; try discriminate.
    cbn [bind] in H. injection H as <-. by eapply consistent_write.
  - destruct (delete_file N f s) as [[s1 r]| | |] eqn:E; try discriminate.
    cbn [bind] in H. injection H as <-. by eapply consistent_delete.
Qed.

Lemma consistent_exec_all (cs : list command) : ∀ s s',
  Forall valid cs → consistent N s → exec_all N cs s = Done s' → consistent N s'.
Proof.
  induction cs as [|c cs IH]; intros s s' Hv Hs H.
  - by injection H as <-.
  - cbn [exec_all] in H. destruct (exec N c s) as [s1| | |] eqn:E; try discriminate.
    cbn [bind] in H. inversion Hv; subst.
    eapply IH; [done| |exact H]. by eapply consistent_exec.
Qed.

(** After every sequence of commands that the allocator runs to the end,
    the sizes of the files add up to the number of used blocks. *)
Lemma contiguous_sizes_are_popcount (alg : Strategy) (cs : list command) (s : t) :
  Forall valid cs →
  exec_all N cs (new N alg) = Done s →
  popcount (memory_map s) = live_size s.
Proof.
  intros Hv H. eapply c_count, consistent_exec_all; [done|apply consistent_new|done].
Qed.
End ContiguousFacts.

(** ** ModifiedContiguousFileSystem *)

Section ModifiedFacts.
Import ModifiedContiguousFileSystem.
Variable N : nat.

(** [create(f, k); delete_file(f)] gives back the map, the registry and the
    counter. *)
Lemma modified_create_delete (s s1 : t) (f : string) (k r : Z) :
  file_map s !! f = None →
  create N f k s = Done (s1, Ok r) →
  ∃ s2, delete_file N f s1 = Done (s2, Ok ())
        ∧ memory_map s2 = memory_map s
        ∧ file_map s2 = file_map s
        ∧ used_memory s2 = used_memory s.
Proof.
  intros Hf H. unfold create in H. rewrite Hf in H.
  destruct (ContiguousFileSystem.get_index N (base s) k) as [[st cur]| | |] eqn:Hg;
    try discriminate.
  cbn [bind] in H. destruct (Z.eqb_spec st (-1)) as [|Hne]; [discriminate|].
  destruct (assign_run N true (memory_map s) st k) as [m1| | |] eqn:Hm; try discriminate.
  cbn [bind] in H. injection H as <- <-.
  unfold delete_file. cbn [file_map]. rewrite lookup_insert_eq.
  cbn [start filesize release start_block size].
  unfold memory_map at 1, with_memory at 1. cbn [base ContiguousFileSystem.memory_map].
  rewrite (assign_run_undo N (memory_map s) m1 st k);
    [|by apply (get_index_free N (base s) k st cur)|done].
  cbn [bind]. eexists. split; [reflexivity|].
  unfold memory_map, used_memory, with_memory.
  cbn [base file_map ContiguousFileSystem.memory_map ContiguousFileSystem.used_memory].
  rewrite delete_insert_id by done. repeat split. lia.
Qed.

(** Whenever the hole search of a growing [write] finds nothing, the call
    ends with the exception of [bitset::set]. *)
Lemma modified_write_no_hole (s : t) (f : string) (fp : File) (size_ offset cur : Z) :
  file_map s !! f = Some fp →
  size_ + offset > filesize fp →
  ContiguousFileSystem.get_index N (base s) (size_ + offset - filesize fp) = Done (-1, cur) →
  write N f size_ offset s = Thrown.
Proof.
  intros Hf Hgrow Hg. unfold write, grow. rewrite Hf.
  destruct (Z.gtb_spec (size_ + offset) (filesize fp)); [|lia].
  rewrite Hg. cbn [bind]. rewrite assign_run_minus_one by lia. reflexivity.
Qed.

(** A call that returns with an error message returns the state it got;
    for [write] the only such return is the one for an unknown name, with
    the result 0. *)
Lemma modified_failure_keeps_state (s s' : t) (f : string) (a b n : Z) (e : error) :
  (create N f a s = Done (s', Fail e) → s' = s)
  ∧ (write N f a b s = Done (s', (n, Fail e)) → s' = s ∧ n = 0 ∧ e = NotFound)
  ∧ (delete_file N f s = Done (s', Fail e) → s' = s).
Proof.
  split; [|split].
  - unfold create. intros H.
    destruct (file_map s !! f); [by simplify_eq|].
    destruct (ContiguousFileSystem.get_index N (base s) a) as [[index cur]| | |] eqn:Hg;
      try discriminate.
    cbn [bind] in H. destruct (Z.eqb_spec index (-1)) as [->|].
    + apply get_index_none in Hg as ->. simplify_eq. by destruct s as [[]].
    + invert_done.
  - unfold write. intros H.
    destruct (file_map s !! f) as [fp|] eqn:Hf; [|by simplify_eq].
    unfold grow in H.
    destruct (Z.gtb_spec (a + b) (filesize fp)) as [Hgrow|].
    + destruct (ContiguousFileSystem.get_index N (base s) (a + b - filesize fp))
        as [[index cur]| | |] eqn:Hg; try discriminate.
      cbn [bind] in H.
      destruct (Z.eqb_spec index (-1)) as [->|].
      * rewrite assign_run_minus_one in H by lia. discriminate.
      * invert_done.
    + cbn [bind] in H. invert_done.
  - unfold delete_file. intros H. invert_done; done.
Qed.

(** *** The chains of runs *)

Lemma chain_size_app (c1 c2 : list block) :
  chain_size (c1 ++ c2) = chain_size c1 + chain_size c2.
Proof. induction c1 as [|b c1 IH]; cbn [app chain_size]; lia. Qed.

Lemma chain_size_nonneg (chain : list block) :
  (∀ b, b ∈ chain → 0 ≤ size b) → 0 ≤ chain_size chain.
Proof.
  induction chain as [|b chain IH]; intros H; cbn [chain_size]; [lia|].
  pose proof (H b ltac:(left)). pose proof (IH ltac:(intros; apply H; by right)). lia.
Qed.

Lemma runs_disjoint_snoc (chain : list block) (nb : block) :
  runs_disjoint chain →
  (∀ b p, b ∈ chain → in_block b p → ¬ in_block nb p) →
  runs_disjoint (chain ++ [nb]).
Proof.
  induction chain as [|b chain IH]; intros Hd Hnb; cbn [app runs_disjoint].
  - split; [|done]. intros b' p Hb'. by apply elem_of_nil in Hb'.
  - destruct Hd as [Hb Hd]. split.
    + intros b' p Hb' Hp. apply elem_of_app in Hb' as [Hb'|Hb'].
      * by apply Hb.
      * apply list_elem_of_singleton in Hb' as ->. apply (Hnb b); [left|done].
    + apply IH; [done|]. intros b' p Hb'. apply Hnb. by right.
Qed.

(** *** The walk along the chain *)

Lemma run_loop_count (n : nat) (b : block) (more : Z → bool) :
  ∀ i count access out,
  count ≤ (run_loop n b more i count access out).1.1
  ∧ (run_loop n b more i count access out).1.1 ≤ count + Z.of_nat n.
Proof.
  induction n as [|n IH]; intros i count access out; cbn [run_loop]; [cbn; lia|].
  destruct ((i <? size b) && more count); [|cbn; lia].
  specialize (IH (i + 1) (count + 1) (access + 1) (out ++ [start_block b + i])). lia.
Qed.

(** What one turn does to the locals: the run is visited, at most its
    blocks from [wrt] on are counted, and [offset] grows by the whole
    count. *)
Lemma visit_spec (b : block) (rest : list block) (more : Z → bool) (k : walk_state) :
  0 ≤ size b →
  let k' := visit b rest more k in
  k_passed k' = k_passed k ++ [b]
  ∧ k_ahead k' = rest
  ∧ k_bno k' = k_bno k + size b
  ∧ k_count k ≤ k_count k'
  ∧ ((k_count k' = k_count k ∧ k_offset k' = k_offset k)
     ∨ (k_bno k ≤ k_offset k
        ∧ k_count k' ≤ k_count k + (k_bno k + size b - k_offset k)
        ∧ k_offset k' = k_offset k + k_count k')).
Proof.
  intros Hb. unfold visit.
  destruct ((k_offset k >=? k_bno k) && (k_offset k <? k_bno k + size b)) eqn:Hin.
  - apply andb_true_iff in Hin as [Hge Hlt].
    rewrite Z.geb_leb in Hge. apply Z.leb_le in Hge. apply Z.ltb_lt in Hlt.
    pose proof (run_loop_count (Z.to_nat (size b - (k_offset k - k_bno k))) b more
                  (k_offset k - k_bno k) (k_count k)
                  (if k_offset k - k_bno k =? 0 then k_access k + 1 - 1
                   else k_access k + 1) (k_out k)) as Hrun.
    destruct (run_loop _ _ _ _ _ _ _) as [[cnt acc] out].
    cbn [fst] in Hrun. cbn. repeat split; try lia.
  - cbn. repeat split; try lia.
Qed.

(** The runs visited and the runs ahead are the chain. *)
Lemma walk_chain (size_ : Z) (more : Z → bool) (chain : list block) : ∀ k,
  (∀ b, b ∈ chain → 0 ≤ size b) →
  k_ahead k = chain →
  k_passed (walk chain size_ more k) ++ k_ahead (walk chain size_ more k)
  = k_passed k ++ chain.
Proof.
  induction chain as [|b rest IH]; intros k Hsz Hk; cbn [walk].
  - by rewrite Hk.
  - destruct (k_count k <? size_); [|by rewrite Hk].
    pose proof (visit_spec b rest more k (Hsz b ltac:(left))) as (Hp & Ha & _).
    rewrite IH; [|intros; apply Hsz; by right|done].
    rewrite Hp. by rewrite <- (assoc_L (++)).
Qed.

(** When the request ends behind the blocks of the chain, the walk visits
    every run: fewer than [size_] blocks have been counted at each of them. *)
Lemma walk_full (size_ offset0 total : Z) (more : Z → bool) (chain : list block) : ∀ k,
  (∀ b, b ∈ chain → 0 ≤ size b) →
  k_ahead k = chain →
  0 ≤ k_count k ≤ Z.max 0 (k_bno k - offset0) →
  offset0 + k_count k ≤ k_offset k →
  k_bno k + chain_size chain ≤ total →
  Z.max 0 (total - offset0) < size_ →
  k_ahead (walk chain size_ more k) = [].
Proof.
  induction chain as [|b rest IH]; intros k Hsz Hk Hcnt Hoff Hbno Htot; cbn [walk].
  - done.
  - pose proof (Hsz b ltac:(left)) as Hb.
    pose proof (chain_size_nonneg rest ltac:(intros; apply Hsz; by right)) as Hrest.
    cbn [chain_size] in Hbno.
    destruct (Z.ltb_spec (k_count k) size_); [|lia].
    pose proof (visit_spec b rest more k Hb) as (Hp & Ha & Hb' & Hc & Hcase).
    apply IH; [intros; apply Hsz; by right|done|..]; try lia.
Qed.
(** *** Releasing a chain *)

Lemma release_spec (chain : list block) : ∀ m m',
  (∀ b, b ∈ chain → 0 ≤ size b) →
  (∀ b p, b ∈ chain → in_block b p → bs_test N m p = Done true) →
  runs_disjoint chain →
  release N chain m = Done m' →
  length m' = length m
  ∧ popcount m' = popcount m - chain_size chain
  ∧ ∀ p v, (∀ b, b ∈ chain → ¬ in_block b p) →
           bs_test N m p = Done v → bs_test N m' p = Done v.
Proof.
  induction chain as [|b rest IH]; intros m m' Hsz Hused Hd H; cbn [release] in H.
  - injection H as <-. cbn [chain_size]. repeat split; [lia|done].
  - destruct (assign_run N false m (start_block b) (size b)) as [m1| | |] eqn:Hm;
      try discriminate.
    cbn [bind] in H. destruct Hd as [Hb Hd].
    apply IH in H as (Hlen & Hcnt & Hout); [|intros; apply Hsz; by right| |done].
    + split; [|split].
      * rewrite Hlen. by apply assign_loop_length in Hm.
      * rewrite Hcnt. cbn [chain_size].
        rewrite (popcount_assign_run N false m m1 (start_block b) (size b));
          [lia|apply Hsz; left| |done].
        intros p Hp. apply (Hused b); [left|done].
      * intros p v Hp Hv. apply Hout; [intros; apply Hp; by right|].
        eapply assign_run_outside; [exact Hm| |done]. apply (Hp b). left.
    + intros b' p Hb' Hp. eapply assign_run_outside; [exact Hm| |].
      * intros Hp'. by apply (Hb b' p).
      * apply (Hused b'); [by right|done].
Qed.

(** *** The operations *)

Lemma modified_consistent_new (alg : Strategy) : consistent N (new N alg).
Proof.
  split.
  - apply length_replicate.
  - intros f fp H. unfold new in H. cbn [file_map] in H. by rewrite lookup_empty in H.
  - intros f g fp gp b b' p _ H. unfold new in H. cbn [file_map] in H.
    by rewrite lookup_empty in H.
  - unfold live_size, memory_map, new. cbn.
    rewrite popcount_replicate_false, total_size_empty. done.
Qed.

Lemma owned_same (m m1 : list bool) (base cnt : Z) (fp : File) :
  assign_run N true m base cnt = Done m1 → owned N m fp → owned N m1 fp.
Proof.
  intros Hm [? ? ? Hused ?]. split; try done.
  intros b p Hb Hp. eapply assign_run_same; [exact Hm|by eapply Hused].
Qed.

Lemma modified_consistent_create (s s' : t) (f : string) (k : Z) (r : reply Z) :
  0 ≤ k → consistent N s → create N f k s = Done (s', r) → consistent N s'.
Proof.
  intros Hk Hs H. pose proof Hs as [Hlen Hown Hdis Hcnt]. unfold create in H.
  destruct (file_map s !! f) eqn:Hf; [by simplify_eq|].
  destruct (ContiguousFileSystem.get_index N (base s) k) as [[st cur]| | |] eqn:Hg;
    try discriminate.
  cbn [bind] in H. destruct (Z.eqb_spec st (-1)) as [|Hne].
  { injection H as <- _. destruct Hs. split; done. }
  destruct (assign_run N true (memory_map s) st k) as [m1| | |] eqn:Hm; try discriminate.
  cbn [bind] in H. injection H as <- _.
  pose proof (get_index_free N (base s) k st cur Hg Hne) as Hfree.
  fold (memory_map s) in Hfree.
  split; unfold memory_map, live_size in *;
    cbn [base file_map with_memory ContiguousFileSystem.memory_map].
  - apply assign_loop_length in Hm. unfold memory_map in *. lia.
  - intros g gp Hgp. rewrite lookup_insert in Hgp. case_decide as Hfg.
    + injection Hgp as <-. split; cbn [start filesize chain_size runs_disjoint].
      * done.
      * intros b Hb. apply list_elem_of_singleton in Hb as ->. done.
      * cbn [size]. lia.
      * intros b p Hb Hp. apply list_elem_of_singleton in Hb as ->.
        eapply assign_run_inside; [exact Hm|exact Hp|by apply Hfree].
      * split; [|done]. intros b' p Hb'. by apply elem_of_nil in Hb'.
    + eapply owned_same; [exact Hm|]. by eapply Hown.
  - intros g h gp hp b b' p Hgh Hgp Hhp Hb Hb' Hp Hp'.
    destruct (decide (g = f)) as [->|Hgf]; [|destruct (decide (h = f)) as [->|Hhf]].
    + rewrite lookup_insert_eq in Hgp. injection Hgp as <-.
      rewrite lookup_insert_ne in Hhp by done.
      apply list_elem_of_singleton in Hb as ->.
      pose proof (o_used _ _ _ (Hown h hp Hhp) b' p Hb' Hp') as Hmark.
      rewrite Hfree in Hmark; [done|exact Hp].
    + rewrite lookup_insert_eq in Hhp. injection Hhp as <-.
      rewrite lookup_insert_ne in Hgp by done.
      apply list_elem_of_singleton in Hb' as ->.
      pose proof (o_used _ _ _ (Hown g gp Hgp) b p Hb Hp) as Hmark.
      rewrite Hfree in Hmark; [done|exact Hp'].
    + rewrite lookup_insert_ne in Hgp by done. rewrite lookup_insert_ne in Hhp by done.
      exact (Hdis g h gp hp b b' p Hgh Hgp Hhp Hb Hb' Hp Hp').
  - rewrite (popcount_assign_run N true (ContiguousFileSystem.memory_map (base s)) m1 st k Hk);
      [| |exact Hm].
    + rewrite total_size_insert by done. cbn [filesize]. lia.
    + intros p Hp. by apply Hfree.
Qed.

Lemma modified_consistent_delete (s s' : t) (f : string) (r : reply unit) :
  consistent N s → delete_file N f s = Done (s', r) → consistent N s'.
Proof.
  intros Hs H. pose proof Hs as [Hlen Hown Hdis Hcnt]. unfold delete_file in H.
  destruct (file_map s !! f) as [fp|] eqn:Hf; [|by simplify_eq].
  destruct (release N (start fp) (memory_map s)) as [m1| | |] eqn:Hm; try discriminate.
  cbn [bind] in H. injection H as <- _.
  destruct (Hown f fp Hf) as [Hne Hsz Htot Hused Hap].
  apply release_spec in Hm as (Hlen1 & Hcnt1 & Hout); [|done..].
  split; unfold memory_map, live_size in *;
    cbn [base file_map with_memory ContiguousFileSystem.memory_map].
  - lia.
  - intros g gp Hgp. apply lookup_delete_Some in Hgp as [Hgf Hgp].
    destruct (Hown g gp Hgp) as [? ? ? Husedg ?]. split; try done.
    intros b p Hb Hp. apply Hout; [|by eapply Husedg].
    intros b' Hb' Hp'. exact (Hdis g f gp fp b b' p ltac:(done) Hgp Hf Hb Hb' Hp Hp').
  - intros g h gp hp b b' p Hgh Hgp Hhp.
    apply lookup_delete_Some in Hgp as [_ Hgp]. apply lookup_delete_Some in Hhp as [_ Hhp].
    exact (Hdis g h gp hp b b' p Hgh Hgp Hhp).
  - rewrite Hcnt1. rewrite (total_size_delete _ _ f fp) by done. lia.
Qed.

Lemma modified_consistent_write (s s' : t) (f : string) (size_ offset : Z)
  (r : Z * reply (list Z)) :
  consistent N s → write N f size_ offset s = Done (s', r) → consistent N s'.
Proof.
  intros Hs H. pose proof Hs as [Hlen Hown Hdis Hcnt]. unfold write in H.
  destruct (file_map s !! f) as [fp|] eqn:Hf; [|by simplify_eq].
  destruct (Hown f fp Hf) as [Hne Hsz Htot Hused Hap].
  unfold grow in H.
  destruct (Z.gtb_spec (size_ + offset) (filesize fp)) as [Hgrow|Hfit].
  - (* growth *)
    destruct (ContiguousFileSystem.get_index N (base s) (size_ + offset - filesize fp))
      as [[index cur]| | |] eqn:Hg; try discriminate.
    cbn [bind] in H.
    destruct (assign_run N true (memory_map s) index (size_ + offset - filesize fp))
      as [m1| | |] eqn:Hm; try discriminate.
    cbn [bind] in H.
    destruct (Z.eqb_spec index (-1)) as [->|Hne1].
    { rewrite assign_run_minus_one in Hm by lia. discriminate. }
    cbn [bind start filesize] in H.
    set (req := size_ + offset - filesize fp) in *.
    set (k := walk (start fp) size_ _ _) in H.
    destruct (k_passed k) as [|b0 bs] eqn:Hpass; [discriminate|].
    cbn [bind] in H. injection H as <- _.
    pose proof (get_index_free N (base s) req index cur Hg Hne1) as Hfree.
    fold (memory_map s) in Hfree.
    assert (0 < size_) as Hpos.
    { destruct (decide (0 < size_)) as [|Hle]; [done|]. subst k.
      destruct (start fp) as [|b1 bs1]; [done|]. cbn [walk k_count] in Hpass.
      destruct (Z.ltb_spec 0 size_); [lia|]. discriminate Hpass. }
    assert (b0 :: bs = start fp) as Hchain.
    { pose proof (walk_chain size_ (λ written, negb (written =? size_)) (start fp)
                    (mkWalk offset 0 0 1 [] [] (start fp)) Hsz eq_refl) as Hw.
      assert (k_ahead k = []) as Hahead.
      { apply (walk_full size_ offset (filesize fp));
          cbn [k_ahead k_count k_bno k_offset]; try done; lia. }
      fold k in Hw. rewrite Hpass, Hahead, app_nil_r in Hw. exact Hw. }
    replace (b0 :: bs ++ [mkBlock index req]) with (start fp ++ [mkBlock index req])
      by by rewrite <- Hchain.
    split; unfold memory_map, live_size in *;
      cbn [base file_map with_memory ContiguousFileSystem.memory_map].
    + apply assign_loop_length in Hm. lia.
    + intros g gp Hgp. rewrite lookup_insert in Hgp. case_decide as Hfg.
      * injection Hgp as <-. split; cbn [start filesize].
        -- by destruct (start fp).
        -- intros b Hb. apply elem_of_app in Hb as [Hb|Hb]; [by apply Hsz|].
           apply list_elem_of_singleton in Hb as ->. cbn [size]. lia.
        -- rewrite chain_size_app. cbn [chain_size size]. lia.
        -- intros b p Hb Hp. apply elem_of_app in Hb as [Hb|Hb].
           ++ eapply assign_run_same; [exact Hm|by eapply Hused].
           ++ apply list_elem_of_singleton in Hb as ->.
              eapply assign_run_inside; [exact Hm|exact Hp|by apply Hfree].
        -- apply runs_disjoint_snoc; [done|].
           intros b p Hb Hp Hp'. pose proof (Hused b p Hb Hp) as Hmark.
           rewrite Hfree in Hmark; [done|exact Hp'].
      * eapply owned_same; [exact Hm|]. by eapply Hown.
    + assert (∀ g gp b b' p, f ≠ g → file_map s !! g = Some gp →
              b ∈ start fp ++ [mkBlock index req] → b' ∈ start gp →
              in_block b p → ¬ in_block b' p) as Hnew.
      { intros g gp b b' p Hfg Hgp Hb Hb' Hp Hp'.
        apply elem_of_app in Hb as [Hb|Hb].
        - exact (Hdis f g fp gp b b' p Hfg Hf Hgp Hb Hb' Hp Hp').
        - apply list_elem_of_singleton in Hb as ->.
          pose proof (o_used _ _ _ (Hown g gp Hgp) b' p Hb' Hp') as Hmark.
          rewrite Hfree in Hmark; [done|exact Hp]. }
      intros g h gp hp b b' p Hgh Hgp Hhp Hb Hb' Hp Hp'.
      destruct (decide (g = f)) as [->|Hgf]; [|destruct (decide (h = f)) as [->|Hhf]].
      * rewrite lookup_insert_eq in Hgp. injection Hgp as <-.
        rewrite lookup_insert_ne in Hhp by done.
        exact (Hnew h hp b b' p Hgh Hhp Hb Hb' Hp Hp').
      * rewrite lookup_insert_eq in Hhp. injection Hhp as <-.
        rewrite lookup_insert_ne in Hgp by done.
        exact (Hnew g gp b' b p ltac:(done) Hgp Hb' Hb Hp' Hp).
      * rewrite lookup_insert_ne in Hgp by done. rewrite lookup_insert_ne in Hhp by done.
        exact (Hdis g h gp hp b b' p Hgh Hgp Hhp Hb Hb' Hp Hp').
    + rewrite (popcount_assign_run N true (ContiguousFileSystem.memory_map (base s)) m1 index
               req); [|lia| |exact Hm].
      * rewrite (total_size_update _ _ f fp) by done. cbn [filesize]. lia.
      * intros p Hp. by apply Hfree.
  - (* no growth: the file is registered again as it was *)
    cbn [bind] in H.
    set (k := walk (start fp) size_ _ _) in H.
    cbn [bind] in H. injection H as <- _.
    pose proof (walk_chain size_ (λ written, negb (written =? size_)) (start fp)
                  (mkWalk offset 0 0 1 [] [] (start fp)) Hsz eq_refl) as Hw.
    fold k in Hw. cbn [k_passed app] in Hw. rewrite Hw.
    replace (mkFile (filesize fp) (start fp)) with fp by by destruct fp.
    rewrite insert_id by done. by destruct s.
Qed.

Lemma modified_consistent_exec_all (cs : list command) : ∀ s s',
  Forall valid cs → consistent N s → exec_all N cs s = Done s' → consistent N s'.
Proof.
  induction cs as [|c cs IH]; intros s s' Hv Hs H.
  - by injection H as <-.
  - cbn [exec_all] in H. destruct (exec N c s) as [s1| | |] eqn:E; try discriminate.
    cbn [bind] in H. inversion Hv as [|? ? Hc Hcs]; subst.
    eapply IH; [done| |exact H].
    destruct c as [f k|f sz off|f sz off|f]; cbn [exec valid] in E, Hc.
    + destruct (create N f k s) as [[s2 r]| | |] eqn:E'; try discriminate.
      cbn [bind] in E. injection E as <-.
      exact (modified_consistent_create s s2 f k r Hc Hs E').
    + destruct (read f sz off s); try discriminate. cbn [bind] in E. by injection E as <-.
    + destruct (write N f sz off s) as [[s2 r]| | |] eqn:E'; try discriminate.
      cbn [bind] in E. injection E as <-.
      exact (modified_consistent_write s s2 f sz off r Hs E').
    + destruct (delete_file N f s) as [[s2 r]| | |] eqn:E'; try discriminate.
      cbn [bind] in E. injection E as <-.
      exact (modified_consistent_delete s s2 f r Hs E').
Qed.

(** After every sequence of commands that the allocator runs to the end,
    the sizes of the files add up to the number of used blocks. *)
Lemma modified_sizes_are_popcount (alg : Strategy) (cs : list command) (s : t) :
  Forall valid cs →
  exec_all N cs (new N alg) = Done s →
  popcount (memory_map s) = live_size s.
Proof.
  intros Hv H.
  eapply c_count, modified_consistent_exec_all; [done|apply modified_consistent_new|done].
Qed.
End ModifiedFacts.

(** ** LinkedFileSystem *)

Section LinkedFacts.
Import LinkedFileSystem.

Lemma link_spec (n : nat) : ∀ chain free : list Z,
  (n ≤ length free)%nat →
  link n chain free = Done (chain ++ take n free, drop n free).
Proof.
  induction n as [|n IH]; intros chain free Hn; simpl.
  - by rewrite take_0, drop_0, app_nil_r.
  - destruct free as [|b free]; [simpl in Hn; lia|].
    rewrite IH by (simpl in Hn; lia).
    simpl. by rewrite <- (assoc_L (++)).
Qed.

(** A successful [create] of [k >= 1] blocks takes the first [k] blocks of
    the free list, in order, as the chain of the file. *)
Lemma linked_create_spec (s s1 : t) (f : string) (k r : Z) :
  file_map s !! f = None →
  1 ≤ k →
  create f k s = Done (s1, Ok r) →
  (Z.to_nat k ≤ length (free_list s))%nat
  ∧ s1 = mk (drop (Z.to_nat k) (free_list s))
            (<[f := mkFile k (take (Z.to_nat k) (free_list s))]> (file_map s))
            (used_memory s + k).
Proof.
  intros Hf Hk H. unfold create in H. rewrite Hf in H.
  rewrite to_size_t_nonneg in H by lia.
  destruct (Z.ltb_spec (Z.of_nat (length (free_list s))) k) as [|Hle]; [discriminate|].
  split; [lia|].
  destruct (free_list s) as [|b free] eqn:Hfl; [discriminate|].
  rewrite link_spec in H by (simpl in Hle; lia).
  cbn [bind] in H. injection H as <- <-.
  replace (Z.to_nat k) with (S (Z.to_nat (k - 1))) by lia.
  reflexivity.
Qed.

(** [create(f, k); delete_file(f)] moves the first [k] blocks of the free
    list to its back. *)
Lemma linked_create_delete (s s1 : t) (f : string) (k r : Z) :
  file_map s !! f = None →
  1 ≤ k →
  create f k s = Done (s1, Ok r) →
  ∃ s2, delete_file f s1 = Done (s2, Ok ())
        ∧ free_list s2 = drop (Z.to_nat k) (free_list s) ++ take (Z.to_nat k) (free_list s)
        ∧ file_map s2 = file_map s
        ∧ used_memory s2 = used_memory s.
Proof.
  intros Hf Hk H. apply linked_create_spec in H as [_ ->]; [|done..].
  unfold delete_file. cbn [file_map]. rewrite lookup_insert_eq.
  eexists. split; [reflexivity|].
  cbn [free_list file_map used_memory start_block filesize].
  rewrite delete_insert_id by done. repeat split. lia.
Qed.

(** A [create] of size 0 takes the head of the free list all the same:
    [front()] and [pop_front()] come before the loop. *)
Lemma linked_create_zero (s : t) (f : string) (b : Z) (free : list Z) :
  file_map s !! f = None →
  free_list s = b :: free →
  create f 0 s
  = Done (mk free (<[f := mkFile 0 [b]]> (file_map s)) (used_memory s + 0), Ok b).
Proof. intros Hf Hfl. unfold create. rewrite Hf, Hfl. reflexivity. Qed.

(** A call that returns with an error message returns the state it got. *)
Lemma linked_failure_keeps_state (s s' : t) (f : string) (a b n : Z) (e : error) :
  (create f a s = Done (s', Fail e) → s' = s)
  ∧ (write f a b s = Done (s', (n, Fail e)) → s' = s ∧ n = 1)
  ∧ (delete_file f s = Done (s', Fail e) → s' = s).
Proof.
  split; [|split].
  - unfold create. intros H. invert_done; done.
  - unfold write. intros H. invert_done; done.
  - unfold delete_file. intros H. invert_done; done.
Qed.

(** The files and the free list. *)
Lemma linked_write_step_counts (offset : Z) (w w' : wstate) :
  write_step offset w = Done w' →
  Z.of_nat (length (passed w' ++ ahead w')) - w_filesize w'
  = Z.of_nat (length (passed w ++ ahead w)) - w_filesize w
  ∧ w_filesize w' + Z.of_nat (length (w_free w'))
    = w_filesize w + Z.of_nat (length (w_free w)).
Proof.
  unfold write_step. intros H.
  destruct (ahead w) as [|c rest] eqn:Ha.
  - destruct (passed w) as [|q qs] eqn:Hq; [discriminate|].
    destruct (w_free w) as [|c free] eqn:Hfr; [discriminate|].
    cbn [bind] in H. injection H as <-. cbn [passed ahead w_filesize w_free].
    cbn [app length]. rewrite ?length_app. cbn [length]. lia.
  - cbn [bind] in H. injection H as <-. cbn [passed ahead w_filesize w_free].
    cbn [app length]. rewrite ?length_app. cbn [length]. lia.
Qed.

Lemma linked_write_loop_counts (fuel : nat) (size offset : Z) : ∀ w w',
  write_loop fuel size offset w = Done w' →
  Z.of_nat (length (passed w' ++ ahead w')) - w_filesize w'
  = Z.of_nat (length (passed w ++ ahead w)) - w_filesize w
  ∧ w_filesize w' + Z.of_nat (length (w_free w'))
    = w_filesize w + Z.of_nat (length (w_free w)).
Proof.
  induction fuel as [|f IH]; intros w w' H; cbn [write_loop] in H.
  - destruct (written w =? size); [by injection H as <-|discriminate].
  - destruct (written w =? size); [by injection H as <-|].
    destruct (write_step offset w) as [w1| | |] eqn:E; try discriminate.
    cbn [bind] in H. apply IH in H. apply linked_write_step_counts in E. lia.
Qed.

Section Counting.
Variable N : nat.

Lemma linked_counted_new : counted N (new N).
Proof.
  split.
  - intros f fp H. unfold new in H. cbn [file_map] in H. by rewrite lookup_empty in H.
  - unfold live_size. cbn [new file_map free_list].
    rewrite total_size_empty, upto_length. lia.
Qed.

Lemma linked_counted_create (s s' : t) (f : string) (k : Z) (r : reply Z) :
  1 ≤ k → counted N s → create f k s = Done (s', r) → counted N s'.
Proof.
  intros Hk [Hs Hc] H. destruct r as [b|e].
  2: { by apply linked_failure_keeps_state in H as ->. }
  destruct (file_map s !! f) eqn:Hf.
  { unfold create in H. rewrite Hf in H. discriminate. }
  apply linked_create_spec in H as (Hlen & ->); [|done..].
  split.
  - intros g gp. cbn [file_map]. rewrite lookup_insert.
    case_decide; [|apply Hs]. intros [= <-]. cbn [start_block filesize].
    rewrite length_take. lia.
  - unfold live_size in *. cbn [file_map free_list].
    rewrite total_size_insert by done. cbn [filesize]. rewrite length_drop. lia.
Qed.

Lemma linked_counted_delete (s s' : t) (f : string) (r : reply unit) :
  counted N s → delete_file f s = Done (s', r) → counted N s'.
Proof.
  intros [Hs Hc] H. unfold delete_file in H.
  destruct (file_map s !! f) as [fp|] eqn:Hf; simplify_eq; [|done].
  split.
  - intros g gp. cbn [file_map]. intros Hg.
    apply lookup_delete_Some in Hg as [_ Hg]. eauto.
  - unfold live_size in *. cbn [file_map free_list].
    rewrite (total_size_delete _ _ f fp) by done.
    rewrite length_app. pose proof (Hs f fp Hf). lia.
Qed.

Lemma linked_counted_write (s s' : t) (f : string) (size offset : Z)
  (r : Z * reply (list Z)) :
  counted N s → write f size offset s = Done (s', r) → counted N s'.
Proof.
  intros [Hs Hc] H. unfold write in H.
  destruct (file_map s !! f) as [fp|] eqn:Hf; [|by simplify_eq].
  destruct ((offset + size >? filesize fp)
            && (to_size_t (offset + size - filesize fp) >? Z.of_nat (length (free_list s))));
    [by simplify_eq|].
  destruct (write_loop _ size offset _) as [w| | |] eqn:E; try discriminate.
  cbn [bind] in H. injection H as <- _.
  apply linked_write_loop_counts in E as [Hchain Hfree].
  cbn [passed ahead w_filesize w_free app] in Hchain, Hfree.
  pose proof (Hs f fp Hf) as Hlen.
  split.
  - intros g gp. cbn [file_map]. rewrite lookup_insert.
    case_decide; [|apply Hs]. intros [= <-]. cbn [start_block filesize]. lia.
  - unfold live_size in *. cbn [file_map free_list].
    rewrite (total_size_update _ _ f fp) by done. cbn [filesize]. lia.
Qed.

Lemma linked_counted_exec_all (cs : list command) : ∀ s s',
  Forall creates_blocks cs → counted N s → exec_all cs s = Done s' → counted N s'.
Proof.
  induction cs as [|c cs IH]; intros s s' Hv Hs H.
  - by injection H as <-.
  - cbn [exec_all] in H. destruct (exec c s) as [s1| | |] eqn:E; try discriminate.
    cbn [bind] in H. inversion Hv as [|? ? Hc Hcs]; subst.
    eapply IH; [done| |exact H].
    destruct c as [f k|f sz off|f sz off|f]; cbn [exec creates_blocks] in E, Hc.
    + destruct (create f k s) as [[s2 r]| | |] eqn:E'; try discriminate.
      cbn [bind] in E. injection E as <-.
      exact (linked_counted_create s s2 f k r Hc Hs E').
    + destruct (read f sz off s); try discriminate. cbn [bind] in E. by injection E as <-.
    + destruct (write f sz off s) as [[s2 r]| | |] eqn:E'; try discriminate.
      cbn [bind] in E. injection E as <-.
      exact (linked_counted_write s s2 f sz off r Hs E').
    + destruct (delete_file f s) as [[s2 r]| | |] eqn:E'; try discriminate.
      cbn [bind] in E. injection E as <-.
      exact (linked_counted_delete s s2 f r Hs E').
Qed.

(** After every sequence of commands that the allocator runs to the end
    and whose creates ask for at least one block, the sizes of the files add
    up to [N] minus the length of the free list. *)
Lemma linked_sizes_are_taken_blocks (cs : list command) (s : t) :
  Forall creates_blocks cs →
  exec_all cs (new N) = Done s →
  live_size s = Z.of_nat N - Z.of_nat (length (free_list s)).
Proof.
  intros Hv H. eapply linked_counted_exec_all; [done|apply linked_counted_new|done].
Qed.
End Counting.

End LinkedFacts.

(** ** IndexedFileSystem *)

Section IndexedFacts.
Import IndexedFileSystem.

Lemma at_index_lookup (v : list Z) (p : nat) (b : Z) :
  v !! p = Some b → at_index v (Z.of_nat p) = Done b.
Proof.
  intros H. unfold at_index.
  pose proof (lookup_lt_Some _ _ _ H) as Hlt.
  destruct (Z.leb_spec 0 (Z.of_nat p)); [|lia].
  destruct (Z.ltb_spec (Z.of_nat p) (Z.of_nat (length v))); [|lia].
  cbn [andb]. rewrite Nat2Z.id, H. reflexivity.
Qed.

(** An access returns only below the length of the table ... *)
Lemma at_index_Done (v : list Z) (i b : Z) :
  at_index v i = Done b → 0 ≤ i < Z.of_nat (length v).
Proof.
  unfold at_index.
  destruct (Z.leb_spec 0 i), (Z.ltb_spec i (Z.of_nat (length v))); cbn [andb];
    (discriminate || lia).
Qed.

(** ... and is undefined from the length on. *)
Lemma at_index_Undefined (v : list Z) (i : Z) :
  Z.of_nat (length v) ≤ i → at_index v i = Undefined.
Proof.
  intros H. unfold at_index.
  destruct (Z.ltb_spec i (Z.of_nat (length v))); [lia|]. by rewrite andb_false_r.
Qed.

(** A turn of the loop of [write] that comes to its end has read the table,
    as it is after the turn, below its length. *)
Lemma indexed_write_step_in_bounds (w w' : wstate) :
  write_step w = Done w' → 0 ≤ bno w < Z.of_nat (length (w_table w')).
Proof.
  unfold write_step. intros H.
  destruct (to_size_t (bno w) >=? Z.of_nat (length (w_table w))).
  - destruct (w_free w) as [|b free]; [discriminate|]. cbn [bind] in H.
    destruct (at_index (w_table w ++ [b]) (bno w)) as [x| | |] eqn:E; try discriminate.
    cbn [bind] in H. injection H as <-. cbn [w_table]. by apply at_index_Done in E.
  - cbn [bind] in H.
    destruct (at_index (w_table w) (bno w)) as [x| | |] eqn:E; try discriminate.
    cbn [bind] in H. injection H as <-. cbn [w_table]. by apply at_index_Done in E.
Qed.

Lemma take_blocks_spec (n : nat) : ∀ table free : list Z,
  (n ≤ length free)%nat →
  take_blocks n table free = Done (table ++ take n free, drop n free).
Proof.
  induction n as [|n IH]; intros table free Hn; simpl.
  - by rewrite take_0, drop_0, app_nil_r.
  - destruct free as [|b free]; [simpl in Hn; lia|].
    rewrite IH by (simpl in Hn; lia).
    simpl. by rewrite <- (assoc_L (++)).
Qed.

(** A successful [create] has [k >= 1] and takes the first [k] blocks of
    the free list, in order, as the table of the file. *)
Lemma indexed_create_spec (s s1 : t) (f : string) (k r : Z) :
  file_map s !! f = None →
  0 ≤ k →
  create f k s = Done (s1, Ok r) →
  (Z.to_nat k ≤ length (free_list s))%nat
  ∧ 1 ≤ k
  ∧ s1 = mk (<[f := mkFile k (take (Z.to_nat k) (free_list s))]> (file_map s))
            (drop (Z.to_nat k) (free_list s))
            (used_memory s + k).
Proof.
  intros Hf Hk H. unfold create in H. rewrite Hf in H.
  rewrite to_size_t_nonneg in H by lia.
  destruct (Z.ltb_spec (Z.of_nat (length (free_list s))) k) as [|Hle]; [discriminate|].
  split; [lia|].
  rewrite take_blocks_spec in H by lia.
  cbn [bind] in H. rewrite app_nil_l in H.
  destruct (at_index (take (Z.to_nat k) (free_list s)) 0) as [b| | |] eqn:E; try discriminate.
  cbn [bind] in H. injection H as <- <-. split; [|done].
  apply at_index_Done in E. rewrite length_take in E. lia.
Qed.

(** [create(f, k); delete_file(f)] moves the first [k] blocks of the free
    list to its back. *)
Lemma indexed_create_delete (s s1 : t) (f : string) (k r : Z) :
  file_map s !! f = None →
  0 ≤ k →
  create f k s = Done (s1, Ok r) →
  ∃ s2, delete_file f s1 = Done (s2, Ok ())
        ∧ free_list s2 = drop (Z.to_nat k) (free_list s) ++ take (Z.to_nat k) (free_list s)
        ∧ file_map s2 = file_map s
        ∧ used_memory s2 = used_memory s.
Proof.
  intros Hf Hk H. apply indexed_create_spec in H as (_ & _ & ->); [|done..].
  unfold delete_file. cbn [file_map]. rewrite lookup_insert_eq.
  eexists. split; [reflexivity|].
  cbn [free_list file_map used_memory block_indices filesize].
  rewrite delete_insert_id by done. repeat split. lia.
Qed.

(** A call that returns with an error message returns the state it got. *)
Lemma indexed_failure_keeps_state (s s' : t) (f : string) (a b n : Z) (e : error) :
  (create f a s = Done (s', Fail e) → s' = s)
  ∧ (write f a b s = Done (s', (n, Fail e)) → s' = s ∧ n = 1)
  ∧ (delete_file f s = Done (s', Fail e) → s' = s).
Proof.
  split; [|split].
  - unfold create. intros H. invert_done; done.
  - unfold write. intros H. invert_done; done.
  - unfold delete_file. intros H. invert_done; done.
Qed.

(** The loop of [write] started inside the table or at its end: every turn
    reads the table below its length, after the table has been extended by
    one block when the position is its length. *)
Lemma indexed_write_loop_spec (n : nat) :
  ∀ (table free : list Z) fsz used (p : nat) wr acc out size,
  (p ≤ length table)%nat →
  (p + n - length table ≤ length free)%nat →
  wr + Z.of_nat n = size →
  write_loop n size (mkW table free fsz used (Z.of_nat p) wr acc out)
  = Done (mkW (table ++ take (p + n - length table) free)
            (drop (p + n - length table) free)
            (fsz + Z.of_nat (p + n - length table))
            (used + Z.of_nat (p + n - length table))
            (Z.of_nat (p + n)) size (acc + Z.of_nat n)
            (out ++ take n (drop p (table ++ take (p + n - length table) free)))).
Proof.
  induction n as [|n IH]; intros table free fsz used p wr acc out size Hp Hfree Hwr.
  - simpl. replace (p + 0 - length table)%nat with 0%nat by lia.
    rewrite take_0, drop_0, !app_nil_r, !Z.add_0_r, Nat.add_0_r.
    f_equal. f_equal. lia.
  - simpl write_loop. cbn [written].
    destruct (Z.ltb_spec wr size); [|lia].
    unfold write_step. cbn [bno w_table w_free w_filesize w_used written w_access w_out].
    rewrite to_size_t_nonneg by lia.
    destruct (Z.geb_spec (Z.of_nat p) (Z.of_nat (length table))) as [Hge|Hlt].
    + assert (p = length table) as -> by lia.
      destruct free as [|b free']; [simpl in Hfree; lia|].
      simpl bind at 2.
      rewrite (at_index_lookup _ _ b) by (rewrite lookup_app_r, Nat.sub_diag by lia; done).
      simpl bind.
      replace (Z.of_nat (length table) + 1) with (Z.of_nat (length (table ++ [b])))
        by (rewrite length_app; simpl; lia).
      rewrite IH; [| lia | rewrite length_app; simpl in *; lia | lia].
      rewrite !length_app. simpl length.
      replace (length table + 1 + n - (length table + 1))%nat with n by lia.
      replace (length table + S n - length table)%nat with (S n) by lia.
      simpl take. simpl drop.
      rewrite <- !(assoc_L (++) table [b]). simpl app.
      f_equal. f_equal; try lia.
      rewrite <- (assoc_L (++) out). f_equal.
      rewrite (drop_S _ b (length table)) by (rewrite lookup_app_r, Nat.sub_diag by lia; done).
      rewrite firstn_cons. simpl. f_equal. f_equal. f_equal. lia.
    + destruct (lookup_lt_is_Some_2 table p ltac:(lia)) as [x Hx].
      simpl bind at 2.
      rewrite (at_index_lookup _ _ x Hx). simpl bind.
      replace (Z.of_nat p + 1) with (Z.of_nat (S p)) by lia.
      rewrite IH; [| lia | lia | lia].
      replace (S p + n - length table)%nat with (p + S n - length table)%nat by lia.
      f_equal. f_equal; try lia.
      rewrite <- (assoc_L (++) out). f_equal.
      rewrite (drop_S _ x p) by (apply lookup_app_l_Some; done).
      rewrite firstn_cons. reflexivity.
Qed.

(** A [write] that starts beyond the end of the file reads the table out
    of bounds at its first turn: one block is appended, and the position is
    still not below the length. *)
Lemma indexed_write_past_end (s : t) (filename : string) (fp : File) (size offset : Z) :
  file_map s !! filename = Some fp →
  Z.of_nat (length (block_indices fp)) = filesize fp →
  filesize fp < offset →
  0 < size →
  offset + size - filesize fp ≤ Z.of_nat (length (free_list s)) →
  write filename size offset s = Undefined.
Proof.
  intros Hf Hlen Hoff Hsize Hfree. unfold write. rewrite Hf.
  assert ((offset + size >? filesize fp)
          && (to_size_t (offset + size - filesize fp) >? Z.of_nat (length (free_list s)))
          = false) as ->.
  { apply andb_false_iff. right.
    rewrite to_size_t_nonneg by lia. rewrite Z.gtb_ltb. apply Z.ltb_ge. lia. }
  destruct (Z.to_nat size) as [|n] eqn:Hn; [lia|].
  simpl write_loop. cbn [written].
  destruct (Z.ltb_spec 0 size); [|lia].
  unfold write_step. cbn [bno w_table w_free w_filesize w_used].
  rewrite to_size_t_nonneg by lia.
  destruct (Z.geb_spec offset (Z.of_nat (length (block_indices fp)))); [|lia].
  destruct (free_list s) as [|b free]; [done|].
  simpl bind at 2. rewrite at_index_Undefined; [done|].
  rewrite length_app. simpl. lia.
Qed.

(** The tables and the sizes of the files. *)
Lemma tables_sized_new (N : nat) : tables_sized (new N).
Proof. intros f fp H. unfold new in H. cbn [file_map] in H. by rewrite lookup_empty in H. Qed.

Lemma tables_sized_insert (s : t) (f : string) (fp : File) (free : list Z) (used : Z) :
  tables_sized s →
  Z.of_nat (length (block_indices fp)) = filesize fp →
  tables_sized (mk (<[f := fp]> (file_map s)) free used).
Proof.
  intros Hs Hfp g gp. cbn [file_map]. rewrite lookup_insert.
  case_decide; [by intros [= <-]|apply Hs].
Qed.

Lemma indexed_create_sized (s s' : t) (f : string) (k : Z) (r : reply Z) :
  tables_sized s → 0 ≤ k → create f k s = Done (s', r) → tables_sized s'.
Proof.
  intros Hs Hk H. destruct r as [b|e].
  - destruct (file_map s !! f) eqn:Hf.
    { unfold create in H. rewrite Hf in H. discriminate. }
    apply indexed_create_spec in H as (Hlen & _ & ->); [|done..].
    apply tables_sized_insert; [done|]. cbn [block_indices filesize].
    rewrite length_take. lia.
  - by apply indexed_failure_keeps_state in H as ->.
Qed.

Lemma indexed_delete_sized (s s' : t) (f : string) (r : reply unit) :
  tables_sized s → delete_file f s = Done (s', r) → tables_sized s'.
Proof.
  intros Hs H. unfold delete_file in H. destruct (file_map s !! f); simplify_eq; [|done].
  intros g gp. cbn [file_map]. intros Hg. apply lookup_delete_Some in Hg as [_ Hg]. eauto.
Qed.

Lemma indexed_write_sized (s s' : t) (f : string) (size offset : Z) (r : Z * reply (list Z)) :
  tables_sized s → 0 ≤ size → 0 ≤ offset →
  write f size offset s = Done (s', r) → tables_sized s'.
Proof.
  intros Hs Hsize Hoff H. destruct r as [n [out|e]].
  2: { by apply indexed_failure_keeps_state in H as [-> _]. }
  destruct (file_map s !! f) as [fp|] eqn:Hf.
  2: { unfold write in H. rewrite Hf in H. discriminate. }
  pose proof (Hs f fp Hf) as Hlen.
  pose proof H as H0. unfold write in H. rewrite Hf in H.
  destruct ((offset + size >? filesize fp)
            && (to_size_t (offset + size - filesize fp) >? Z.of_nat (length (free_list s))))
    eqn:Hguard; [discriminate|].
  assert (offset + size - filesize fp ≤ Z.of_nat (length (free_list s))) as Hfree.
  { apply andb_false_iff in Hguard as [Hg|Hg].
    - rewrite Z.gtb_ltb in Hg. apply Z.ltb_ge in Hg. lia.
    - destruct (decide (offset + size - filesize fp < 0)); [lia|].
      rewrite to_size_t_nonneg in Hg by lia.
      rewrite Z.gtb_ltb in Hg. apply Z.ltb_ge in Hg. lia. }
  destruct (decide (size = 0)) as [->|Hpos].
  { cbn [Z.to_nat write_loop bind w_filesize w_table w_free w_used] in H.
    injection H as <- _ _. by apply tables_sized_insert. }
  destruct (decide (offset ≤ filesize fp)) as [Hin|Hout].
  - replace offset with (Z.of_nat (Z.to_nat offset)) in H at 1 by lia.
    rewrite indexed_write_loop_spec in H; [| lia | lia | lia].
    cbn [bind w_filesize w_table w_free w_used] in H. injection H as <- _ _.
    apply tables_sized_insert; [done|]. cbn [block_indices filesize].
    rewrite length_app, length_take. lia.
  - rewrite (indexed_write_past_end s f fp) in H0; [discriminate|done|done|lia|lia|done].
Qed.

(** The files and the free list. *)
Lemma counted_new (N : nat) : counted N (new N).
Proof.
  split; [apply tables_sized_new|]. unfold live_size; cbn [new file_map free_list].
  rewrite total_size_empty, upto_length. lia.
Qed.

Lemma counted_create (N : nat) (s s' : t) (f : string) (k : Z) (r : reply Z) :
  0 ≤ k → counted N s → create f k s = Done (s', r) → counted N s'.
Proof.
  intros Hk [Hs Hc] H. split; [by eapply indexed_create_sized|].
  destruct r as [b|e].
  - destruct (file_map s !! f) eqn:Hf.
    { unfold create in H. rewrite Hf in H. discriminate. }
    apply indexed_create_spec in H as (Hlen & _ & ->); [|done..].
    unfold live_size in *; cbn [file_map free_list]. rewrite total_size_insert by done.
    cbn [filesize]. rewrite length_drop. lia.
  - by apply indexed_failure_keeps_state in H as ->.
Qed.

Lemma counted_delete (N : nat) (s s' : t) (f : string) (r : reply unit) :
  counted N s → delete_file f s = Done (s', r) → counted N s'.
Proof.
  intros [Hs Hc] H. split; [by eapply indexed_delete_sized|].
  unfold delete_file in H. destruct (file_map s !! f) as [fp|] eqn:Hf; simplify_eq; [|done].
  unfold live_size in *; cbn [file_map free_list]. rewrite (total_size_delete _ _ f fp) by done.
  rewrite length_app. pose proof (Hs f fp Hf). lia.
Qed.

Lemma counted_write (N : nat) (s s' : t) (f : string) (size offset : Z) (r : Z * reply (list Z)) :
  0 ≤ size → 0 ≤ offset →
  counted N s → write f size offset s = Done (s', r) → counted N s'.
Proof.
  intros Hsize Hoff [Hs Hc] H. split; [exact (indexed_write_sized s s' f size offset r Hs Hsize Hoff H)|].
  destruct r as [n [out|e]].
  2: { by apply indexed_failure_keeps_state in H as [-> _]. }
  destruct (file_map s !! f) as [fp|] eqn:Hf.
  2: { unfold write in H. rewrite Hf in H. discriminate. }
  pose proof (Hs f fp Hf) as Hlen.
  pose proof H as H0. unfold write in H. rewrite Hf in H.
  destruct ((offset + size >? filesize fp)
            && (to_size_t (offset + size - filesize fp) >? Z.of_nat (length (free_list s))))
    eqn:Hguard; [discriminate|].
  assert (offset + size - filesize fp ≤ Z.of_nat (length (free_list s))) as Hfree.
  { apply andb_false_iff in Hguard as [Hg|Hg].
    - rewrite Z.gtb_ltb in Hg. apply Z.ltb_ge in Hg. lia.
    - destruct (decide (offset + size - filesize fp < 0)); [lia|].
      rewrite to_size_t_nonneg in Hg by lia.
      rewrite Z.gtb_ltb in Hg. apply Z.ltb_ge in Hg. lia. }
  destruct (decide (size = 0)) as [->|Hpos].
  { cbn [Z.to_nat write_loop bind w_filesize w_table w_free w_used] in H.
    injection H as <- _ _. unfold live_size in *; cbn [file_map free_list].
    rewrite (total_size_update _ _ f fp) by done. cbn [filesize]. lia. }
  destruct (decide (offset ≤ filesize fp)) as [Hin|Hout].
  - replace offset with (Z.of_nat (Z.to_nat offset)) in H at 1 by lia.
    rewrite indexed_write_loop_spec in H; [| lia | lia | lia].
    cbn [bind w_filesize w_table w_free w_used] in H. injection H as <- _ _.
    unfold live_size in *; cbn [file_map free_list]. rewrite (total_size_update _ _ f fp) by done.
    cbn [filesize]. rewrite length_drop. lia.
  - rewrite (indexed_write_past_end s f fp) in H0; [discriminate|done|done|lia|lia|done].
Qed.

Lemma counted_exec_all (N : nat) (cs : list command) : ∀ s s',
  Forall valid cs → counted N s → exec_all cs s = Done s' → counted N s'.
Proof.
  induction cs as [|c cs IH]; intros s s' Hv Hs H.
  - by injection H as <-.
  - cbn [exec_all] in H. destruct (exec c s) as [s1| | |] eqn:E; try discriminate.
    cbn [bind] in H. inversion Hv as [|? ? Hc Hcs]; subst.
    eapply IH; [done| |exact H].
    destruct c as [f k|f sz off|f sz off|f]; cbn [exec valid] in E, Hc.
    + destruct (create f k s) as [[s2 r]| | |] eqn:E'; try discriminate.
      cbn [bind] in E. injection E as <-.
      exact (counted_create N s s2 f k r Hc Hs E').
    + destruct (read f sz off s); try discriminate. cbn [bind] in E. by injection E as <-.
    + destruct (write f sz off s) as [[s2 r]| | |] eqn:E'; try discriminate.
      cbn [bind] in E. injection E as <-. destruct Hc as [Hsz Hoff].
      exact (counted_write N s s2 f sz off r Hsz Hoff Hs E').
    + destruct (delete_file f s) as [[s2 r]| | |] eqn:E'; try discriminate.
      cbn [bind] in E. injection E as <-.
      exact (counted_delete N s s2 f r Hs E').
Qed.

(** After every sequence of commands that the allocator runs to the end,
    the sizes of the files add up to [N] minus the length of the free
    list. *)
Lemma indexed_sizes_are_taken_blocks (N : nat) (cs : list command) (s : t) :
  Forall valid cs →
  exec_all cs (new N) = Done s →
  live_size s = Z.of_nat N - Z.of_nat (length (free_list s)).
Proof.
  intros Hv H. eapply counted_exec_all; [done|apply counted_new|done].
Qed.
End IndexedFacts.

(** * The claims of the specification *)

(** ** Failures and the state (C1) *)


(** ** Sizes of the files and free blocks (C2) *)

(** C2: a [create] of size 0 on the linked allocator takes a block from the
    free list.  On 3 blocks, after [CREATE a 0] the sizes of the files sum
    to 0 and the free list holds 2 blocks, not 3 ([linked_create_zero] has
    it for every state).  Without such a create the sizes do add up, on
    every allocator and after every sequence of lines that is run to its
    end: [contiguous_sizes_are_popcount], [modified_sizes_are_popcount],
    [indexed_sizes_are_taken_blocks], [linked_sizes_are_taken_blocks]. *)
Theorem linked_create_zero_takes_block :
  (let* (s, r) := LinkedFileSystem.create "a" 0 (LinkedFileSystem.new 3) in
   Done (r, LinkedFileSystem.live_size s, LinkedFileSystem.free_list s))
  = Done (Ok 0, 0, [1; 2]).
Proof. vm_compute. reflexivity. Qed.

(** ** Growth in place (C3) *)

(** C3: a [write] of the contiguous allocator that would grow a file over
    the end of the device does not fail with a message: the probing loop
    reads the map beyond its last block.  On 4 blocks with [a] on blocks
    0..3, [write(a, 1, 4)] evaluates [memory_map[4]]
    ([contiguous_write_growth_past_device] has it for every such state;
    inside the device the write does what the claim says, see
    [contiguous_write_growth_in_range]). *)
Theorem contiguous_write_probes_past_device :
  (let* s := Scenario.one_file 4 FIRST_FIT in
   ContiguousFileSystem.write 4 "a" 1 4 s) = Undefined.
Proof. vm_compute. reflexivity. Qed.

(** ** The hole searches (C4, C5, C6) *)

(** C4: among holes of the same smallest sufficient length best fit returns
    the last one, not the first.  With blocks 0, 1 and 3, 4 free on a
    device of 8 blocks, [best_fit 2] returns 3: the test
    [j - i <= min_size] replaces the hole found first by a later hole of
    the same length ([best_fit_spec] has the result for every map: a hole
    of the smallest sufficient length, and the last of them). *)
Theorem best_fit_tie_takes_last_hole :
  (let* s := Scenario.equal_holes in
   let* r := ContiguousFileSystem.best_fit 8 s 2 in
   Done (ContiguousFileSystem.memory_map s, r))
  = Done ([false; false; true; false; false; true; true; true], 3).
Proof. vm_compute. reflexivity. Qed.

(** The scenario of the specification: after [CREATE a 4; CREATE b 4;
    DELETE_FILE a] on 10 blocks, first fit places [c] at block 0. *)
Lemma first_fit_reuses_freed_run :
  Scenario.reuse_freed_run FIRST_FIT = Done (Ok 0).
Proof. vm_compute. reflexivity. Qed.

(** C5: first fit does not find every hole, and reports that there is none
    when there is one.  With blocks 2, 3 and 5, 6, 7 free on a device of 8
    blocks, the run [5, 8) has length 3 and [first_fit 3] returns -1: after
    the hole at 2, of length 2, the scan goes on at [i + j = 2 + 4 = 6]
    instead of [j = 4], finds the two blocks 6 and 7, and gives up; [CREATE
    d 3] fails. *)
Theorem first_fit_misses_hole :
  (let* s := Scenario.two_holes in
   let* r := ContiguousFileSystem.first_fit 8 s 3 in
   Done (ContiguousFileSystem.memory_map s, r))
  = Done ([true; true; false; false; true; false; false; false], -1)
  ∧ (let* s := Scenario.two_holes in
     let* (_, r) := ContiguousFileSystem.create 8 "d" 3 s in Done r)
    = Done (Fail OutOfSpace).
Proof. split; vm_compute; reflexivity. Qed.

(** C6: the cursor of next fit after an allocation at [i] is
    [(2 * i + size) % N], not [i + size].  After [CREATE a 4; CREATE b 4]
    on 10 blocks, the cursor is 4 when [b] is created, [b] starts at block
    4, and the cursor is then [(8 + 4) % 10 = 2], not 8
    ([next_fit_loop_cursor] has the formula for every state). *)
Theorem next_fit_cursor_after_allocation :
  (let* s1 := Scenario.one_file 10 NEXT_FIT in
   let* (s2, r) := ContiguousFileSystem.create 10 "b" 4 s1 in
   Done (ContiguousFileSystem.start_index s1, r, ContiguousFileSystem.start_index s2))
  = Done (4, Ok 4, 2).
Proof. vm_compute. reflexivity. Qed.

(** ** Access counts (C7, C8) *)

(** C7: [read] of the contiguous allocator returns [size + 1], not the
    [block_access] it has counted.  On a file of 4 blocks, [read(a, 2, 1)]
    visits the positions 0, 1, 2, counts [block_access = 4] and prints the
    blocks 1 and 2; the call returns 3 ([contiguous_read_spec] and
    [read_loop_spec] have both numbers, and the blocks printed, for every
    file). *)
Theorem contiguous_read_returns_size_plus_one :
  (let* s := Scenario.one_file 10 FIRST_FIT in
   ContiguousFileSystem.read "a" 2 1 s) = Done (3, Ok [1; 2])
  ∧ ContiguousFileSystem.read_loop 4 (ContiguousFileSystem.mkFile 4 0) 2 1 0 0 1 []
    = (2, 4, [1; 2]).
Proof. split; vm_compute; reflexivity. Qed.

(** C8: [write] of the modified contiguous allocator returns 0, not 1, for
    a name that is not registered. *)
Theorem modified_write_not_found_returns_zero :
  (let* (_, r) := ModifiedContiguousFileSystem.write 4 "x" 1 0
                    (ModifiedContiguousFileSystem.new 4 FIRST_FIT) in
   Done r) = Done (0, Fail NotFound).
Proof. vm_compute. reflexivity. Qed.

(** The state [Scenario.indexed_two_blocks] is the one [CREATE a 2] leaves
    on 5 blocks. *)
Lemma indexed_two_blocks_reached :
  IndexedFileSystem.create "a" 2 (IndexedFileSystem.new 5)
  = Done (Scenario.indexed_two_blocks, Ok 0).
Proof. vm_compute. reflexivity. Qed.

(** A call that does its work returns 1 when it is asked for 0 blocks. *)
Lemma zero_blocks_return_one :
  (let* s := Scenario.one_file 10 FIRST_FIT in
   ContiguousFileSystem.read "a" 0 0 s) = Done (1, Ok [])
  ∧ (let* s := Scenario.one_file 10 FIRST_FIT in
     let* (_, r) := ContiguousFileSystem.write 10 "a" 0 0 s in Done r) = Done (1, Ok [])
  ∧ LinkedFileSystem.read "a" 0 0 (LinkedFileSystem.mk [] {["a" :=
       LinkedFileSystem.mkFile 1 [0]]} 1) = Done (1, Ok [])
  ∧ IndexedFileSystem.read "a" 0 0 Scenario.indexed_two_blocks = Done (1, Ok []).
Proof. repeat split; vm_compute; reflexivity. Qed.

(** ** Create followed by delete (C9) *)

(** C9, as the claim has it, fails on the linked allocator: on 3 blocks,
    [CREATE a 1; DELETE_FILE a] leaves the free list [1; 2; 0], and it was
    [0; 1; 2]. *)
Lemma linked_round_trip_reorders_free_list :
  ∃ s1 r s2,
    LinkedFileSystem.file_map (LinkedFileSystem.new 3) !! "a" = None
    ∧ LinkedFileSystem.create "a" 1 (LinkedFileSystem.new 3) = Done (s1, Ok r)
    ∧ LinkedFileSystem.delete_file "a" s1 = Done (s2, Ok ())
    ∧ LinkedFileSystem.free_list s2 ≠ LinkedFileSystem.free_list (LinkedFileSystem.new 3).
Proof.
  eexists _, _, _. split; [reflexivity|].
  split; [vm_compute; reflexivity|].
  split; [vm_compute; reflexivity|].
  vm_compute. discriminate.
Qed.

(** C9, amended: for a name [f] that is not registered and a [create(f, k)]
    that succeeds, [create(f, k); delete_file(f)] gives back
    - the block map, bit for bit, on the contiguous and the modified
      contiguous allocator, whatever the search strategy (and the registry
      and the counter of used blocks with it);
    - on the linked ([k >= 1]) and the indexed allocator, the blocks of the
      free list, but not their order: the [k] blocks taken from the front
      are put at the back. *)
Theorem create_delete_round_trip :
  (∀ (N : nat) (s s1 : ContiguousFileSystem.t) (f : string) (k r : Z),
     ContiguousFileSystem.file_map s !! f = None →
     ContiguousFileSystem.create N f k s = Done (s1, Ok r) →
     ∃ s2, ContiguousFileSystem.delete_file N f s1 = Done (s2, Ok ())
           ∧ ContiguousFileSystem.memory_map s2 = ContiguousFileSystem.memory_map s
           ∧ ContiguousFileSystem.file_map s2 = ContiguousFileSystem.file_map s
           ∧ ContiguousFileSystem.used_memory s2 = ContiguousFileSystem.used_memory s)
  ∧ (∀ (N : nat) (s s1 : ModifiedContiguousFileSystem.t) (f : string) (k r : Z),
       ModifiedContiguousFileSystem.file_map s !! f = None →
       ModifiedContiguousFileSystem.create N f k s = Done (s1, Ok r) →
       ∃ s2, ModifiedContiguousFileSystem.delete_file N f s1 = Done (s2, Ok ())
             ∧ ModifiedContiguousFileSystem.memory_map s2
               = ModifiedContiguousFileSystem.memory_map s
             ∧ ModifiedContiguousFileSystem.file_map s2
               = ModifiedContiguousFileSystem.file_map s
             ∧ ModifiedContiguousFileSystem.used_memory s2
               = ModifiedContiguousFileSystem.used_memory s)
  ∧ (∀ (s s1 : LinkedFileSystem.t) (f : string) (k r : Z),
       LinkedFileSystem.file_map s !! f = None →
       1 ≤ k →
       LinkedFileSystem.create f k s = Done (s1, Ok r) →
       ∃ s2, LinkedFileSystem.delete_file f s1 = Done (s2, Ok ())
             ∧ LinkedFileSystem.free_list s2
               = drop (Z.to_nat k) (LinkedFileSystem.free_list s)
                 ++ take (Z.to_nat k) (LinkedFileSystem.free_list s)
             ∧ LinkedFileSystem.file_map s2 = LinkedFileSystem.file_map s
             ∧ LinkedFileSystem.used_memory s2 = LinkedFileSystem.used_memory s)
  ∧ (∀ (s s1 : IndexedFileSystem.t) (f : string) (k r : Z),
       IndexedFileSystem.file_map s !! f = None →
       0 ≤ k →
       IndexedFileSystem.create f k s = Done (s1, Ok r) →
       ∃ s2, IndexedFileSystem.delete_file f s1 = Done (s2, Ok ())
             ∧ IndexedFileSystem.free_list s2
               = drop (Z.to_nat k) (IndexedFileSystem.free_list s)
                 ++ take (Z.to_nat k) (IndexedFileSystem.free_list s)
             ∧ IndexedFileSystem.file_map s2 = IndexedFileSystem.file_map s
             ∧ IndexedFileSystem.used_memory s2 = IndexedFileSystem.used_memory s).
Proof.
  split; [|split; [|split]].
  - exact contiguous_create_delete.
  - exact modified_create_delete.
  - exact linked_create_delete.
  - exact indexed_create_delete.
Qed.

(** The round trip on devices of 10 and 5 blocks. *)
Lemma create_delete_round_trip_witness :
  (∃ s1 r s2,
     ContiguousFileSystem.create 10 "a" 4 (ContiguousFileSystem.new 10 NEXT_FIT)
     = Done (s1, Ok r)
     ∧ ContiguousFileSystem.delete_file 10 "a" s1 = Done (s2, Ok ())
     ∧ ContiguousFileSystem.memory_map s2 = replicate 10 false)
  ∧ (∃ s1 r s2,
       ModifiedContiguousFileSystem.create 10 "a" 4
         (ModifiedContiguousFileSystem.new 10 WORST_FIT) = Done (s1, Ok r)
       ∧ ModifiedContiguousFileSystem.delete_file 10 "a" s1 = Done (s2, Ok ())
       ∧ ModifiedContiguousFileSystem.memory_map s2 = replicate 10 false)
  ∧ (∃ s1 r s2,
       LinkedFileSystem.create "a" 2 (LinkedFileSystem.new 5) = Done (s1, Ok r)
       ∧ LinkedFileSystem.delete_file "a" s1 = Done (s2, Ok ())
       ∧ LinkedFileSystem.free_list s2 = [2; 3; 4; 0; 1])
  ∧ (∃ s1 r s2,
       IndexedFileSystem.create "a" 2 (IndexedFileSystem.new 5) = Done (s1, Ok r)
       ∧ IndexedFileSystem.delete_file "a" s1 = Done (s2, Ok ())
       ∧ IndexedFileSystem.free_list s2 = [2; 3; 4; 0; 1]).
Proof.
  destruct create_delete_round_trip as (Hc & Hm & Hl & Hi).
  split; [|split; [|split]].
  - eassert (ContiguousFileSystem.create 10 "a" 4 (ContiguousFileSystem.new 10 NEXT_FIT)
             = Done (_, Ok _)) as Hcreate by (vm_compute; reflexivity).
    destruct (Hc 10%nat (ContiguousFileSystem.new 10 NEXT_FIT) _ "a" 4 _ eq_refl Hcreate) as (s2 & Hd & Hmap & _).
    eexists _, _, s2. split; [exact Hcreate|]. split; [exact Hd|exact Hmap].
  - eassert (ModifiedContiguousFileSystem.create 10 "a" 4
               (ModifiedContiguousFileSystem.new 10 WORST_FIT)
             = Done (_, Ok _)) as Hcreate by (vm_compute; reflexivity).
    destruct (Hm 10%nat (ModifiedContiguousFileSystem.new 10 WORST_FIT) _ "a" 4 _ eq_refl
                Hcreate) as (s2 & Hd & Hmap & _).
    eexists _, _, s2. split; [exact Hcreate|]. split; [exact Hd|exact Hmap].
  - eassert (LinkedFileSystem.create "a" 2 (LinkedFileSystem.new 5)
             = Done (_, Ok _)) as Hcreate by (vm_compute; reflexivity).
    destruct (Hl (LinkedFileSystem.new 5) _ "a" 2 _ eq_refl ltac:(lia) Hcreate) as (s2 & Hd & Hfree & _).
    eexists _, _, s2. split; [exact Hcreate|]. split; [exact Hd|exact Hfree].
  - eassert (IndexedFileSystem.create "a" 2 (IndexedFileSystem.new 5)
             = Done (_, Ok _)) as Hcreate by (vm_compute; reflexivity).
    destruct (Hi (IndexedFileSystem.new 5) _ "a" 2 _ eq_refl ltac:(lia) Hcreate) as (s2 & Hd & Hfree & _).
    eexists _, _, s2. split; [exact Hcreate|]. split; [exact Hd|exact Hfree].
Defined.

(** ** The index table during a write (C10) *)



(** * Further properties of the code

    What the operations do beyond the claims above: the searches on
    particular devices, the states an allocator reaches from its
    constructor, the reads and writes of the queue allocators, the runs of
    the modified contiguous allocator, and the driver. *)

(** ** Lists of block numbers *)

Lemma elem_of_upto (n : nat) : ∀ a x, x ∈ upto n a ↔ a ≤ x < a + Z.of_nat n.
Proof.
  induction n as [|n IH]; intros a x; cbn [upto].
  - rewrite elem_of_nil. lia.
  - rewrite elem_of_cons, IH. lia.
Qed.

Lemma NoDup_upto (n : nat) : ∀ a, NoDup (upto n a).
Proof.
  induction n as [|n IH]; intros a; cbn [upto]; constructor; [|apply IH].
  rewrite elem_of_upto. lia.
Qed.

Lemma take_min_length {A : Type} (l : list A) (n k : nat) :
  k = (n `min` length l)%nat → take k l = take n l.
Proof. intros ->. by rewrite <- take_take, (take_ge l (length l)). Qed.

(** The query file of [Workload] asks for no negative size or offset. *)
Lemma workload_valid : Forall valid Workload.queries.
Proof. repeat (apply Forall_cons; [cbn; lia|]). apply Forall_nil. Qed.

(** ** ContiguousFileSystem: the searches on particular devices *)

Section SearchFacts.
Import ContiguousFileSystem.
Variable N : nat.

(** [first_fit] with a negative size at a free block 0: the inner loop
    stops at once with [j = i = 0], [j == i + size] fails, and [i += j]
    leaves [i] at 0. *)
Lemma first_fit_loop_negative (m : list bool) (size : Z) (fuel : nat) :
  size < 0 → bs_test N m 0 = Done false →
  first_fit_loop N fuel m size 0 = Timeout.
Proof.
  intros Hsize Hb. pose proof (bs_test_bounds N _ _ _ Hb) as Hn.
  induction fuel as [|f IH]; [done|].
  cbn [first_fit_loop]. unfold memory_size.
  rewrite (proj2 (Z.ltb_lt 0 (Z.of_nat N))) by lia.
  rewrite Hb. cbn [bind negb hole_scan].
  rewrite (proj2 (Z.ltb_ge 0 (0 + size))), andb_false_r by lia.
  cbn [bind]. rewrite (proj2 (Z.eqb_neq 0 (0 + size))) by lia.
  exact IH.
Qed.






End SearchFacts.

(** ** ContiguousFileSystem: the states the allocator reaches *)

Section ReachedFacts.
Import ContiguousFileSystem.
Variable N : nat.

(** [used_memory] follows the sizes of the files. *)
Lemma used_memory_exec (c : command) (s s' : t) :
  used_memory s = live_size s → exec N c s = Done s' → used_memory s' = live_size s'.
Proof.
  intros Hu H. unfold live_size in *. destruct c as [f k|f sz off|f sz off|f]; cbn [exec] in H.
  - unfold create in H. destruct (file_map s !! f) eqn:Hf.
    { cbn [bind] in H. by injection H as <-. }
    destruct (get_index N s k) as [[st cur]| | |]; try discriminate. cbn [bind] in H.
    destruct (st =? -1). { cbn [bind] in H. by injection H as <-. }
    cbn [memory_map file_map used_memory strategy] in H.
    destruct (assign_run N true (memory_map s) st k); try discriminate.
    cbn [bind] in H. injection H as <-. cbn [used_memory file_map].
    rewrite total_size_insert by done. cbn [filesize]. lia.
  - destruct (read f sz off s); try discriminate. cbn [bind] in H. by injection H as <-.
  - unfold write in H. destruct (file_map s !! f) as [fp|] eqn:Hf.
    2: { cbn [bind] in H. by injection H as <-. }
    destruct (sz + off >? filesize fp).
    2: { cbn [bind] in H. by injection H as <-. }
    destruct (probe N _ _ _ _) as [av| | |]; try discriminate. cbn [bind] in H.
    destruct (negb _). { cbn [bind] in H. by injection H as <-. }
    destruct (assign_loop N _ _ _ _ _); try discriminate.
    cbn [bind] in H. injection H as <-. cbn [used_memory file_map].
    rewrite (total_size_update _ _ f fp) by done. cbn [filesize]. lia.
  - unfold delete_file in H. destruct (file_map s !! f) as [fp|] eqn:Hf.
    2: { cbn [bind] in H. by injection H as <-. }
    destruct (assign_run N _ _ _ _); try discriminate.
    cbn [bind] in H. injection H as <-. cbn [used_memory file_map].
    rewrite (total_size_delete _ _ f fp) by done. lia.
Qed.

Lemma used_memory_exec_all (cs : list command) : ∀ s s',
  used_memory s = live_size s → exec_all N cs s = Done s' → used_memory s' = live_size s'.
Proof.
  induction cs as [|c cs IH]; intros s s' Hu H.
  - by injection H as <-.
  - cbn [exec_all] in H. destruct (exec N c s) as [s1| | |] eqn:E; try discriminate.
    cbn [bind] in H. eapply IH; [|exact H]. by eapply used_memory_exec.
Qed.

Lemma popcount_bounds (m : list bool) : 0 ≤ popcount m ≤ Z.of_nat (length m).
Proof.
  unfold popcount. pose proof (length_filter (λ b : bool, b = true) m). lia.
Qed.

(** The cursor of next-fit stays on the device. *)

Lemma next_fit_loop_on_device (fuel : nat) (m : list bool) (size cursor : Z) :
  ∀ i count r cur,
  on_device N cursor → 0 ≤ i →
  next_fit_loop N fuel m size cursor i count = Done (r, cur) → on_device N cur.
Proof.
  induction fuel as [|f IH]; intros i count r cur Hc Hi H; [discriminate|].
  cbn [next_fit_loop] in H. unfold memory_size in *.
  destruct (count <? Z.of_nat N); [|by injection H as <- <-].
  destruct (bs_test N m i) as [b| | |] eqn:Hb; try discriminate. cbn [bind] in H.
  pose proof (bs_test_bounds N _ _ _ Hb).
  destruct b; cbn [negb] in H.
  { eapply IH; [done| |exact H]. apply Z.rem_nonneg; lia. }
  destruct (hole_scan N (S N) m _ i) as [j| | |] eqn:Hj; try discriminate. cbn [bind] in H.
  apply hole_scan_free in Hj as [Hij _].
  destruct (j =? i + size).
  - injection H as <- <-. split; [apply Z.rem_nonneg; lia|].
    left. apply Z.rem_bound_pos; lia.
  - eapply IH; [done| |exact H]. apply Z.rem_nonneg; lia.
Qed.

Lemma get_index_on_device (s : t) (size r cur : Z) :
  on_device N (start_index s) → get_index N s size = Done (r, cur) → on_device N cur.
Proof.
  intros Hc H. unfold get_index, next_fit in H. destruct (strategy s).
  - step H. by injection H as _ <-.
  - step H. by injection H as _ <-.
  - eapply next_fit_loop_on_device; [exact Hc| |exact H]. apply Hc.
  - step H. by injection H as _ <-.
Qed.

Lemma on_device_exec (c : command) (s s' : t) :
  on_device N (start_index s) → exec N c s = Done s' → on_device N (start_index s').
Proof.
  intros Hc H. destruct c as [f k|f sz off|f sz off|f]; cbn [exec] in H.
  - unfold create in H. destruct (file_map s !! f) eqn:Hf.
    { cbn [bind] in H. by injection H as <-. }
    destruct (get_index N s k) as [[st cur]| | |] eqn:Hg; try discriminate. cbn [bind] in H.
    apply get_index_on_device in Hg; [|done].
    destruct (st =? -1). { cbn [bind] in H. by injection H as <-. }
    cbn [memory_map file_map used_memory strategy] in H.
    destruct (assign_run N true (memory_map s) st k); try discriminate.
    cbn [bind] in H. by injection H as <-.
  - destruct (read f sz off s); try discriminate. cbn [bind] in H. by injection H as <-.
  - unfold write in H. destruct (file_map s !! f) as [fp|] eqn:Hf.
    2: { cbn [bind] in H. by injection H as <-. }
    destruct (sz + off >? filesize fp).
    2: { cbn [bind] in H. by injection H as <-. }
    destruct (probe N _ _ _ _) as [av| | |]; try discriminate. cbn [bind] in H.
    destruct (negb _). { cbn [bind] in H. by injection H as <-. }
    destruct (assign_loop N _ _ _ _ _); try discriminate.
    cbn [bind] in H. by injection H as <-.
  - unfold delete_file in H. destruct (file_map s !! f) as [fp|] eqn:Hf.
    2: { cbn [bind] in H. by injection H as <-. }
    destruct (assign_run N _ _ _ _); try discriminate.
    cbn [bind] in H. by injection H as <-.
Qed.

Lemma on_device_exec_all (cs : list command) : ∀ s s',
  on_device N (start_index s) → exec_all N cs s = Done s' → on_device N (start_index s').
Proof.
  induction cs as [|c cs IH]; intros s s' Hu H.
  - by injection H as <-.
  - cbn [exec_all] in H. destruct (exec N c s) as [s1| | |] eqn:E; try discriminate.
    cbn [bind] in H. eapply IH; [|exact H]. by eapply on_device_exec.
Qed.

Lemma get_index_returns_on_device (s : t) (size : Z) :
  length (memory_map s) = N → 0 ≤ size → on_device N (start_index s) →
  ∃ r cur, get_index N s size = Done (r, cur).
Proof.
  intros Hlen Hsize [Hc0 [Hc|HN]].
  - apply get_index_total; [done|done|]. intros _. lia.
  - unfold get_index, first_fit, best_fit, worst_fit, next_fit.
    rewrite HN. destruct (strategy s); cbn; by eexists _, _.
Qed.


Lemma contiguous_reachable (alg : Strategy) (cs : list command) (s : t) :
  Forall valid cs → exec_all N cs (new N alg) = Done s →
  consistent N s ∧ used_memory s = live_size s ∧ on_device N (start_index s).
Proof.
  intros Hv H. split; [|split].
  - eapply consistent_exec_all; [done|apply consistent_new|done].
  - eapply used_memory_exec_all; [|exact H]. unfold live_size. cbn. by rewrite total_size_empty.
  - eapply on_device_exec_all; [|exact H]. cbn. unfold on_device. lia.
Qed.
End ReachedFacts.

(** ** ContiguousFileSystem: the theorems *)

Section ContiguousTheorems.
Import ContiguousFileSystem.



(** X2: in every state the allocator reaches from its constructor by
    queries without negative numbers, a search for a size that is not
    negative returns: the loops of the four strategies end, and no block
    outside the device is read. *)
Theorem hole_search_terminates (N : nat) (alg : Strategy) (cs : list command) (s : t)
  (size : Z) :
  Forall valid cs → exec_all N cs (new N alg) = Done s → 0 ≤ size →
  ∃ start cur, get_index N s size = Done (start, cur).
Proof.
  intros Hv H Hsize.
  destruct (contiguous_reachable N alg cs s Hv H) as ([Hlen _ _ _] & _ & Hcur).
  by apply get_index_returns_on_device.
Qed.

Lemma hole_search_terminates_witness :
  ∃ s, exec_all 8 Workload.queries (new 8 NEXT_FIT) = Done s
       ∧ ∃ start cur, get_index 8 s 5 = Done (start, cur).
Proof.
  eexists. split; [vm_compute; reflexivity|].
  apply (hole_search_terminates 8 NEXT_FIT Workload.queries _ 5);
    [exact workload_valid|vm_compute; reflexivity|lia].
Defined.

(** X3: [first_fit] called with a negative size on a device whose block 0
    is free does not return: every bound given to its loop is used up. *)
Theorem first_fit_negative_size_never_returns (N : nat) (s : t) (size : Z) (fuel : nat) :
  size < 0 → bs_test N (memory_map s) 0 = Done false →
  first_fit_loop N fuel (memory_map s) size 0 = Timeout.
Proof. apply first_fit_loop_negative. Qed.

Lemma first_fit_negative_size_never_returns_witness :
  first_fit_loop 4 1000 (memory_map (new 4 FIRST_FIT)) (-1) 0 = Timeout.
Proof.
  apply (first_fit_negative_size_never_returns 4 (new 4 FIRST_FIT) (-1) 1000);
    [lia|reflexivity].
Defined.











(** X9: in every state the allocator reaches, the map has [N] bits, the
    blocks of every file are on the device and marked used, and no block
    belongs to two files. *)
Theorem contiguous_files_never_overlap (N : nat) (alg : Strategy) (cs : list command) (s : t) :
  Forall valid cs → exec_all N cs (new N alg) = Done s →
  length (memory_map s) = N
  ∧ (∀ f fp p, file_map s !! f = Some fp → in_file fp p →
       bs_test N (memory_map s) p = Done true)
  ∧ (∀ f g fp gp p, f ≠ g → file_map s !! f = Some fp → file_map s !! g = Some gp →
       in_file fp p → ¬ in_file gp p).
Proof.
  intros Hv H.
  destruct (contiguous_reachable N alg cs s Hv H) as ([Hlen Hown Hdis _] & _ & _).
  split; [done|]. split; [|done]. intros f fp p Hf Hp. by eapply Hown.
Qed.

Lemma contiguous_files_never_overlap_witness :
  ∃ s, exec_all 8 Workload.queries (new 8 FIRST_FIT) = Done s
       ∧ length (memory_map s) = 8%nat
       ∧ (∀ f fp p, file_map s !! f = Some fp → in_file fp p →
            bs_test 8 (memory_map s) p = Done true)
       ∧ (∀ f g fp gp p, f ≠ g → file_map s !! f = Some fp → file_map s !! g = Some gp →
            in_file fp p → ¬ in_file gp p).
Proof.
  eexists. split; [vm_compute; reflexivity|].
  apply (contiguous_files_never_overlap 8 FIRST_FIT Workload.queries);
    [exact workload_valid|vm_compute; reflexivity].
Defined.





End ContiguousTheorems.

(** ** The registry as a list of blocks *)

Section RegistryBlocks.
Context {A : Type} (h : string * A → list Z).

Lemma registry_blocks_insert (m : gmap string A) (f : string) (x : A) :
  m !! f = None →
  map_to_list (<[f := x]> m) ≫= h ≡ₚ h (f, x) ++ (map_to_list m ≫= h).
Proof. intros Hf. by rewrite map_to_list_insert. Qed.

Lemma registry_blocks_delete (m : gmap string A) (f : string) (x : A) :
  m !! f = Some x →
  map_to_list m ≫= h ≡ₚ h (f, x) ++ (map_to_list (delete f m) ≫= h).
Proof. intros Hf. by rewrite <- (map_to_list_delete m f x Hf). Qed.

Lemma registry_blocks_update (m : gmap string A) (f : string) (x y : A) :
  m !! f = Some x →
  map_to_list (<[f := y]> m) ≫= h ≡ₚ h (f, y) ++ (map_to_list (delete f m) ≫= h).
Proof.
  intros Hf. rewrite <- insert_delete_eq. apply registry_blocks_insert, lookup_delete_eq.
Qed.
End RegistryBlocks.

(** ** LinkedFileSystem: the loops *)

Section LinkedLoops.
Import LinkedFileSystem.

(** The loop of [read] before the offset and from it on. *)
Lemma linked_read_loop_skip (size offset : Z) (n : nat) : ∀ chain bno acc out,
  0 < size → (n ≤ length chain)%nat → bno + Z.of_nat n ≤ offset →
  read_loop chain size offset bno 0 acc out
  = read_loop (drop n chain) size offset (bno + Z.of_nat n) 0 (acc + Z.of_nat n) out.
Proof.
  induction n as [|n IH]; intros chain bno acc out Hsize Hn Hoff.
  - by rewrite drop_0, !Z.add_0_r.
  - destruct chain as [|b rest]; [cbn in Hn; lia|]. cbn [read_loop drop].
    rewrite (proj2 (Z.ltb_lt 0 size)) by done.
    rewrite Z.geb_leb, (proj2 (Z.leb_gt offset bno)) by lia.
    rewrite IH by (cbn in Hn; lia). f_equal; lia.
Qed.

Lemma linked_read_loop_take (size offset : Z) (n : nat) : ∀ chain bno rd acc out,
  offset ≤ bno → Z.of_nat n = Z.min (size - rd) (Z.of_nat (length chain)) →
  read_loop chain size offset bno rd acc out
  = (rd + Z.of_nat n, acc + Z.of_nat n, out ++ take n chain).
Proof.
  induction n as [|n IH]; intros chain bno rd acc out Hoff Hn.
  - rewrite take_0, app_nil_r, !Z.add_0_r. destruct chain as [|b rest]; [done|].
    cbn [read_loop]. cbn [length] in Hn. by rewrite (proj2 (Z.ltb_ge rd size)) by lia.
  - destruct chain as [|b rest]; [cbn in Hn; lia|]. cbn [read_loop take]. cbn [length] in Hn.
    rewrite (proj2 (Z.ltb_lt rd size)) by lia.
    rewrite Z.geb_leb, (proj2 (Z.leb_le offset bno)) by lia.
    rewrite IH by lia. rewrite <- app_assoc. f_equal. f_equal; lia.
Qed.
(** The state of the loop of [write] after [t] turns, on the chain [c] with
    the free list [fr]. *)
Lemma linked_write_loop_spec (c fr : list Z) (fsz used acc size : Z) (o T : nat) :
  c ≠ [] → 0 < size → Z.of_nat T = Z.of_nat o + size → (T - length c ≤ length fr)%nat →
  ∀ (n t : nat), (t + n = T)%nat →
  write_loop n size (Z.of_nat o)
    (mkW (take t (c ++ fr)) (drop t c) (drop (t - length c) fr)
       (fsz + Z.of_nat (t - length c)) (used + Z.of_nat (t - length c))
       (Z.of_nat t) (Z.of_nat (t - o)) (acc + Z.of_nat t)
       (take (t - o) (drop o (c ++ fr))))
  = Done (mkW (take T (c ++ fr)) (drop T c) (drop (T - length c) fr)
            (fsz + Z.of_nat (T - length c)) (used + Z.of_nat (T - length c))
            (Z.of_nat T) size (acc + Z.of_nat T)
            (take (T - o) (drop o (c ++ fr)))).
Proof.
  intros Hc Hsize HT Hfree. induction n as [|n IH]; intros t Ht.
  - replace t with T by lia. cbn [write_loop written].
    rewrite (proj2 (Z.eqb_eq _ _)) by lia. do 2 f_equal. lia.
  - cbn [write_loop written]. rewrite (proj2 (Z.eqb_neq _ _)) by lia.
    rewrite <- (IH (S t)) by lia.
    assert (∃ x, (c ++ fr) !! t = Some x) as [x Hx].
    { apply lookup_lt_is_Some_2. rewrite length_app. lia. }
    assert ((o ≤ t)%nat →
            take (S (t - o)) (drop o (c ++ fr)) = take (t - o) (drop o (c ++ fr)) ++ [x])
      as Hout_hit.
    { intros Hot. apply take_S_r. rewrite lookup_drop.
      by replace (o + (t - o))%nat with t by lia. }
    unfold write_step. cbn [ahead passed w_free w_filesize w_used bno written w_access w_out].
    destruct (decide (t < length c)%nat) as [Hlt|Hge].
    + rewrite lookup_app_l in Hx by done. rewrite (drop_S c x t Hx). cbn [bind].
      rewrite (take_S_r (c ++ fr) t x) by (by rewrite lookup_app_l).
      replace (S t - length c)%nat with (t - length c)%nat by lia.
      rewrite Z.geb_leb.
      destruct (Z.leb_spec (Z.of_nat o) (Z.of_nat t)).
      * replace (S t - o)%nat with (S (t - o)) by lia. rewrite Hout_hit by lia.
        do 2 f_equal; lia.
      * replace (S t - o)%nat with (t - o)%nat by lia. do 2 f_equal; lia.
    + rewrite lookup_app_r in Hx by lia. rewrite (drop_ge c t) by lia.
      rewrite (drop_S fr x (t - length c) Hx).
      destruct (take t (c ++ fr)) as [|y l] eqn:Htake.
      { apply (f_equal length) in Htake. rewrite length_take, length_app in Htake.
        destruct c; [done|]. cbn [length] in *. lia. }
      cbn [bind]. rewrite <- Htake.
      rewrite (take_S_r (c ++ fr) t x) by (rewrite lookup_app_r by lia; done).
      rewrite (drop_ge c (S t)) by lia.
      replace (S t - length c)%nat with (S (t - length c))%nat by lia.
      rewrite Z.geb_leb.
      destruct (Z.leb_spec (Z.of_nat o) (Z.of_nat t)).
      * replace (S t - o)%nat with (S (t - o)) by lia. rewrite Hout_hit by lia.
        do 2 f_equal; lia.
      * replace (S t - o)%nat with (t - o)%nat by lia. do 2 f_equal; lia.
Qed.
Lemma link_blocks (n : nat) : ∀ chain free c' f',
  link n chain free = Done (c', f') → c' ++ f' = chain ++ free.
Proof.
  induction n as [|n IH]; intros chain free c' f' H; cbn [link] in H.
  - by injection H as <- <-.
  - destruct free as [|b free]; [discriminate|]. apply IH in H. by rewrite H, <- app_assoc.
Qed.

Lemma linked_write_step_blocks (offset : Z) (w w' : wstate) :
  write_step offset w = Done w' →
  passed w' ++ ahead w' ++ w_free w' = passed w ++ ahead w ++ w_free w.
Proof.
  unfold write_step. intros H. destruct (ahead w) as [|c rest].
  - destruct (passed w) as [|p ps]; [discriminate|].
    destruct (w_free w) as [|c free]; [discriminate|].
    cbn [bind] in H. injection H as <-. cbn. by rewrite <- app_assoc.
  - cbn [bind] in H. injection H as <-. cbn. by rewrite <- app_assoc.
Qed.

Lemma linked_write_loop_blocks (fuel : nat) (size offset : Z) : ∀ w w',
  write_loop fuel size offset w = Done w' →
  passed w' ++ ahead w' ++ w_free w' = passed w ++ ahead w ++ w_free w.
Proof.
  induction fuel as [|n IH]; intros w w' H; cbn [write_loop] in H.
  - destruct (written w =? size); [by injection H as <-|discriminate].
  - destruct (written w =? size); [by injection H as <-|].
    destruct (write_step offset w) as [w1| | |] eqn:Hs; try discriminate. cbn [bind] in H.
    apply IH in H. rewrite H. by eapply linked_write_step_blocks.
Qed.

Lemma linked_blocks_exec (c : command) (s s' : t) :
  exec c s = Done s' → linked_blocks s' ≡ₚ linked_blocks s.
Proof.
  intros H. unfold linked_blocks. destruct c as [f k|f sz off|f sz off|f]; cbn [exec] in H.
  - unfold create in H. destruct (file_map s !! f) eqn:Hf.
    { cbn [bind] in H. by injection H as <-. }
    destruct (_ <? _). { cbn [bind] in H. by injection H as <-. }
    destruct (free_list s) as [|b free]; [discriminate|].
    destruct (link _ _ _) as [[chain free']| | |] eqn:Hl; try discriminate.
    cbn [bind] in H. injection H as <-. cbn [free_list file_map].
    rewrite registry_blocks_insert by done. cbn [snd start_block].
    apply link_blocks in Hl. rewrite app_assoc, (Permutation_app_comm free' chain), Hl. done.
  - destruct (read f sz off s); try discriminate. cbn [bind] in H. by injection H as <-.
  - unfold write in H. destruct (file_map s !! f) as [fp|] eqn:Hf.
    2: { cbn [bind] in H. by injection H as <-. }
    destruct (_ && _). { cbn [bind] in H. by injection H as <-. }
    destruct (write_loop _ _ _ _) as [w| | |] eqn:Hw; try discriminate.
    cbn [bind] in H. injection H as <-. cbn [free_list file_map].
    apply linked_write_loop_blocks in Hw. cbn [passed ahead w_free app] in Hw.
    rewrite (registry_blocks_update _ _ f fp) by done.
    rewrite (registry_blocks_delete _ (file_map s) f fp) by done. cbn [snd start_block].
    rewrite !app_assoc. f_equiv.
    rewrite <- app_assoc, (Permutation_app_comm (w_free w)), <- app_assoc, Hw.
    apply Permutation_app_comm.
  - unfold delete_file in H. destruct (file_map s !! f) as [fp|] eqn:Hf.
    2: { cbn [bind] in H. by injection H as <-. }
    cbn [bind] in H. injection H as <-. cbn [free_list file_map].
    rewrite (registry_blocks_delete _ (file_map s) f fp) by done. cbn [snd].
    by rewrite <- app_assoc.
Qed.

Lemma linked_blocks_exec_all (cs : list command) : ∀ s s',
  exec_all cs s = Done s' → linked_blocks s' ≡ₚ linked_blocks s.
Proof.
  induction cs as [|c cs IH]; intros s s' H.
  - by injection H as <-.
  - cbn [exec_all] in H. destruct (exec c s) as [s1| | |] eqn:E; try discriminate.
    cbn [bind] in H. rewrite (IH _ _ H). by eapply linked_blocks_exec.
Qed.

Lemma linked_write_loop_used (n : nat) (size offset : Z) : ∀ w w',
  write_loop n size offset w = Done w' →
  w_used w' - w_used w = w_filesize w' - w_filesize w.
Proof.
  induction n as [|n IH]; intros w w' H; cbn [write_loop] in H.
  - destruct (_ =? _); [injection H as <-; lia|discriminate].
  - destruct (_ =? _); [injection H as <-; lia|].
    destruct (write_step offset w) as [w1| | |] eqn:Hs; try discriminate. cbn [bind] in H.
    apply IH in H. unfold write_step in Hs. destruct (ahead w).
    + destruct (passed w); try discriminate. destruct (w_free w); try discriminate.
      cbn [bind] in Hs. injection Hs as <-. cbn [w_used w_filesize] in H. lia.
    + cbn [bind] in Hs. injection Hs as <-. cbn [w_used w_filesize] in H. lia.
Qed.

Lemma linked_used_memory_exec (c : command) (s s' : t) :
  used_memory s = live_size s → exec c s = Done s' → used_memory s' = live_size s'.
Proof.
  intros Hu H. unfold live_size in *. destruct c as [f k|f sz off|f sz off|f]; cbn [exec] in H.
  - unfold create in H. destruct (file_map s !! f) eqn:Hf.
    { cbn [bind] in H. by injection H as <-. }
    destruct (_ <? _). { cbn [bind] in H. by injection H as <-. }
    destruct (free_list s) as [|b free]; [discriminate|].
    destruct (link _ _ _) as [[chain free']| | |]; try discriminate.
    cbn [bind] in H. injection H as <-. cbn [used_memory file_map].
    rewrite total_size_insert by done. cbn [filesize]. lia.
  - destruct (read f sz off s); try discriminate. cbn [bind] in H. by injection H as <-.
  - unfold write in H. destruct (file_map s !! f) as [fp|] eqn:Hf.
    2: { cbn [bind] in H. by injection H as <-. }
    destruct (_ && _). { cbn [bind] in H. by injection H as <-. }
    destruct (write_loop _ _ _ _) as [w| | |] eqn:Hw; try discriminate.
    cbn [bind] in H. injection H as <-. cbn [used_memory file_map].
    apply linked_write_loop_used in Hw. cbn [w_used w_filesize] in Hw.
    rewrite (total_size_update _ _ f fp) by done. cbn [filesize]. lia.
  - unfold delete_file in H. destruct (file_map s !! f) as [fp|] eqn:Hf.
    2: { cbn [bind] in H. by injection H as <-. }
    cbn [bind] in H. injection H as <-. cbn [used_memory file_map].
    rewrite (total_size_delete _ _ f fp) by done. lia.
Qed.

Lemma linked_used_memory_exec_all (cs : list command) : ∀ s s',
  used_memory s = live_size s → exec_all cs s = Done s' → used_memory s' = live_size s'.
Proof.
  induction cs as [|c cs IH]; intros s s' Hu H.
  - by injection H as <-.
  - cbn [exec_all] in H. destruct (exec c s) as [s1| | |] eqn:E; try discriminate.
    cbn [bind] in H. eapply IH; [|exact H]. by eapply linked_used_memory_exec.
Qed.
End LinkedLoops.

(** ** LinkedFileSystem: the theorems *)

Section LinkedTheorems.
Import LinkedFileSystem.

(** X12: [read] of a registered file prints the blocks of the positions
    [offset, offset + size) of its chain, as far as the chain goes, and
    returns 1 plus the number of blocks it has walked over: the chain up
    to the position [offset + size], or nothing when [size] is 0. *)
Theorem linked_read_walks_the_chain (s : t) (f : string) (fp : File) (size offset : Z) :
  file_map s !! f = Some fp → 0 ≤ offset → 0 ≤ size →
  read f size offset s
  = Done (1 + (if size =? 0 then 0
               else Z.min (offset + size) (Z.of_nat (length (start_block fp)))),
          Ok (take (Z.to_nat size) (drop (Z.to_nat offset) (start_block fp)))).
Proof.
  intros Hf Hoff Hsize. unfold read. rewrite Hf.
  destruct (Z.eqb_spec size 0) as [->|Hne].
  { destruct (start_block fp); cbn; done. }
  set (c := start_block fp).
  destruct (Z.le_gt_cases offset (Z.of_nat (length c))) as [Hle|Hgt].
  - rewrite (linked_read_loop_skip size offset (Z.to_nat offset)) by lia.
    assert (length (drop (Z.to_nat offset) c) = (length c - Z.to_nat offset)%nat) as Hlen
      by apply length_drop.
    set (k := Z.to_nat (Z.min size (Z.of_nat (length (drop (Z.to_nat offset) c))))).
    rewrite (linked_read_loop_take size offset k) by lia.
    cbn [app]. do 2 f_equal; [lia|]. f_equal. apply take_min_length. lia.
  - rewrite (linked_read_loop_skip size offset (length c)) by lia.
    rewrite !drop_ge by lia. cbn [read_loop]. rewrite take_nil. do 2 f_equal. lia.
Qed.

(** Reading 2 blocks from position 1 of the chain 2, 3, 4, 5. *)
Lemma linked_read_walks_the_chain_witness :
  ∃ s, exec_all Workload.queries (new 8) = Done s
       ∧ read "b" 2 1 s = Done (4, Ok [3; 4]).
Proof.
  eexists. split; [vm_compute; reflexivity|].
  apply (linked_read_walks_the_chain _ "b" (mkFile 4 [2; 3; 4; 5]) 2 1);
    [reflexivity|lia|lia].
Defined.

(** X13: a [write] of at least one block to a registered file whose
    chain is not empty and at least as long as [filesize] says, with the
    free blocks the check asks for, returns [1 + offset + size]; the chain
    grows by the blocks from the front of the free list that bring it to
    [offset + size] blocks, also when [offset] lies behind the end of the
    file, and the blocks written are those of the positions
    [offset, offset + size) of the chain. *)
Theorem linked_write_extends_the_chain (s : t) (f : string) (fp : File) (size offset : Z) :
  file_map s !! f = Some fp →
  start_block fp ≠ [] →
  filesize fp ≤ Z.of_nat (length (start_block fp)) →
  0 ≤ offset → 0 < size →
  offset + size - filesize fp ≤ Z.of_nat (length (free_list s)) →
  let g := Z.to_nat (offset + size - Z.of_nat (length (start_block fp))) in
  let chain := start_block fp ++ take g (free_list s) in
  write f size offset s
  = Done (mk (drop g (free_list s))
            (<[f := mkFile (filesize fp + Z.of_nat g) chain]> (file_map s))
            (used_memory s + Z.of_nat g),
          (1 + (offset + size), Ok (take (Z.to_nat size) (drop (Z.to_nat offset) chain)))).
Proof.
  intros Hf Hc Hsz Hoff Hsize Hroom g chain. unfold write. rewrite Hf.
  replace ((offset + size >? filesize fp)
           && (to_size_t (offset + size - filesize fp) >? Z.of_nat (length (free_list s))))
    with false.
  2: { symmetry. apply andb_false_iff.
       destruct (Z.gtb_spec (offset + size) (filesize fp)); [right|by left].
       rewrite to_size_t_nonneg by lia. rewrite Z.gtb_ltb. apply Z.ltb_ge. lia. }
  set (c := start_block fp) in *. set (fr := free_list s) in *.
  set (T := Z.to_nat (offset + size)). set (o := Z.to_nat offset).
  assert (g = (T - length c)%nat) as Hg by lia.
  pose proof (linked_write_loop_spec c fr (filesize fp) (used_memory s) 1 size o T
                Hc Hsize ltac:(lia) ltac:(lia) T 0%nat ltac:(lia)) as Hloop.
  rewrite !Nat.sub_0_l, !take_0, !drop_0 in Hloop.
  rewrite !Z.add_0_r in Hloop.
  replace (Z.to_nat (Z.max offset 0 + size)) with T by lia.
  replace offset with (Z.of_nat o) at 1 by lia.
  change (Z.of_nat 0) with 0 in Hloop. rewrite Hloop. cbn [bind w_free w_filesize passed
    ahead w_used w_access w_out].
  assert (take T (c ++ fr) ++ drop T c = chain) as ->.
  { subst chain. rewrite take_app, <- Hg. destruct (decide (T ≤ length c)%nat).
    - replace g with 0%nat by lia. rewrite !take_0, !app_nil_r. apply take_drop.
    - rewrite take_ge, drop_ge by lia. by rewrite app_nil_r. }
  rewrite <- Hg.
  assert (take (T - o) (drop o (c ++ fr)) = take (Z.to_nat size) (drop o chain)) as ->;
    [|do 3 f_equal; lia].
  replace (T - o)%nat with (Z.to_nat size) by lia.
  rewrite !take_drop_commute. f_equal. subst chain.
  replace (o + Z.to_nat size)%nat with T by lia.
  rewrite !take_app, <- Hg. by rewrite take_idemp.
Qed.

(** Writing 2 blocks at position 4 of a file of 3 blocks, 3 blocks free. *)
Lemma linked_write_extends_the_chain_witness :
  ∃ s, exec_all [CREATE "a" 2; CREATE "b" 3] (new 8) = Done s
       ∧ write "b" 2 4 s
         = Done (mk [] (<["b" := mkFile 6 [2; 3; 4; 5; 6; 7]]> (file_map s)) 8,
                 (7, Ok [6; 7])).
Proof.
  eexists. split; [vm_compute; reflexivity|].
  lazymatch goal with
  | |- write _ _ _ ?s = _ =>
      exact (linked_write_extends_the_chain s "b" (mkFile 3 [2; 3; 4]) 2 4 eq_refl
               ltac:(discriminate) ltac:(simpl; lia) ltac:(lia) ltac:(lia)
               ltac:(simpl; lia))
  end.
Defined.

(** X14: in every state the allocator reaches from its constructor, the
    blocks of the free list and of the chains of the files are the blocks
    0 to [N - 1], each of them once: no block is lost, and none is free
    and in a file, or in two files. *)
Theorem linked_blocks_are_the_device (N : nat) (cs : list command) (s : t) :
  exec_all cs (new N) = Done s →
  linked_blocks s ≡ₚ upto N 0 ∧ NoDup (linked_blocks s).
Proof.
  intros H. assert (linked_blocks s ≡ₚ upto N 0) as Hp.
  { rewrite (linked_blocks_exec_all cs _ _ H). unfold linked_blocks, new.
    cbn [free_list file_map]. rewrite map_to_list_empty. cbn. by rewrite app_nil_r. }
  split; [done|]. rewrite Hp. apply NoDup_upto.
Qed.

Lemma linked_blocks_are_the_device_witness :
  ∃ s, exec_all Workload.queries (new 8) = Done s
       ∧ linked_blocks s ≡ₚ upto 8 0 ∧ NoDup (linked_blocks s).
Proof.
  eexists. split; [vm_compute; reflexivity|].
  apply (linked_blocks_are_the_device 8 Workload.queries). vm_compute; reflexivity.
Defined.

(** X15: in every state the allocator reaches by queries whose creates
    ask for at least one block, [used_memory], the numerator of the storage
    efficiency, is the number of blocks that are not in the free list, and
    lies between 0 and [N]. *)
Theorem linked_used_memory_counts_taken_blocks (N : nat) (cs : list command) (s : t) :
  Forall creates_blocks cs → exec_all cs (new N) = Done s →
  used_memory s = Z.of_nat N - Z.of_nat (length (free_list s))
  ∧ 0 ≤ used_memory s ≤ Z.of_nat N.
Proof.
  intros Hv H.
  assert (used_memory s = live_size s) as Hu.
  { eapply linked_used_memory_exec_all; [|exact H]. unfold live_size. cbn.
    by rewrite total_size_empty. }
  pose proof (linked_sizes_are_taken_blocks N cs s Hv H) as Hl.
  pose proof (linked_blocks_exec_all cs _ _ H) as Hp.
  apply Permutation_length in Hp. unfold linked_blocks, new in Hp.
  cbn [free_list file_map] in Hp. rewrite map_to_list_empty in Hp.
  rewrite !length_app, upto_length in Hp. cbn in Hp. lia.
Qed.

Lemma linked_used_memory_counts_taken_blocks_witness :
  ∃ s, exec_all Workload.queries (new 8) = Done s
       ∧ used_memory s = 8 - Z.of_nat (length (free_list s))
       ∧ 0 ≤ used_memory s ≤ 8.
Proof.
  eexists. split; [vm_compute; reflexivity|].
  apply (linked_used_memory_counts_taken_blocks 8 Workload.queries);
    [|vm_compute; reflexivity].
  repeat (apply Forall_cons; [cbn; first [lia|exact I]|]). apply Forall_nil.
Defined.

End LinkedTheorems.

(** ** IndexedFileSystem: the loops *)

Section IndexedLoops.
Import IndexedFileSystem.

Lemma indexed_read_loop_spec (fp : File) (size : Z) :
  Z.of_nat (length (block_indices fp)) = filesize fp →
  ∀ (n p : nat) rd acc out,
  (Z.to_nat (Z.min (size - rd) (filesize fp - Z.of_nat p)) ≤ n)%nat →
  read_loop n fp size (Z.of_nat p) rd acc out
  = Done (rd + Z.max 0 (Z.min (size - rd) (filesize fp - Z.of_nat p)),
          acc + Z.max 0 (Z.min (size - rd) (filesize fp - Z.of_nat p)),
          out ++ take (Z.to_nat (Z.min (size - rd) (filesize fp - Z.of_nat p)))
                   (drop p (block_indices fp))).
Proof.
  intros Hlen n. induction n as [|n IH]; intros p rd acc out Hn.
  - cbn [read_loop]. replace (Z.to_nat _) with 0%nat by lia.
    rewrite take_0, app_nil_r. f_equal. rewrite !pair_equal_spec. repeat split; (done || lia).
  - cbn [read_loop].
    destruct (Z.ltb_spec (Z.of_nat p) (filesize fp)); cbn [andb];
      [destruct (Z.ltb_spec rd size)|].
    + destruct (lookup_lt_is_Some_2 (block_indices fp) p ltac:(lia)) as [x Hx].
      rewrite (at_index_lookup _ _ _ Hx). cbn [bind].
      replace (Z.of_nat p + 1) with (Z.of_nat (S p)) by lia.
      rewrite IH by lia. rewrite (drop_S _ _ _ Hx).
      replace (Z.to_nat (Z.min (size - rd) (filesize fp - Z.of_nat p)))
        with (S (Z.to_nat (Z.min (size - (rd + 1)) (filesize fp - Z.of_nat (S p))))) by lia.
      cbn [take]. rewrite <- app_assoc. cbn [app]. f_equal.
      rewrite !pair_equal_spec. repeat split; (done || lia).
    + replace (Z.to_nat _) with 0%nat by lia.
      rewrite take_0, app_nil_r. f_equal. rewrite !pair_equal_spec. repeat split; (done || lia).
    + replace (Z.to_nat _) with 0%nat by lia.
      rewrite take_0, app_nil_r. f_equal. rewrite !pair_equal_spec. repeat split; (done || lia).
Qed.
Lemma take_blocks_blocks (n : nat) : ∀ table free t' f',
  take_blocks n table free = Done (t', f') → t' ++ f' = table ++ free.
Proof.
  induction n as [|n IH]; intros table free t' f' H; cbn [take_blocks] in H.
  - by injection H as <- <-.
  - destruct free as [|b free]; [discriminate|]. apply IH in H. by rewrite H, <- app_assoc.
Qed.

Lemma indexed_write_step_blocks (w w' : wstate) :
  write_step w = Done w' → w_table w' ++ w_free w' = w_table w ++ w_free w.
Proof.
  unfold write_step. intros H. destruct (_ >=? _).
  - destruct (w_free w) as [|b free]; [discriminate|]. cbn [bind] in H.
    destruct (at_index _ _); try discriminate. cbn [bind] in H. injection H as <-.
    cbn. by rewrite <- app_assoc.
  - cbn [bind] in H. destruct (at_index _ _); try discriminate. cbn [bind] in H.
    by injection H as <-.
Qed.

Lemma indexed_write_loop_blocks (n : nat) (size : Z) : ∀ w w',
  write_loop n size w = Done w' → w_table w' ++ w_free w' = w_table w ++ w_free w.
Proof.
  induction n as [|n IH]; intros w w' H; cbn [write_loop] in H.
  - by injection H as <-.
  - destruct (written w <? size); [|by injection H as <-].
    destruct (write_step w) as [w1| | |] eqn:Hs; try discriminate. cbn [bind] in H.
    apply IH in H. rewrite H. by apply indexed_write_step_blocks.
Qed.

Lemma indexed_blocks_exec (c : command) (s s' : t) :
  exec c s = Done s' → indexed_blocks s' ≡ₚ indexed_blocks s.
Proof.
  intros H. unfold indexed_blocks. destruct c as [f k|f sz off|f sz off|f]; cbn [exec] in H.
  - unfold create in H. destruct (file_map s !! f) eqn:Hf.
    { cbn [bind] in H. by injection H as <-. }
    destruct (_ <? _). { cbn [bind] in H. by injection H as <-. }
    destruct (take_blocks _ _ _) as [[table free']| | |] eqn:Hl; try discriminate.
    cbn [bind] in H. destruct (at_index _ _); try discriminate.
    cbn [bind] in H. injection H as <-. cbn [free_list file_map].
    rewrite registry_blocks_insert by done. cbn [snd block_indices].
    apply take_blocks_blocks in Hl. cbn [app] in Hl.
    rewrite app_assoc, (Permutation_app_comm free' table), Hl. done.
  - destruct (read f sz off s); try discriminate. cbn [bind] in H. by injection H as <-.
  - unfold write in H. destruct (file_map s !! f) as [fp|] eqn:Hf.
    2: { cbn [bind] in H. by injection H as <-. }
    destruct (_ && _). { cbn [bind] in H. by injection H as <-. }
    destruct (write_loop _ _ _) as [w| | |] eqn:Hw; try discriminate.
    cbn [bind] in H. injection H as <-. cbn [free_list file_map].
    apply indexed_write_loop_blocks in Hw. cbn [w_table w_free] in Hw.
    rewrite (registry_blocks_update _ _ f fp) by done.
    rewrite (registry_blocks_delete _ (file_map s) f fp) by done. cbn [snd block_indices].
    rewrite !app_assoc. f_equiv.
    rewrite (Permutation_app_comm (w_free w)), Hw.
    apply Permutation_app_comm.
  - unfold delete_file in H. destruct (file_map s !! f) as [fp|] eqn:Hf.
    2: { cbn [bind] in H. by injection H as <-. }
    cbn [bind] in H. injection H as <-. cbn [free_list file_map].
    rewrite (registry_blocks_delete _ (file_map s) f fp) by done. cbn [snd].
    by rewrite <- app_assoc.
Qed.

Lemma indexed_blocks_exec_all (cs : list command) : ∀ s s',
  exec_all cs s = Done s' → indexed_blocks s' ≡ₚ indexed_blocks s.
Proof.
  induction cs as [|c cs IH]; intros s s' H.
  - by injection H as <-.
  - cbn [exec_all] in H. destruct (exec c s) as [s1| | |] eqn:E; try discriminate.
    cbn [bind] in H. rewrite (IH _ _ H). by eapply indexed_blocks_exec.
Qed.

Lemma indexed_write_loop_used (n : nat) (size : Z) : ∀ w w',
  write_loop n size w = Done w' →
  w_used w' - w_used w = w_filesize w' - w_filesize w.
Proof.
  induction n as [|n IH]; intros w w' H; cbn [write_loop] in H.
  - injection H as <-. lia.
  - destruct (written w <? size); [|injection H as <-; lia].
    destruct (write_step w) as [w1| | |] eqn:Hs; try discriminate. cbn [bind] in H.
    apply IH in H. unfold write_step in Hs. destruct (_ >=? _).
    + destruct (w_free w); try discriminate. cbn [bind] in Hs.
      destruct (at_index _ _); try discriminate. cbn [bind] in Hs.
      injection Hs as <-. cbn [w_used w_filesize] in H. lia.
    + cbn [bind] in Hs. destruct (at_index _ _); try discriminate. cbn [bind] in Hs.
      injection Hs as <-. cbn [w_used w_filesize] in H. lia.
Qed.

Lemma indexed_used_memory_exec (c : command) (s s' : t) :
  used_memory s = live_size s → exec c s = Done s' → used_memory s' = live_size s'.
Proof.
  intros Hu H. unfold live_size in *. destruct c as [f k|f sz off|f sz off|f]; cbn [exec] in H.
  - unfold create in H. destruct (file_map s !! f) eqn:Hf.
    { cbn [bind] in H. by injection H as <-. }
    destruct (_ <? _). { cbn [bind] in H. by injection H as <-. }
    destruct (take_blocks _ _ _) as [[table free']| | |]; try discriminate.
    cbn [bind] in H. destruct (at_index _ _); try discriminate.
    cbn [bind] in H. injection H as <-. cbn [used_memory file_map].
    rewrite total_size_insert by done. cbn [filesize]. lia.
  - destruct (read f sz off s); try discriminate. cbn [bind] in H. by injection H as <-.
  - unfold write in H. destruct (file_map s !! f) as [fp|] eqn:Hf.
    2: { cbn [bind] in H. by injection H as <-. }
    destruct (_ && _). { cbn [bind] in H. by injection H as <-. }
    destruct (write_loop _ _ _) as [w| | |] eqn:Hw; try discriminate.
    cbn [bind] in H. injection H as <-. cbn [used_memory file_map].
    apply indexed_write_loop_used in Hw. cbn [w_used w_filesize] in Hw.
    rewrite (total_size_update _ _ f fp) by done. cbn [filesize]. lia.
  - unfold delete_file in H. destruct (file_map s !! f) as [fp|] eqn:Hf.
    2: { cbn [bind] in H. by injection H as <-. }
    cbn [bind] in H. injection H as <-. cbn [used_memory file_map].
    rewrite (total_size_delete _ _ f fp) by done. lia.
Qed.

Lemma indexed_used_memory_exec_all (cs : list command) : ∀ s s',
  used_memory s = live_size s → exec_all cs s = Done s' → used_memory s' = live_size s'.
Proof.
  induction cs as [|c cs IH]; intros s s' Hu H.
  - by injection H as <-.
  - cbn [exec_all] in H. destruct (exec c s) as [s1| | |] eqn:E; try discriminate.
    cbn [bind] in H. eapply IH; [|exact H]. by eapply indexed_used_memory_exec.
Qed.
End IndexedLoops.

(** ** IndexedFileSystem: the theorems *)

Section IndexedTheorems.
Import IndexedFileSystem.

(** X16: [read] of a registered file whose table is as long as the file
    is large reads the table inside its bounds: it prints the blocks of
    the positions [offset, offset + size) that lie before the end of the
    file ([size] being the size of the file when -1 is passed) and returns
    1 plus their number. *)
Theorem indexed_read_in_bounds (s : t) (f : string) (fp : File) (size offset : Z) :
  file_map s !! f = Some fp →
  Z.of_nat (length (block_indices fp)) = filesize fp →
  0 ≤ offset → -1 ≤ size →
  let size' := if size =? -1 then filesize fp else size in
  read f size offset s
  = Done (1 + Z.max 0 (Z.min size' (filesize fp - offset)),
          Ok (take (Z.to_nat size') (drop (Z.to_nat offset) (block_indices fp)))).
Proof.
  intros Hf Hlen Hoff Hsize size'. unfold read. rewrite Hf. fold size'.
  replace offset with (Z.of_nat (Z.to_nat offset)) at 1 by lia.
  rewrite indexed_read_loop_spec by (done || lia). cbn [bind app].
  rewrite Z.sub_0_r, Z2Nat.id by lia. do 3 f_equal.
  apply take_min_length. rewrite length_drop. lia.
Qed.

(** Reading the file of 2 blocks from position 1, with the default size. *)
Lemma indexed_read_in_bounds_witness :
  read "a" (-1) 1 Scenario.indexed_two_blocks = Done (2, Ok [1]).
Proof.
  apply (indexed_read_in_bounds Scenario.indexed_two_blocks "a" (mkFile 2 [0; 1]) (-1) 1);
    [reflexivity|reflexivity|lia|lia].
Defined.

(** X17: [create] of a new file of 0 blocks passes the check of the free
    list, takes no block and then reads [block_indices[0]] of the empty
    table for its message. *)
Theorem indexed_create_zero_undefined (s : t) (f : string) :
  file_map s !! f = None → create f 0 s = Undefined.
Proof.
  intros Hf. unfold create. rewrite Hf. change (to_size_t 0) with 0.
  by rewrite (proj2 (Z.ltb_ge _ 0)) by lia.
Qed.

Lemma indexed_create_zero_undefined_witness :
  create "a" 0 (new 5) = Undefined.
Proof. apply (indexed_create_zero_undefined (new 5) "a"). reflexivity. Defined.

(** X18: in every state the allocator reaches from its constructor, the
    blocks of the free list and of the tables of the files are the blocks
    0 to [N - 1], each of them once. *)
Theorem indexed_blocks_are_the_device (N : nat) (cs : list command) (s : t) :
  exec_all cs (new N) = Done s →
  indexed_blocks s ≡ₚ upto N 0 ∧ NoDup (indexed_blocks s).
Proof.
  intros H. assert (indexed_blocks s ≡ₚ upto N 0) as Hp.
  { rewrite (indexed_blocks_exec_all cs _ _ H). unfold indexed_blocks, new.
    cbn [free_list file_map]. rewrite map_to_list_empty. cbn. by rewrite app_nil_r. }
  split; [done|]. rewrite Hp. apply NoDup_upto.
Qed.

Lemma indexed_blocks_are_the_device_witness :
  ∃ s, exec_all Workload.queries (new 8) = Done s
       ∧ indexed_blocks s ≡ₚ upto 8 0 ∧ NoDup (indexed_blocks s).
Proof.
  eexists. split; [vm_compute; reflexivity|].
  apply (indexed_blocks_are_the_device 8 Workload.queries). vm_compute; reflexivity.
Defined.

(** X19: in every state the allocator reaches by queries without negative
    numbers, [used_memory], the numerator of the storage efficiency, is the
    number of blocks that are not in the free list, and lies between 0 and
    [N]. *)
Theorem indexed_used_memory_counts_taken_blocks (N : nat) (cs : list command) (s : t) :
  Forall valid cs → exec_all cs (new N) = Done s →
  used_memory s = Z.of_nat N - Z.of_nat (length (free_list s))
  ∧ 0 ≤ used_memory s ≤ Z.of_nat N.
Proof.
  intros Hv H.
  assert (used_memory s = live_size s) as Hu.
  { eapply indexed_used_memory_exec_all; [|exact H]. unfold live_size. cbn.
    by rewrite total_size_empty. }
  pose proof (indexed_sizes_are_taken_blocks N cs s Hv H) as Hl.
  pose proof (indexed_blocks_exec_all cs _ _ H) as Hp.
  apply Permutation_length in Hp. unfold indexed_blocks, new in Hp.
  cbn [free_list file_map] in Hp. rewrite map_to_list_empty in Hp.
  rewrite !length_app, upto_length in Hp. cbn in Hp. lia.
Qed.

Lemma indexed_used_memory_counts_taken_blocks_witness :
  ∃ s, exec_all Workload.queries (new 8) = Done s
       ∧ used_memory s = 8 - Z.of_nat (length (free_list s))
       ∧ 0 ≤ used_memory s ≤ 8.
Proof.
  eexists. split; [vm_compute; reflexivity|].
  apply (indexed_used_memory_counts_taken_blocks 8 Workload.queries);
    [exact workload_valid|vm_compute; reflexivity].
Defined.

End IndexedTheorems.

(** ** ModifiedContiguousFileSystem: the walk and the release of a chain *)

Section ModifiedLoops.
Import ModifiedContiguousFileSystem.
Variable N : nat.

(** The loop over the blocks of a run, in [read]. *)
Lemma run_loop_read (b : block) (size_ : Z) (n : nat) : ∀ i count access out,
  (Z.to_nat (Z.min (size b - i) (size_ - count)) ≤ n)%nat →
  run_loop n b (λ rd, rd <? size_) i count access out
  = (count + Z.max 0 (Z.min (size b - i) (size_ - count)),
     access + Z.max 0 (Z.min (size b - i) (size_ - count)),
     out ++ upto (Z.to_nat (Z.min (size b - i) (size_ - count))) (start_block b + i)).
Proof.
  induction n as [|n IH]; intros i count access out Hn; cbn [run_loop].
  - replace (Z.to_nat _) with 0%nat by lia. cbn [upto]. rewrite app_nil_r.
    rewrite !pair_equal_spec. repeat split; (done || lia).
  - destruct (Z.ltb_spec i (size b)); cbn [andb]; [destruct (Z.ltb_spec count size_)|].
    + rewrite IH by lia.
      replace (Z.to_nat (Z.min (size b - i) (size_ - count)))
        with (S (Z.to_nat (Z.min (size b - (i + 1)) (size_ - (count + 1))))) by lia.
      cbn [upto]. rewrite <- app_assoc. cbn [app].
      rewrite !pair_equal_spec. repeat split; try lia. do 3 f_equal. lia.
    + replace (Z.to_nat _) with 0%nat by lia. cbn [upto]. rewrite app_nil_r.
      rewrite !pair_equal_spec. repeat split; (done || lia).
    + replace (Z.to_nat _) with 0%nat by lia. cbn [upto]. rewrite app_nil_r.
      rewrite !pair_equal_spec. repeat split; (done || lia).
Qed.

(** The walk over the runs that lie before the offset. *)
Lemma walk_skip (size_ : Z) (more : Z → bool) (pre rest : list block) : ∀ k,
  (∀ b, b ∈ pre → 0 ≤ size b) →
  k_ahead k = pre ++ rest →
  k_count k < size_ →
  k_bno k + chain_size pre ≤ k_offset k →
  walk (pre ++ rest) size_ more k
  = walk rest size_ more
      (mkWalk (k_offset k) (k_bno k + chain_size pre) (k_count k)
         (k_access k + Z.of_nat (length pre)) (k_out k) (k_passed k ++ pre) rest).
Proof.
  induction pre as [|b pre IH]; intros k Hsz Hk Hcnt Hoff.
  - cbn [app chain_size length]. rewrite app_nil_r, !Z.add_0_r. cbn [app] in Hk.
    rewrite <- Hk. by destruct k.
  - cbn [app walk]. rewrite (proj2 (Z.ltb_lt _ _) Hcnt).
    pose proof (Hsz b ltac:(left)) as Hb.
    pose proof (chain_size_nonneg pre ltac:(intros; apply Hsz; by right)) as Hpre.
    cbn [chain_size] in Hoff.
    unfold visit. rewrite (proj2 (Z.ltb_ge (k_offset k) (k_bno k + size b))) by lia.
    rewrite andb_false_r. rewrite IH; cbn [k_ahead k_count k_bno k_offset k_access k_out
      k_passed]; [|intros; apply Hsz; by right|done|done|lia].
    cbn [chain_size length]. rewrite <- (assoc_L (++)). cbn [app].
    do 2 f_equal; lia.
Qed.



Lemma modified_used_memory_exec (c : command) (s s' : t) :
  used_memory s = live_size s → exec N c s = Done s' → used_memory s' = live_size s'.
Proof.
  intros Hu H. unfold live_size, used_memory in *.
  destruct c as [f k|f sz off|f sz off|f]; cbn [exec] in H.
  - unfold create in H. destruct (file_map s !! f) eqn:Hf.
    { cbn [bind] in H. by injection H as <-. }
    destruct (ContiguousFileSystem.get_index N (base s) k) as [[st cur]| | |];
      try discriminate.
    cbn [bind] in H. destruct (st =? -1). { cbn [bind] in H. by injection H as <-. }
    destruct (assign_run N true (memory_map s) st k); try discriminate.
    cbn [bind] in H. injection H as <-.
    cbn [base file_map with_memory ContiguousFileSystem.used_memory].
    rewrite total_size_insert by done. cbn [filesize]. unfold used_memory. lia.
  - destruct (read f sz off s); try discriminate. cbn [bind] in H. by injection H as <-.
  - unfold write, grow in H. destruct (file_map s !! f) as [fp|] eqn:Hf.
    2: { cbn [bind] in H. by injection H as <-. }
    destruct (sz + off >? filesize fp).
    + destruct (ContiguousFileSystem.get_index N (base s) _) as [[index cur]| | |];
        try discriminate.
      cbn [bind] in H. destruct (assign_run N true _ _ _); try discriminate.
      cbn [bind] in H. destruct (index =? -1).
      { cbn [bind] in H. by injection H as <-. }
      cbn [bind start filesize] in H.
      destruct (k_passed _); [discriminate|]. cbn [bind] in H. injection H as <-.
      cbn [base file_map with_memory ContiguousFileSystem.used_memory].
      rewrite (total_size_update _ _ f fp) by done. cbn [filesize]. unfold used_memory. lia.
    + cbn [bind] in H. injection H as <-. cbn [base file_map].
      rewrite (total_size_update _ _ f fp) by done. cbn [filesize]. lia.
  - unfold delete_file in H. destruct (file_map s !! f) as [fp|] eqn:Hf.
    2: { cbn [bind] in H. by injection H as <-. }
    destruct (release N _ _); try discriminate.
    cbn [bind] in H. injection H as <-.
    cbn [base file_map with_memory ContiguousFileSystem.used_memory].
    rewrite (total_size_delete _ _ f fp) by done. unfold used_memory. lia.
Qed.

Lemma modified_used_memory_exec_all (cs : list command) : ∀ s s',
  used_memory s = live_size s → exec_all N cs s = Done s' → used_memory s' = live_size s'.
Proof.
  induction cs as [|c cs IH]; intros s s' Hu H.
  - by injection H as <-.
  - cbn [exec_all] in H. destruct (exec N c s) as [s1| | |] eqn:E; try discriminate.
    cbn [bind] in H. eapply IH; [|exact H]. by eapply modified_used_memory_exec.
Qed.
End ModifiedLoops.

(** ** ModifiedContiguousFileSystem: the theorems *)

Section ModifiedTheorems.
Import ModifiedContiguousFileSystem.

(** X20: in every state the allocator reaches, every file has a chain of
    runs that is not empty, whose sizes add up to the size of the file and
    whose blocks are on the device and marked used; no block belongs to
    two runs, of one file or of two; and the sizes of the files add up to
    the number of used blocks. *)
Theorem modified_runs_never_overlap (N : nat) (alg : Strategy) (cs : list command) (s : t) :
  Forall valid cs → exec_all N cs (new N alg) = Done s → consistent N s.
Proof.
  intros Hv H. eapply modified_consistent_exec_all; [done|apply modified_consistent_new|done].
Qed.

Lemma modified_runs_never_overlap_witness :
  ∃ s, exec_all 8 Workload.queries (new 8 FIRST_FIT) = Done s ∧ consistent 8 s.
Proof.
  eexists. split; [vm_compute; reflexivity|].
  apply (modified_runs_never_overlap 8 FIRST_FIT Workload.queries);
    [exact workload_valid|vm_compute; reflexivity].
Defined.



(** X22: a [write] of 0 blocks at an offset behind the end of a
    registered file does not return: when [get_index] finds the
    [offset - filesize] blocks, they are marked used and [last->next] is
    assigned with [last] still null; when it finds none, [set(-1)]
    throws. *)
Theorem modified_write_nothing_past_end (N : nat) (s : t) (f : string) (fp : File)
  (offset index cur : Z) :
  file_map s !! f = Some fp →
  filesize fp < offset →
  ContiguousFileSystem.get_index N (base s) (offset - filesize fp) = Done (index, cur) →
  write N f 0 offset s = if index =? -1 then Thrown else Undefined.
Proof.
  intros Hf Hoff Hg. unfold write, grow. rewrite Hf, !Z.add_0_l.
  rewrite (proj2 (Z.gtb_gt _ _)) by lia. rewrite Hg. cbn [bind].
  destruct (Z.eqb_spec index (-1)) as [->|Hne].
  - rewrite assign_run_minus_one by lia. done.
  - pose proof (get_index_free N (base s) _ index cur Hg Hne) as Hfree.
    fold (memory_map s) in Hfree.
    destruct (assign_run_free_run N true (memory_map s) index _ Hfree) as [m ->].
    cbn [bind start]. destruct (start fp); done.
Qed.

Lemma modified_write_nothing_past_end_witness :
  ∃ s, exec_all 8 [CREATE "a" 2] (new 8 FIRST_FIT) = Done s
       ∧ write 8 "a" 0 5 s = Undefined.
Proof.
  eexists. split; [vm_compute; reflexivity|].
  apply (modified_write_nothing_past_end 8 _ "a" (mkFile 2 [mkBlock 0 2]) 5 2 0);
    [reflexivity|simpl; lia|vm_compute; reflexivity].
Defined.

(** X23: a [read] that lies inside one run of the chain of a registered
    file prints the [size] blocks of that run from the position of
    [offset] in it, and returns [size + 1]. *)
Theorem modified_read_within_run (s : t) (f : string) (fp : File) (pre post : list block)
  (b : block) (size_ offset : Z) :
  file_map s !! f = Some fp →
  start fp = pre ++ b :: post →
  (∀ b', b' ∈ pre → 0 ≤ size b') →
  chain_size pre ≤ offset →
  0 ≤ size_ →
  offset + size_ ≤ chain_size pre + size b →
  read f size_ offset s
  = Done (size_ + 1, Ok (upto (Z.to_nat size_) (start_block b + (offset - chain_size pre)))).
Proof.
  intros Hf Hchain Hsz Hoff Hsize Hin. unfold read. rewrite Hf.
  rewrite (proj2 (Z.eqb_neq size_ (-1))) by lia. do 3 f_equal.
  destruct (decide (size_ = 0)) as [->|Hne].
  { destruct (start fp); cbn; done. }
  rewrite Hchain.
  rewrite walk_skip; cbn [k_ahead k_count k_bno k_offset k_access k_out k_passed];
    [|done|done|lia|lia].
  cbn [walk k_count]. rewrite (proj2 (Z.ltb_lt 0 size_)) by lia.
  unfold visit. cbn [k_ahead k_count k_bno k_offset k_access k_out k_passed].
  rewrite Z.geb_leb, (proj2 (Z.leb_le _ _)), (proj2 (Z.ltb_lt _ _)) by lia. cbn [andb].
  rewrite Z.add_0_l.
  rewrite run_loop_read by lia. cbn [app].
  replace (Z.min (size b - (offset - chain_size pre)) (size_ - 0)) with size_ by lia.
  assert (∀ k post', k_count k = size_ →
            k_out (walk post' size_ (λ rd, rd <? size_) k) = k_out k) as Hstop.
  { intros k post' Hk. destruct post'; cbn [walk]; [done|].
    by rewrite (proj2 (Z.ltb_ge _ _)) by lia. }
  rewrite Hstop; cbn [k_count k_out]; [done|lia].
Qed.

(** Reading the block at position 3 of a file with the runs 2, 3, 4 and 0. *)
Lemma modified_read_within_run_witness :
  ∃ s, exec_all 8 Workload.queries (new 8 FIRST_FIT) = Done s
       ∧ read "b" 1 3 s = Done (2, Ok [0]).
Proof.
  eexists. split; [vm_compute; reflexivity|].
  apply (modified_read_within_run _ "b" (mkFile 4 [mkBlock 2 3; mkBlock 0 1])
           [mkBlock 2 3] [] (mkBlock 0 1) 1 3);
    [reflexivity|reflexivity| |simpl; lia|lia|simpl; lia].
  intros b' Hb'. apply list_elem_of_singleton in Hb' as ->. simpl. lia.
Defined.



(** X25: in every state the allocator reaches, [used_memory], the
    numerator of the storage efficiency, is the number of used blocks of
    the map, and lies between 0 and [N]. *)
Theorem modified_used_memory_counts_used_blocks (N : nat) (alg : Strategy)
  (cs : list command) (s : t) :
  Forall valid cs → exec_all N cs (new N alg) = Done s →
  used_memory s = popcount (memory_map s) ∧ 0 ≤ used_memory s ≤ Z.of_nat N.
Proof.
  intros Hv H.
  assert (used_memory s = live_size s) as Hu.
  { eapply modified_used_memory_exec_all; [|exact H]. unfold live_size. cbn.
    by rewrite total_size_empty. }
  assert (consistent N s) as [Hlen _ _ Hcnt].
  { eapply modified_consistent_exec_all; [done|apply modified_consistent_new|done]. }
  pose proof (popcount_bounds (memory_map s)). split; lia.
Qed.

Lemma modified_used_memory_counts_used_blocks_witness :
  ∃ s, exec_all 8 Workload.queries (new 8 FIRST_FIT) = Done s
       ∧ used_memory s = popcount (memory_map s) ∧ 0 ≤ used_memory s ≤ 8.
Proof.
  eexists. split; [vm_compute; reflexivity|].
  apply (modified_used_memory_counts_used_blocks 8 FIRST_FIT Workload.queries);
    [exact workload_valid|vm_compute; reflexivity].
Defined.

End ModifiedTheorems.

(** ** The driver *)










Section DriverFacts.
Import Driver.

Lemma driver_step_exec (l : line) (c : command) (d d' : t) :
  query l = Some c →
  step l d = Done d' →
  ModifiedContiguousFileSystem.exec DEVICE c (mcfs d) = Done (mcfs d')
  ∧ ContiguousFileSystem.exec DEVICE c (cfs d) = Done (cfs d')
  ∧ IndexedFileSystem.exec c (ifs d) = Done (ifs d')
  ∧ LinkedFileSystem.exec c (lfs d) = Done (lfs d').
Proof.
  intros Hq H. unfold step in H. rewrite Hq in H.
  destruct c as [f k|f sz off|f sz off|f];
    cbn [ModifiedContiguousFileSystem.exec ContiguousFileSystem.exec
         IndexedFileSystem.exec LinkedFileSystem.exec].
  - destruct (ModifiedContiguousFileSystem.create _ _ _ _) as [[m ?]| | |]; try discriminate.
    cbn [bind] in H.
    destruct (ContiguousFileSystem.create _ _ _ _) as [[c ?]| | |]; try discriminate.
    cbn [bind] in H.
    destruct (IndexedFileSystem.create _ _ _) as [[i ?]| | |]; try discriminate.
    cbn [bind] in H.
    destruct (LinkedFileSystem.create _ _ _) as [[l' ?]| | |]; try discriminate.
    cbn [bind] in H. by injection H as <-.
  - destruct (ModifiedContiguousFileSystem.read _ _ _ _) as [[ba1 ?]| | |]; try discriminate.
    cbn [bind] in H. destruct (tally ba1 _ _).
    destruct (ContiguousFileSystem.read _ _ _ _) as [[ba2 ?]| | |]; try discriminate.
    cbn [bind] in H. destruct (tally ba2 _ _).
    destruct (IndexedFileSystem.read _ _ _ _) as [[ba3 ?]| | |]; try discriminate.
    cbn [bind] in H. destruct (tally ba3 _ _).
    destruct (LinkedFileSystem.read _ _ _ _) as [[ba4 ?]| | |]; try discriminate.
    cbn [bind] in H. destruct (tally ba4 _ _). by injection H as <-.
  - destruct (ModifiedContiguousFileSystem.write _ _ _ _ _) as [[m [ba1 ?]]| | |];
      try discriminate.
    cbn [bind] in H. destruct (tally ba1 _ _).
    destruct (ContiguousFileSystem.write _ _ _ _ _) as [[c [ba2 ?]]| | |]; try discriminate.
    cbn [bind] in H. destruct (tally ba2 _ _).
    destruct (IndexedFileSystem.write _ _ _ _) as [[i [ba3 ?]]| | |]; try discriminate.
    cbn [bind] in H. destruct (tally ba3 _ _).
    destruct (LinkedFileSystem.write _ _ _ _) as [[l' [ba4 ?]]| | |]; try discriminate.
    cbn [bind] in H. destruct (tally ba4 _ _). by injection H as <-.
  - destruct (ModifiedContiguousFileSystem.delete_file _ _ _) as [[m ?]| | |];
      try discriminate.
    cbn [bind] in H.
    destruct (ContiguousFileSystem.delete_file _ _ _) as [[c ?]| | |]; try discriminate.
    cbn [bind] in H.
    destruct (IndexedFileSystem.delete_file _ _) as [[i ?]| | |]; try discriminate.
    cbn [bind] in H.
    destruct (LinkedFileSystem.delete_file _ _) as [[l' ?]| | |]; try discriminate.
    cbn [bind] in H. by injection H as <-.
Qed.

Lemma driver_step_total (l : line) (c : command) (d : t) m' c' i' l' :
  query l = Some c →
  ModifiedContiguousFileSystem.exec DEVICE c (mcfs d) = Done m' →
  ContiguousFileSystem.exec DEVICE c (cfs d) = Done c' →
  IndexedFileSystem.exec c (ifs d) = Done i' →
  LinkedFileSystem.exec c (lfs d) = Done l' →
  ∃ d', step l d = Done d'.
Proof.
  intros Hq Hm Hc Hi Hl. unfold step. rewrite Hq.
  destruct c as [f k|f sz off|f sz off|f];
    cbn [ModifiedContiguousFileSystem.exec ContiguousFileSystem.exec
         IndexedFileSystem.exec LinkedFileSystem.exec] in Hm, Hc, Hi, Hl.
  - destruct (ModifiedContiguousFileSystem.create _ _ _ _) as [[? ?]| | |]; try discriminate.
    destruct (ContiguousFileSystem.create _ _ _ _) as [[? ?]| | |]; try discriminate.
    destruct (IndexedFileSystem.create _ _ _) as [[? ?]| | |]; try discriminate.
    destruct (LinkedFileSystem.create _ _ _) as [[? ?]| | |]; try discriminate.
    cbn [bind]. by eexists.
  - destruct (ModifiedContiguousFileSystem.read _ _ _ _) as [[ba1 ?]| | |]; try discriminate.
    cbn [bind]. destruct (tally ba1 _ _).
    destruct (ContiguousFileSystem.read _ _ _ _) as [[ba2 ?]| | |]; try discriminate.
    cbn [bind]. destruct (tally ba2 _ _).
    destruct (IndexedFileSystem.read _ _ _ _) as [[ba3 ?]| | |]; try discriminate.
    cbn [bind]. destruct (tally ba3 _ _).
    destruct (LinkedFileSystem.read _ _ _ _) as [[ba4 ?]| | |]; try discriminate.
    cbn [bind]. destruct (tally ba4 _ _). by eexists.
  - destruct (ModifiedContiguousFileSystem.write _ _ _ _ _) as [[? [ba1 ?]]| | |];
      try discriminate.
    cbn [bind]. destruct (tally ba1 _ _).
    destruct (ContiguousFileSystem.write _ _ _ _ _) as [[? [ba2 ?]]| | |]; try discriminate.
    cbn [bind]. destruct (tally ba2 _ _).
    destruct (IndexedFileSystem.write _ _ _ _) as [[? [ba3 ?]]| | |]; try discriminate.
    cbn [bind]. destruct (tally ba3 _ _).
    destruct (LinkedFileSystem.write _ _ _ _) as [[? [ba4 ?]]| | |]; try discriminate.
    cbn [bind]. destruct (tally ba4 _ _). by eexists.
  - destruct (ModifiedContiguousFileSystem.delete_file _ _ _) as [[? ?]| | |];
      try discriminate.
    destruct (ContiguousFileSystem.delete_file _ _ _) as [[? ?]| | |]; try discriminate.
    destruct (IndexedFileSystem.delete_file _ _) as [[? ?]| | |]; try discriminate.
    destruct (LinkedFileSystem.delete_file _ _) as [[? ?]| | |]; try discriminate.
    cbn [bind]. by eexists.
Qed.

End DriverFacts.

(** ** The driver: the theorems *)

Section DriverTheorems.
Import Driver.

(** X26: the driver runs the lines of a file to the end exactly when each
    of the four allocators, taken alone, runs the queries of the file to
    the end, and it leaves each allocator in the state that allocator
    reaches alone: the allocators do not influence one another, and a line
    with an unknown operation is skipped. *)
Theorem driver_runs_each_allocator_alone (ls : list line) : ∀ d m' c' i' l',
  (∃ d', run ls d = Done d' ∧ mcfs d' = m' ∧ cfs d' = c' ∧ ifs d' = i' ∧ lfs d' = l')
  ↔ ModifiedContiguousFileSystem.exec_all DEVICE (omap query ls) (mcfs d) = Done m'
    ∧ ContiguousFileSystem.exec_all DEVICE (omap query ls) (cfs d) = Done c'
    ∧ IndexedFileSystem.exec_all (omap query ls) (ifs d) = Done i'
    ∧ LinkedFileSystem.exec_all (omap query ls) (lfs d) = Done l'.
Proof.
  induction ls as [|l ls IH]; intros d m' c' i' l'.
  - cbn [run omap list_omap ModifiedContiguousFileSystem.exec_all
         ContiguousFileSystem.exec_all IndexedFileSystem.exec_all
         LinkedFileSystem.exec_all]. split.
    + intros (d' & H & <- & <- & <- & <-). by injection H as <-.
    + intros (H1 & H2 & H3 & H4). exists d. by simplify_eq.
  - cbn [run omap list_omap]. destruct (query l) as [c|] eqn:Hq.
    + cbn [ModifiedContiguousFileSystem.exec_all ContiguousFileSystem.exec_all
           IndexedFileSystem.exec_all LinkedFileSystem.exec_all]. split.
      * intros (d' & H & Hd'). destruct (step l d) as [d1| | |] eqn:Hs; try discriminate.
        cbn [bind] in H.
        destruct (driver_step_exec l c d d1 Hq Hs) as (-> & -> & -> & ->). cbn [bind].
        apply IH. by exists d'.
      * intros (H1 & H2 & H3 & H4).
        destruct (ModifiedContiguousFileSystem.exec _ _ _) as [m1| | |] eqn:E1;
          try discriminate.
        destruct (ContiguousFileSystem.exec _ _ _) as [c1| | |] eqn:E2; try discriminate.
        destruct (IndexedFileSystem.exec _ _) as [i1| | |] eqn:E3; try discriminate.
        destruct (LinkedFileSystem.exec _ _) as [l1| | |] eqn:E4; try discriminate.
        cbn [bind] in H1, H2, H3, H4.
        destruct (driver_step_total l c d m1 c1 i1 l1 Hq E1 E2 E3 E4) as [d1 Hs].
        rewrite Hs. cbn [bind].
        destruct (driver_step_exec l c d d1 Hq Hs) as (E1' & E2' & E3' & E4').
        rewrite E1 in E1'. rewrite E2 in E2'. rewrite E3 in E3'. rewrite E4 in E4'.
        injection E1' as ->. injection E2' as ->. injection E3' as ->. injection E4' as ->.
        by apply IH.
    + assert (step l d = Done d) as -> by (unfold step; by rewrite Hq).
      cbn [bind]. apply IH.
Qed.

(** X27: for a WRITE line that names a file none of the allocators holds,
    the driver counts a success for the modified contiguous allocator,
    which returns 0, and for no other; no time is added and no allocator
    changes.  A READ line of that kind changes nothing. *)
Theorem driver_counts_missing_file_write (f : string) (sz off : Z) (d : t) :
  ModifiedContiguousFileSystem.file_map (mcfs d) !! f = None →
  ContiguousFileSystem.file_map (cfs d) !! f = None →
  IndexedFileSystem.file_map (ifs d) !! f = None →
  LinkedFileSystem.file_map (lfs d) !! f = None →
  step (mkLine "WRITE" f sz off) d
  = Done (mk (mcfs d) (lfs d) (ifs d) (cfs d) (cfs_time d) (lfs_time d) (mcfs_time d + 0)
            (ifs_time d) (success_cfs d) (success_lfs d) (success_mcfs d + 1)
            (success_ifs d))
  ∧ step (mkLine "READ" f sz off) d = Done d.
Proof.
  intros Hm Hc Hi Hl. unfold step.
  change (query (mkLine "WRITE" f sz off)) with (Some (WRITE f sz off)).
  change (query (mkLine "READ" f sz off)) with (Some (READ f sz off)).
  unfold ModifiedContiguousFileSystem.write, ContiguousFileSystem.write,
    IndexedFileSystem.write, LinkedFileSystem.write,
    ModifiedContiguousFileSystem.read, ContiguousFileSystem.read,
    IndexedFileSystem.read, LinkedFileSystem.read.
  rewrite Hm, Hc, Hi, Hl. cbn. split; [done|by destruct d].
Qed.

Lemma driver_counts_missing_file_write_witness :
  step (mkLine "WRITE" "x" 1 0) init
  = Done (mk (mcfs init) (lfs init) (ifs init) (cfs init) 0 0 0 0 0 0 1 0)
  ∧ step (mkLine "READ" "x" 1 0) init = Done init.
Proof.
  apply (driver_counts_missing_file_write "x" 1 0 init); reflexivity.
Defined.



End DriverTheorems.
